(** * mongoose-edgeapi: the query compiler, pagination meta and bindings

    A shallow embedding of [src/mongoose-edgeapi.js]: the parameter-to-query
    compiler [buildQueryFromParams] with its modifiers, the pagination
    meta builder [buildResultsMeta], the socket event handlers and the
    shared default configuration.

    The compiler is modelled twice.  On trees, where a parameter set is
    the value it denotes, for what it computes; on a store of objects,
    where it assigns and deletes through references as the code does,
    for what it does to the objects its callers hold.  The two are
    related: on a value of the store that stands for a tree, the
    compiler on the store does what the compiler on trees computes
    ([Refinement.compile_follows]).

    Conventions.  A number is an integer or NaN (fractions and the
    infinities are left out: the code computes with counts and with
    what [parseInt] reads from a numeral, and passes other numbers
    on as they are).  A string is its
    sequence of bytes; the separators and the regexp specials are ASCII.
    The calls into underscore ([_.each], [_.extend], [_.isObject],
    [_.indexOf]) follow underscore 1.x, which the code is written
    against.  The modelled code raises two exceptions: the TypeError of
    calling a method that a value does not have, and the SyntaxError of
    [new RegExp] on a pattern or on flags that the engine of the
    platform refuses; the engine is a parameter ([RegExpEngine]).
    Numbers are computed as integers, which doubles are up to 2^53
    ([Num.safe]).  An object is the list of its own properties in
    the order of their first assignment: the place that an engine
    gives to names that read as array indices is not modelled, nor is
    the prototype that an assignment to [__proto__] may replace
    ([names_proto]). *)

From Stdlib Require Import ZArith List String Ascii Bool Lia.
From Stdlib Require Import DecimalString DecimalNat.
From stdpp Require Import base gmap strings.

Import ListNotations.
Local Open Scope string_scope.
Local Open Scope list_scope.

(** ** Strings as the code uses them *)

Module Str.

(** [s.split(c)] for a one-character separator: the first segment and
    the segments after it (the result of [split] is never empty). *)
Fixpoint split_on (c : ascii) (s : string) : string * list string :=
  match s with
  | EmptyString => (EmptyString, [])
  | String a s' =>
      let '(seg, segs) := split_on c s' in
      if Ascii.eqb a c then (EmptyString, seg :: segs)
      else (String a seg, segs)
  end.

Definition split (c : ascii) (s : string) : list string :=
  let '(seg, segs) := split_on c s in seg :: segs.

(** [segs.join(sep)] *)
Definition join (sep : string) (segs : list string) : string :=
  String.concat sep segs.

(** [s.indexOf(c) === 0] *)
Definition starts_with (c : ascii) (s : string) : bool :=
  match s with
  | String a _ => Ascii.eqb a c
  | EmptyString => false
  end.

(** [String(i)] for an array index. *)
Definition of_nat (i : nat) : string :=
  NilEmpty.string_of_uint (Nat.to_uint i).

(** [~_.indexOf(xs, x)] as a truth value: [x] occurs in [xs]. *)
Definition mem (x : string) (xs : list string) : bool :=
  existsb (String.eqb x) xs.

End Str.

(** ** JavaScript values, as trees

    Parameter sets are plain data: scalars, arrays and nested mappings.
    An object is the list of its own enumerable properties, in the order
    [_.each] visits them; a property added later comes last.  Numbers
    are integers or NaN.  [VRegExp pattern flags] is the object
    built by [new RegExp(pattern, flags)]: the two arguments are kept as
    given, the engine's coercion of the pattern to a string and its
    syntax check are not unfolded. *)

Set Warnings "-register-all,-clear-no-such-hyp".

Inductive number := NaN | Int (z : Z).

Inductive value :=
| VUndefined
| VNull
| VBool (b : bool)
| VNum (n : number)
| VStr (s : string)
| VRegExp (pattern : value) (flags : string)
| VArr (elems : list value)
| VObj (props : list (string * value)).

Abbreviation props := (list (string * value)).

Inductive error := TypeError | SyntaxError.

(** What a call does when it finishes: it returns or it throws. *)
Inductive outcome (A : Type) :=
| Returns (a : A)
| Throws (e : error).
Arguments Returns {A} a.
Arguments Throws {A} e.

Definition bind {A B} (m : option (outcome A)) (k : A -> option (outcome B))
  : option (outcome B) :=
  match m with
  | None => None
  | Some (Throws e) => Some (Throws e)
  | Some (Returns a) => k a
  end.

Notation "'let!' x ':=' m 'in' k" := (bind m (fun x => k))
  (at level 10, x name, m at level 100, k at level 200).

Module Js.

(** ['object' === typeof v] *)
Definition typeof_object (v : value) : bool :=
  match v with
  | VNull | VRegExp _ _ | VArr _ | VObj _ => true
  | VUndefined | VBool _ | VNum _ | VStr _ => false
  end.

(** [_.isObject(v)]: [v === Object(v)] *)
Definition isObject (v : value) : bool :=
  match v with
  | VRegExp _ _ | VArr _ | VObj _ => true
  | _ => false
  end.

(** Truthiness, for [a || b]. *)
Definition truthy (v : value) : bool :=
  match v with
  | VUndefined | VNull | VBool false | VNum NaN | VNum (Int 0) | VStr "" => false
  | _ => true
  end.

Definition or_else (a b : value) : value := if truthy a then a else b.

End Js.

(** ** Own properties of an object *)

Module Obj.

Section Props.

Context {V : Type}.

Fixpoint get (k : string) (ps : list (string * V)) : option V :=
  match ps with
  | [] => None
  | (k', v) :: ps' => if String.eqb k k' then Some v else get k ps'
  end.

(** [delete o[k]] *)
Fixpoint delete (k : string) (ps : list (string * V)) : list (string * V) :=
  match ps with
  | [] => []
  | (k', v) :: ps' =>
      if String.eqb k k' then delete k ps' else (k', v) :: delete k ps'
  end.

(** [o[k] = v]: an existing property keeps its place, a new one
    comes last. *)
Fixpoint set (k : string) (v : V) (ps : list (string * V)) : list (string * V) :=
  match ps with
  | [] => [(k, v)]
  | (k', v') :: ps' =>
      if String.eqb k k' then (k, v) :: ps' else (k', v') :: set k v ps'
  end.

Definition keys (ps : list (string * V)) : list string := map fst ps.

End Props.

(** [o[k]]: a missing property reads as [undefined]. *)
Definition read (k : string) (ps : props) : value :=
  match get k ps with Some v => v | None => VUndefined end.

End Obj.

(** ** The default configuration ([exports.config]) *)

(** [escapeRegExp]: every character of the class
    [[\-\[\]\/\{\}\(\)\*\+\?\.\\\^\$\|]] is replaced by a backslash
    followed by itself. *)
Definition regexp_special (c : ascii) : bool :=
  existsb (Ascii.eqb c)
    ["-"; "["; "]"; "/"; "{"; "}"; "("; ")"; "*"; "+"; "?"; "."; "\"; "^"; "$"; "|"]%char.

Fixpoint escapeRegExp (str : string) : string :=
  match str with
  | EmptyString => EmptyString
  | String c s' =>
      if regexp_special c then String "\" (String c (escapeRegExp s'))
      else String c (escapeRegExp s')
  end.

Definition queryOperatorIgnore : list string :=
  [ "$addToSet"; "$all"; "$and"; "$bit"; "$box"; "$center"; "$centerSphere";
    "$comment"; "$each"; "$elemMatch (query)"; "$exists"; "$explain"; "$geoIntersects";
    "$geoWithin"; "$geometry"; "$gt"; "$gte"; "$hint"; "$in"; "$inc"; "$isolated"; "$lt";
    "$lte"; "$max"; "$maxDistance"; "$maxScan"; "$min"; "$mod"; "$natural"; "$ne"; "$near";
    "$nearSphere"; "$nin"; "$nor"; "$not"; "$or"; "$orderby"; "$polygon"; "$pop";
    "$pull"; "$pullAll"; "$push"; "$pushAll"; "$query"; "$regex"; "$rename";
    "$returnKey"; "$set"; "$setOnInsert"; "$showDiskLoc"; "$size"; "$slice"; "$snapshot";
    "$sort"; "$type"; "$uniqueDocs"; "$unset"; "$where";
    "$elemMatch"; "$slice";
    "$add"; "$addToSet"; "$and"; "$avg"; "$cmp"; "$concat"; "$cond"; "$dayOfMonth";
    "$dayOfWeek"; "$dayOfYear"; "$divide"; "$eq"; "$first"; "$geoNear"; "$group"; "$gt";
    "$gte"; "$hour"; "$ifNull"; "$last"; "$limit"; "$lt"; "$lte"; "$match"; "$max";
    "$millisecond"; "$min"; "$minute"; "$mod"; "$month"; "$multiply"; "$ne"; "$not";
    "$or"; "$project"; "$push"; "$second"; "$skip"; "$sort"; "$strcasecmp"; "$substr";
    "$subtract"; "$sum"; "$toLower"; "$toUpper"; "$unwind"; "$week"; "$year" ].

Definition fieldModifiers : list string := ["contains"; "regex"].

(** The directive [{ '$regex' : new RegExp(pattern, flags) }]. *)
Definition regex_directive (pattern : value) (flags : string) : value :=
  VObj [("$regex", VRegExp pattern flags)].

(** [xs.indexOf('/') === 0] for an array: its first element is the
    string "/". *)
Definition starts_with_slash (xs : list value) : bool :=
  match xs with
  | VStr s :: _ => String.eqb s "/"
  | _ => false
  end.

(** [new RegExp(pattern, flags)] is the engine's: it returns the
    regular expression, or it throws a SyntaxError when the pattern
    (the string its first argument is converted to) or the flags are
    not of its syntax.  [regexp_accepts pattern flags] says that it
    returns. *)
Class RegExpEngine := { regexp_accepts : value -> string -> bool }.

Section Modifiers.

Context {engine : RegExpEngine}.

(** [{ '$regex' : new RegExp(pattern, flags) }] *)
Definition new_directive (pattern : value) (flags : string) : outcome value :=
  if regexp_accepts pattern flags then Returns (regex_directive pattern flags)
  else Throws SyntaxError.

(** [processModifier(modifier, value)].  [escapeRegExp] calls
    [value.replace], which only a string has.  The regex branch calls
    [value.indexOf('/')]: a string and an array have it, and only a string
    has the [split] called when the answer is 0. *)
Definition processModifier (modifier : string) (v : value) : outcome value :=
  if String.eqb modifier "contains" then
    match v with
    | VStr s => new_directive (VStr (escapeRegExp s)) ""
    | _ => Throws TypeError
    end
  else if String.eqb modifier "regex" then
    match v with
    | VStr s =>
        if Str.starts_with "/" s then
          let segs := Str.split "/" s in
          let flags := match nth_error segs 2 with
                       | Some f => if String.eqb f "" then "" else f
                       | None => ""
                       end in
          new_directive (nth 1 (map VStr segs) VUndefined) flags
        else new_directive (VStr s) ""
    | VArr xs =>
        if starts_with_slash xs then Throws TypeError
        else new_directive (VArr xs) ""
    | _ => Throws TypeError
    end
  else Returns v.

End Modifiers.

(** ** The query compiler *)

(** The key [_.each] hands to its iteratee: a number for an array (or
    an array-like object), the property name for an object. *)
Inductive key := KIdx (i : nat) | KStr (s : string).

Module Params.

(** The property a key addresses. *)
Definition name (k : key) : string :=
  match k with KIdx i => Str.of_nat i | KStr s => s end.

(** [xs[i] = v]: beyond the end, JavaScript pads with holes. *)
Definition array_set (i : nat) (v : value) (xs : list value) : list value :=
  if (i <? length xs)%nat then <[i:=v]> xs
  else xs ++ repeat VUndefined (i - length xs)%nat ++ [v].

(** [params[key]].  An array is only ever addressed by index here:
    [_.each] gives it numeric keys. *)
Definition read (k : key) (params : value) : value :=
  match params, k with
  | VObj ps, _ => Obj.read (name k) ps
  | VArr xs, KIdx i => nth i xs VUndefined
  | _, _ => VUndefined
  end.

(** [params[key] = v] *)
Definition write (k : key) (v : value) (params : value) : value :=
  match params, k with
  | VObj ps, _ => VObj (Obj.set (name k) v ps)
  | VArr xs, KIdx i => VArr (array_set i v xs)
  | _, _ => params
  end.

(** [delete params[key]], reached with property names only. *)
Definition delete (k : key) (params : value) : value :=
  match params with
  | VObj ps => VObj (Obj.delete (name k) ps)
  | _ => params
  end.

End Params.

(** [obj.length === +obj.length]: the object carries a numeric
    [length], and [_.each] treats it as an array of that length. *)
Definition array_length (ps : props) : option nat :=
  match Obj.get "length" ps with
  | Some (VNum (Int n)) => Some (Z.to_nat n)
  | _ => None
  end.

(** The keys [_.each(params, ...)] visits, fixed when the loop starts:
    the indices below [length] for an array and for an object with a
    numeric [length], the own property names otherwise.  A RegExp has
    no enumerable property. *)
Definition each_keys (params : value) : list key :=
  match params with
  | VArr xs => map KIdx (seq 0 (length xs))
  | VObj ps =>
      match array_length ps with
      | Some n => map KIdx (seq 0 n)
      | None => map KStr (Obj.keys ps)
      end
  | _ => []
  end.

(** [_.each]: the iteratee is called for each key in turn on the object
    as the earlier calls left it; an exception ends the loop. *)
Fixpoint each (iteratee : key -> value -> option (outcome value))
    (ks : list key) (params : value) : option (outcome value) :=
  match ks with
  | [] => Some (Returns params)
  | k :: ks' => let! params' := iteratee k params in each iteratee ks' params'
  end.

(** [field = (context) ? [context, key].join('.') : key] *)
Definition field_of (context : string) (k : key) : string :=
  if String.eqb context "" then Params.name k
  else Str.join "." [context; Params.name k].

Section Compiler.

Context {engine : RegExpEngine}.

(** The first half of the iteratee: a property name whose last dotted
    segment is a modifier is deleted, and the processed value is stored
    under the name without that segment.  Gives the key, the value and
    the object the second half goes on with. *)
Definition resolve_modifier (k : key) (v : value) (params : value)
  : option (outcome (key * value * value)) :=
  match k with
  | KIdx _ => Some (Returns (k, v, params))
  | KStr s =>
      let modifierKey := Str.split "." s in
      let modifier := List.last modifierKey "" in
      let modifierKey := List.removelast modifierKey in
      if Str.mem modifier fieldModifiers then
        let params := Params.delete k params in
        let! v := Some (processModifier modifier v) in
        let k := KStr (Str.join "." modifierKey) in
        Some (Returns (k, v, Params.write k v params))
      else Some (Returns (k, v, params))
  end.

(** The iteratee of [buildQueryFromParams]; [recurse] is the function
    itself. *)
Definition iteratee (recurse : value -> string -> option (outcome value))
    (fields : list string) (context : string) (k : key) (params : value)
  : option (outcome value) :=
  let v := Params.read k params in
  let field := field_of context k in
  let! kvp := resolve_modifier k v params in
  let '(k, v, params) := kvp in
  match k with
  | KIdx _ =>
      let! r := recurse v context in
      Some (Returns (Params.write k r params))
  | KStr s =>
      if Js.typeof_object v then
        if Str.mem s queryOperatorIgnore then
          let! r := recurse v context in
          Some (Returns (Params.write k r params))
        else
          let! r := recurse v field in
          Some (Returns (Params.write k r params))
      else if negb (Str.mem field fields) && negb (Str.mem s queryOperatorIgnore) then
        Some (Returns (Params.delete k params))
      else Some (Returns params)
  end.

(** [buildQueryFromParams(params, fields, context)], by the nesting it
    may still descend: [None] when [fuel] runs out. *)
Fixpoint buildQueryFromParams_fuel (fuel : nat) (params : value)
    (fields : list string) (context : string) : option (outcome value) :=
  match fuel with
  | O => None
  | S fuel' =>
      if negb (Js.isObject params) then Some (Returns params)
      else
        each (iteratee (fun v ctx => buildQueryFromParams_fuel fuel' v fields ctx)
                fields context)
          (each_keys params) params
  end.

(** Calls of the compiler that may nest while it works on [v]: one
    for each level of nesting, and one more where a modifier may put a
    directive (an object holding a RegExp) in the place of a string or
    of an array. *)
Fixpoint fuel_for (v : value) : nat :=
  match v with
  | VArr xs => S (Nat.max 1 (list_max (map fuel_for xs)))
  | VObj ps => S (list_max (map (fun kv => fuel_for (snd kv)) ps))
  | VStr _ => 2
  | _ => 1
  end.

(** The compiler itself. *)
Definition buildQueryFromParams (params : value) (fields : list string)
    (context : string) : option (outcome value) :=
  buildQueryFromParams_fuel (fuel_for params) params fields context.

End Compiler.

(** ** What the compiler guarantees about its output *)

(** The last dotted segment of a property name is a modifier. *)
Definition has_modifier (s : string) : bool :=
  Str.mem (List.last (Str.split "." s) "") fieldModifiers.

(** A directive produced by a modifier. *)
Definition is_directive (v : value) : Prop :=
  exists pattern flags, v = regex_directive pattern flags.

(** The test that keeps a scalar: its field is whitelisted or its name
    is an operator. *)
Definition allowed (fields : list string) (context s : string) : bool :=
  Str.mem (field_of context (KStr s)) fields || Str.mem s queryOperatorIgnore.

(** The context in which the value of property [s] is compiled. *)
Definition context_under (context s : string) : string :=
  if Str.mem s queryOperatorIgnore then context else field_of context (KStr s).

(** What holds of a compiled query, at every depth the compiler
    reaches.  In a mapping visited by property name, a property holding
    a scalar is whitelisted (under the dotted context of the enclosing
    names, operators and indices apart) or is an operator; a property
    holding a nested mapping, an array, a RegExp or null stays whatever
    its name, with its content compiled in turn; a name that still ends
    in a modifier holds a directive.  The elements of an array, and the
    indexed properties of a mapping with a numeric [length], are
    compiled in the same context; the other properties of such a
    mapping are not visited. *)
Inductive compiled (fields : list string) : string -> value -> Prop :=
| compiled_scalar context v :
    Js.isObject v = false -> compiled fields context v
| compiled_regexp context pattern flags :
    compiled fields context (VRegExp pattern flags)
| compiled_array context xs :
    (forall x, In x xs -> compiled fields context x) ->
    compiled fields context (VArr xs)
| compiled_array_like context ps n :
    array_length ps = Some n ->
    (forall i, (i < n)%nat -> Obj.get (Str.of_nat i) ps <> None) ->
    (forall i, (i < n)%nat -> compiled fields context (Obj.read (Str.of_nat i) ps)) ->
    compiled fields context (VObj ps)
| compiled_object context ps :
    array_length ps = None ->
    (forall s v, Obj.get s ps = Some v -> Js.typeof_object v = true ->
                 compiled fields (context_under context s) v) ->
    (forall s v, Obj.get s ps = Some v -> Js.typeof_object v = false ->
                 allowed fields context s = true) ->
    (forall s v, Obj.get s ps = Some v -> has_modifier s = true -> is_directive v) ->
    compiled fields context (VObj ps).

(** The name a modifier is stripped to. *)
Definition strip (s : string) : string :=
  Str.join "." (List.removelast (Str.split "." s)).

(** [r] is of the kind of [v]: an array of the same length, a mapping, or
    [v] itself. *)
Definition same_kind (v r : value) : Prop :=
  match v with
  | VArr xs => exists xs', r = VArr xs' /\ length xs' = length xs
  | VObj ps => exists ps', r = VObj ps'
  | _ => r = v
  end.

(** What a visited property holds. *)
Definition entry_ok (fields : list string) (ctx s : string) (v : value) : Prop :=
  (Js.typeof_object v = true -> compiled fields (context_under ctx s) v)
  /\ (Js.typeof_object v = false -> allowed fields ctx s = true)
  /\ (has_modifier s = true -> is_directive v).




(** Every property name of [v], at any depth, passes [test]. *)
Fixpoint names_all (test : string -> bool) (v : value) : bool :=
  match v with
  | VArr xs => forallb (names_all test) xs
  | VObj ps => forallb (fun kv => test (fst kv) && names_all test (snd kv)) ps
  | _ => true
  end.

(** No property name ends in a modifier, at any depth. *)
Definition modifier_free (v : value) : bool :=
  names_all (fun k => negb (has_modifier k)) v.

(** Assignment to the name [__proto__] is the one assignment the model
    does not follow: on an object that does not own that name it runs
    the setter every object inherits, which replaces the prototype and
    adds no property.  The compiler and the handlers assign to that name
    only for a property named [__proto__] or named so before a
    modifier; what is stated of data that may reach such an assignment
    is stated of data without these names. *)
Definition names_proto (k : string) : bool :=
  Str.mem k ["__proto__"; "__proto__.contains"; "__proto__.regex"].

Definition proto_free (v : value) : bool :=
  names_all (fun k => negb (names_proto k)) v.

(** ** Promises *)

(** How a promise settles. *)
Inductive settled (A E : Type) :=
| Fulfilled (a : A)
| Rejected (e : E).
Arguments Fulfilled {A E} a.
Arguments Rejected {A E} e.

(** [promise.then(onFulfilled, onRejected)], for its effect. *)
Definition then_ {A E R} (p : settled A E) (onFulfilled : A -> R) (onRejected : E -> R) : R :=
  match p with
  | Fulfilled a => onFulfilled a
  | Rejected e => onRejected e
  end.

(** ** Pagination meta ([crud.buildResultsMeta]) *)

Module Num.

(** [a > b]: false when either side is NaN. *)
Definition gt (a b : number) : bool :=
  match a, b with
  | Int x, Int y => (y <? x)%Z
  | _, _ => false
  end.

Definition add (a b : number) : number :=
  match a, b with Int x, Int y => Int (x + y) | _, _ => NaN end.

Definition sub (a b : number) : number :=
  match a, b with Int x, Int y => Int (x - y) | _, _ => NaN end.

Definition mul (a b : number) : number :=
  match a, b with Int x, Int y => Int (x * y) | _, _ => NaN end.

(** [Math.ceil(a / b)]; the quotient by zero is not a finite number
    and is left as NaN (the code divides by a positive limit only). *)
Definition ceil_div (a b : number) : number :=
  match a, b with
  | Int x, Int y => if (y =? 0)%Z then NaN else Int (- ((- x) / y))
  | _, _ => NaN
  end.

(** A number used as a condition. *)
Definition truthy (a : number) : bool :=
  match a with Int z => negb (z =? 0)%Z | NaN => false end.

(** The code computes in doubles.  Between safe integers (up to
    [Number.MAX_SAFE_INTEGER], 2^53 - 1) the operators above are those
    of the integers, as long as the result is safe too; what is stated
    of them is stated within these bounds. *)
Definition max_safe : Z := 9007199254740991.

Definition safe (z : Z) : Prop := (- max_safe <= z <= max_safe)%Z.

End Num.

Module Meta.

(** A navigation link: the string [path + '?' + query] for a route,
    the parameter object itself for a socket. *)
Inductive link :=
| LinkString (s : string)
| LinkObject (o : props).

Record links := {
  first : link;
  prev : link;
  next : link;
  last : link
}.

Record meta := {
  documents : value;
  pages : number;
  limit : number;
  offset : number;
  meta_links : links
}.

(** [(path)] as a condition: [path] is a route path or [false]. *)
Definition has_path (path : option string) : bool :=
  match path with
  | Some s => negb (String.eqb s "")
  | None => false
  end.

Definition path_string (path : option string) : string :=
  match path with Some s => s | None => "" end.

Section Builder.

(** [parseInt(v, 10)] and [querystring.stringify] are the
    platform's; [queryLimit] and [queryOffset] are the settings of
    the configuration in effect; [crud_count] is what the promise of
    [crud.count(query)] settles to. *)
Variable parseInt : value -> number.
Variable stringify : props -> string.
Variables queryLimit queryOffset : value.
Variable crud_count : value -> settled Z value.

(** [(path) ? '' : {}] *)
Definition no_link (path : option string) : link :=
  if has_path path then LinkString "" else LinkObject [].

(** [(path) ? path + '?' + querystring.stringify(p) : p] *)
Definition link_to (path : option string) (p : props) : link :=
  if has_path path then LinkString (path_string path ++ "?" ++ stringify p)
  else LinkObject p.

(** [var q = _.extend({}, params); q.page = n;] *)
Definition with_page (params : props) (n : number) : props :=
  Obj.set "page" (VNum n) params.

Definition buildResultsMeta (path : option string) (params : props) (query : value)
  : settled meta value :=
  let limit := parseInt (Js.or_else (Obj.read "limit" params) queryLimit) in
  let offset := parseInt (Js.or_else (Obj.read "offset" params) queryOffset) in
  let page := parseInt (Js.or_else (Obj.read "page" params) (VNum (Int 1))) in
  let first := link_to path (with_page params (Int 1)) in
  let prev :=
    if Num.gt page (Int 1) then link_to path (with_page params (Num.sub page (Int 1)))
    else no_link path in
  then_ (crud_count query)
    (fun count =>
       let pages :=
         if Num.truthy (Int count) && Num.gt limit (Int 0)
         then Num.ceil_div (Int count) limit else Int 1 in
       let next :=
         if Num.gt limit (Int 0) && Num.gt (Int count) (Num.mul page limit)
         then link_to path (with_page params (Num.add page (Int 1)))
         else no_link path in
       let last := link_to path (with_page params pages) in
       Fulfilled {| documents := VNum (Int count); pages := pages;
                    limit := limit; offset := offset;
                    meta_links := {| first := first; prev := prev;
                                     next := next; last := last |} |})
    (fun error =>
       Fulfilled {| documents := error; pages := Int 0;
                    limit := limit; offset := offset;
                    meta_links := {| first := first; prev := prev;
                                     next := no_link path; last := no_link path |} |}).

(** A link is present when it is no longer the placeholder it was
    initialised with. *)
Definition present (path : option string) (l : link) : Prop :=
  l <> no_link path.

End Builder.

End Meta.

(** ** Socket events ([exports.serveSockets]) *)

Module Sockets.

(** [socket.emit(channel, payload)] *)
Record emission := { channel : string; payload : value }.

(** ['api.' + sockets.collection + '.' + event] *)
Definition event (collection name : string) : string :=
  "api." ++ collection ++ "." ++ name.

Definition emit (collection name : string) (payload : props) : emission :=
  {| channel := event collection name; payload := VObj payload |}.

(** What each handler emits once the promise of its CRUD call has
    settled. *)
Definition saveDocument (collection : string) (save : settled value value)
  : list emission :=
  then_ save
    (fun document =>
       [emit collection "save.response"
          [("message", VStr "Resource created"); ("document", document)]])
    (fun error => [emit collection "save.error" [("message", error)]]).

(** [meta] is what [buildResultsMeta] resolved to. *)
Definition findDocuments (collection : string) (find : settled value value)
    (meta : value) : list emission :=
  then_ find
    (fun documents =>
       [emit collection "find.response" [("documents", documents); ("meta", meta)]])
    (fun error => [emit collection "find.error" [("message", error)]]).

Definition updateDocument (collection : string) (update : settled value value)
  : list emission :=
  then_ update
    (fun update =>
       if Js.truthy update then
         [emit collection "update.response"
            [("message", VStr "Resources updated"); ("update", update)]]
       else
         [emit collection "update.response" [("message", VStr "Resource not found")]])
    (fun error => [emit collection "update.error" [("message", error)]]).

Definition deleteDocuments (collection : string) (remove : settled value value)
  : list emission :=
  then_ remove
    (fun removed =>
       [emit collection "update.response"
          [("message", VStr "Resources deleted"); ("removed", removed)]])
    (fun error => [emit collection "update.response" [("message", error)]]).

(** The handler listening on [api.{collection}.{verb}]. *)
Inductive verb := Save | Find | Update | Delete.

Definition verb_name (v : verb) : string :=
  match v with
  | Save => "save" | Find => "find" | Update => "update" | Delete => "delete"
  end.

Definition handler (v : verb) (collection : string) (r : settled value value)
    (meta : value) : list emission :=
  match v with
  | Save => saveDocument collection r
  | Find => findDocuments collection r meta
  | Update => updateDocument collection r
  | Delete => deleteDocuments collection r
  end.

End Sockets.

(** ** The shared default configuration *)

Module Config.

Section Settings.

(** What a setting holds (a number, a list, a hook ...). *)
Variable setting : Type.

(** [_.extend(destination, source)] copies every property of
    [source] onto [destination], which it returns. *)
Definition extend (destination source : gmap string setting) : gmap string setting :=
  source ∪ destination.

(** A bind call starts with
    [config = _.extend(exports.config, config || {})]: the
    destination is the module-level object itself.  From the
    current [exports.config] and the overrides of the call: the
    new [exports.config] and the configuration the binding uses,
    which are one object. *)
Definition bind_config (exports_config : gmap string setting)
    (overrides : option (gmap string setting))
  : gmap string setting * gmap string setting :=
  let config := extend exports_config (default ∅ overrides) in
  (config, config).

Definition serveSockets := bind_config.
Definition serveRoutes := bind_config.
Definition serveCrud := bind_config.

Inductive binder := ServeSockets | ServeRoutes | ServeCrud.

Definition serve (b : binder) :=
  match b with
  | ServeSockets => serveSockets
  | ServeRoutes => serveRoutes
  | ServeCrud => serveCrud
  end.

End Settings.

End Config.

(** ** The compiler on a store of objects

    The compiler changes the object it is given and returns it, and the
    handlers pass it objects that others still hold.  To see those
    effects, objects live in a store and a value refers to them by
    location. *)

Module Store.

Abbreviation loc := positive.

(** A value as a variable or a property holds it. *)
Inductive sval :=
| SUndefined
| SNull
| SBool (b : bool)
| SNum (n : number)
| SStr (s : string)
| SRef (l : loc).

Inductive cell :=
| CObj (ps : list (string * sval))
| CArr (xs : list sval)
| CRegExp (pattern : sval) (flags : string).

Abbreviation store := (gmap loc cell).

(** How a call ends, and the store it leaves. *)
Inductive result (A : Type) :=
| Ret (σ : store) (a : A)
| Thr (σ : store) (e : error).
Arguments Ret {A} σ a.
Arguments Thr {A} σ e.

Definition bind {A B} (m : option (result A)) (k : store -> A -> option (result B))
  : option (result B) :=
  match m with
  | None => None
  | Some (Thr σ e) => Some (Thr σ e)
  | Some (Ret σ a) => k σ a
  end.

Definition store_of {A} (r : result A) : store :=
  match r with Ret σ _ => σ | Thr σ _ => σ end.

(** A new object. *)
Definition alloc (σ : store) (c : cell) : store * sval :=
  let l := fresh (dom σ) in (<[l := c]> σ, SRef l).

Definition typeof_object (v : sval) : bool :=
  match v with SNull | SRef _ => true | _ => false end.

Definition isObject (v : sval) : bool :=
  match v with SRef _ => true | _ => false end.

Definition truthy (v : sval) : bool :=
  match v with
  | SUndefined | SNull | SBool false | SNum NaN | SNum (Int 0) | SStr "" => false
  | _ => true
  end.

Definition array_set (i : nat) (v : sval) (xs : list sval) : list sval :=
  if (i <? length xs)%nat then <[i:=v]> xs
  else xs ++ repeat SUndefined (i - length xs)%nat ++ [v].

(** [params[key]] *)
Definition read (σ : store) (k : key) (params : sval) : sval :=
  match params with
  | SRef l =>
      match σ !! l, k with
      | Some (CObj ps), _ => default SUndefined (Obj.get (Params.name k) ps)
      | Some (CArr xs), KIdx i => nth i xs SUndefined
      | _, _ => SUndefined
      end
  | _ => SUndefined
  end.

(** [params[key] = v] *)
Definition write (σ : store) (k : key) (v : sval) (params : sval) : store :=
  match params with
  | SRef l =>
      match σ !! l, k with
      | Some (CObj ps), _ => <[l := CObj (Obj.set (Params.name k) v ps)]> σ
      | Some (CArr xs), KIdx i => <[l := CArr (array_set i v xs)]> σ
      | _, _ => σ
      end
  | _ => σ
  end.

(** [delete params[key]] *)
Definition delete (σ : store) (k : key) (params : sval) : store :=
  match params with
  | SRef l =>
      match σ !! l with
      | Some (CObj ps) => <[l := CObj (Obj.delete (Params.name k) ps)]> σ
      | _ => σ
      end
  | _ => σ
  end.

Definition starts_with_slash (xs : list sval) : bool :=
  match xs with
  | SStr s :: _ => String.eqb s "/"
  | _ => false
  end.

(** [{ '$regex' : new RegExp(pattern, flags) }]: two new objects. *)
Definition regex_directive (σ : store) (pattern : sval) (flags : string)
  : store * sval :=
  let '(σ, re) := alloc σ (CRegExp pattern flags) in
  alloc σ (CObj [("$regex", re)]).

(** The tree a value of the store stands for, followed through at most
    [fuel] references. *)
Fixpoint reify (fuel : nat) (σ : store) (v : sval) : option value :=
  match v with
  | SUndefined => Some VUndefined
  | SNull => Some VNull
  | SBool b => Some (VBool b)
  | SNum n => Some (VNum n)
  | SStr s => Some (VStr s)
  | SRef l =>
      match fuel with
      | O => None
      | S fuel' =>
          match σ !! l with
          | Some (CObj ps) =>
              option_map VObj
                (mapM (fun kv => option_map (pair (fst kv)) (reify fuel' σ (snd kv))) ps)
          | Some (CArr xs) => option_map VArr (mapM (reify fuel' σ) xs)
          | Some (CRegExp pattern flags) =>
              option_map (fun p => VRegExp p flags) (reify fuel' σ pattern)
          | None => None
          end
      end
  end.

(** What the engine says of a pattern held in the store: the pattern
    is the tree the value stands for.  An array that contains itself
    stands for no tree, and no payload is one; what the engine makes of
    it is [accepts_cyclic]. *)
Class StoreEngine := { accepts_cyclic : store -> sval -> string -> bool }.

Section Compiler.

Context {engine : RegExpEngine} {store_engine : StoreEngine}.

Definition accepts (σ : store) (pattern : sval) (flags : string) : bool :=
  match reify (size σ) σ pattern with
  | Some t => regexp_accepts t flags
  | None => accepts_cyclic σ pattern flags
  end.

Definition new_directive (σ : store) (pattern : sval) (flags : string)
  : result sval :=
  if accepts σ pattern flags
  then let '(σ, d) := regex_directive σ pattern flags in Ret σ d
  else Thr σ SyntaxError.

Definition processModifier (σ : store) (modifier : string) (v : sval)
  : result sval :=
  if String.eqb modifier "contains" then
    match v with
    | SStr s => new_directive σ (SStr (escapeRegExp s)) ""
    | _ => Thr σ TypeError
    end
  else if String.eqb modifier "regex" then
    match v with
    | SStr s =>
        if Str.starts_with "/" s then
          let segs := Str.split "/" s in
          let flags := match nth_error segs 2 with
                       | Some f => if String.eqb f "" then "" else f
                       | None => ""
                       end in
          new_directive σ (nth 1 (map SStr segs) SUndefined) flags
        else new_directive σ (SStr s) ""
    | SRef l =>
        match σ !! l with
        | Some (CArr xs) =>
            if starts_with_slash xs then Thr σ TypeError
            else new_directive σ v ""
        | _ => Thr σ TypeError
        end
    | _ => Thr σ TypeError
    end
  else Ret σ v.

Definition each_keys (σ : store) (params : sval) : list key :=
  match params with
  | SRef l =>
      match σ !! l with
      | Some (CArr xs) => map KIdx (seq 0 (length xs))
      | Some (CObj ps) =>
          match Obj.get "length" ps with
          | Some (SNum (Int n)) => map KIdx (seq 0 (Z.to_nat n))
          | _ => map KStr (Obj.keys ps)
          end
      | _ => []
      end
  | _ => []
  end.

(** [_.each]: the iteratee works on the one object [params] refers
    to, through the store. *)
Fixpoint each (iteratee : store -> key -> option (result unit))
    (ks : list key) (σ : store) : option (result unit) :=
  match ks with
  | [] => Some (Ret σ tt)
  | k :: ks' => bind (iteratee σ k) (fun σ _ => each iteratee ks' σ)
  end.

Definition resolve_modifier (σ : store) (k : key) (v : sval) (params : sval)
  : option (result (key * sval)) :=
  match k with
  | KIdx _ => Some (Ret σ (k, v))
  | KStr s =>
      let modifierKey := Str.split "." s in
      let modifier := List.last modifierKey "" in
      let modifierKey := List.removelast modifierKey in
      if Str.mem modifier fieldModifiers then
        let σ := delete σ k params in
        bind (Some (processModifier σ modifier v)) (fun σ v =>
        let k := KStr (Str.join "." modifierKey) in
        Some (Ret (write σ k v params) (k, v)))
      else Some (Ret σ (k, v))
  end.

Definition iteratee (recurse : store -> sval -> string -> option (result sval))
    (fields : list string) (context : string) (params : sval)
    (σ : store) (k : key) : option (result unit) :=
  let v := read σ k params in
  let field := field_of context k in
  bind (resolve_modifier σ k v params) (fun σ kv =>
  let '(k, v) := kv in
  match k with
  | KIdx _ =>
      bind (recurse σ v context) (fun σ r => Some (Ret (write σ k r params) tt))
  | KStr s =>
      if typeof_object v then
        if Str.mem s queryOperatorIgnore then
          bind (recurse σ v context) (fun σ r => Some (Ret (write σ k r params) tt))
        else
          bind (recurse σ v field) (fun σ r => Some (Ret (write σ k r params) tt))
      else if negb (Str.mem field fields) && negb (Str.mem s queryOperatorIgnore) then
        Some (Ret (delete σ k params) tt)
      else Some (Ret σ tt)
  end).

(** [buildQueryFromParams]: it ends with [return params]. *)
Fixpoint buildQueryFromParams_fuel (fuel : nat) (σ : store) (params : sval)
    (fields : list string) (context : string) : option (result sval) :=
  match fuel with
  | O => None
  | S fuel' =>
      if negb (isObject params) then Some (Ret σ params)
      else
        bind (each (iteratee (fun σ v ctx => buildQueryFromParams_fuel fuel' σ v fields ctx)
                      fields context params)
                (each_keys σ params) σ)
          (fun σ _ => Some (Ret σ params))
  end.

(** [_.extend(destination, source)]: every enumerable property of
    [source] is assigned on [destination]. *)
Definition enumerable (σ : store) (source : sval) : list (string * sval) :=
  match source with
  | SRef l =>
      match σ !! l with
      | Some (CObj ps) => ps
      | Some (CArr xs) => imap (fun i x => (Str.of_nat i, x)) xs
      | _ => []
      end
  | SStr s =>
      imap (fun i c => (Str.of_nat i, SStr (String c EmptyString)))
        (list_ascii_of_string s)
  | _ => []
  end.

Definition extend (σ : store) (destination source : sval) : store :=
  fold_left (fun σ kv => write σ (KStr (fst kv)) (snd kv) destination)
    (enumerable σ source) σ.

(** [x || {}] *)
Definition or_new_object (σ : store) (x : sval) : store * sval :=
  if truthy x then (σ, x) else alloc σ (CObj []).

(** The socket handler [saveDocument], up to the compiled document:
    [params = params || {};
     document = config.buildQueryFromParams(params, fields)]. *)
Definition saveDocument (fuel : nat) (σ : store) (params : sval)
    (fields : list string) : option (result sval) :=
  let '(σ, params) := or_new_object σ params in
  buildQueryFromParams_fuel fuel σ params fields "".

(** The socket handlers [findDocuments] and [deleteDocuments], up to
    the compiled query:
    [params = params || {};
     query = config.buildQueryFromParams(_.extend({}, params), fields)]. *)
Definition findDocuments (fuel : nat) (σ : store) (params : sval)
    (fields : list string) : option (result sval) :=
  let '(σ, params) := or_new_object σ params in
  let '(σ, clone) := alloc σ (CObj []) in
  let σ := extend σ clone params in
  buildQueryFromParams_fuel fuel σ clone fields "".

(** The route handler [createDocument], up to the compiled document:
    [params = _.extend(req.query || {}, req.body || {});
     document = config.buildQueryFromParams(params, fields)]. *)
Definition createDocument (fuel : nat) (σ : store) (query body : sval)
    (fields : list string) : option (result sval) :=
  let '(σ, query) := or_new_object σ query in
  let '(σ, body) := or_new_object σ body in
  let σ := extend σ query body in
  buildQueryFromParams_fuel fuel σ query fields "".

End Compiler.

(** No object of the store holds a reference to [l]. *)
Definition refers (c : cell) (l : loc) : Prop :=
  match c with
  | CObj ps => In (SRef l) (map snd ps)
  | CArr xs => In (SRef l) xs
  | CRegExp p _ => p = SRef l
  end.

Definition unreferenced (σ : store) (l : loc) : Prop :=
  forall l' c, σ !! l' = Some c -> ~ refers c l.

(** The weight of a value under a ranking [ρ] of the objects: what
    compiling it may cost. *)
Definition weight (ρ : loc -> nat) (v : sval) : nat :=
  match v with
  | SRef l => ρ l
  | SStr _ => 2
  | _ => 1
  end.

(** [v] weighs less than [n], and refers to an object of the store if
    it refers to one. *)
Definition below (ρ : loc -> nat) (σ : store) (n : nat) (v : sval) : Prop :=
  (weight ρ v < n)%nat /\ forall l, v = SRef l -> is_Some (σ !! l).

Definition ranked_cell (ρ : loc -> nat) (σ : store) (n : nat) (c : cell) : Prop :=
  match c with
  | CObj ps => (1 <= n)%nat /\ forall k v, In (k, v) ps -> below ρ σ n v
  | CArr xs => (2 <= n)%nat /\ forall x, In x xs -> below ρ σ n x
  | CRegExp _ _ => (1 <= n)%nat
  end.

(** A store of plain data: every object ranks above what it holds, so
    that no object contains itself, and every reference leads to an
    object. *)
Definition ranked (ρ : loc -> nat) (σ : store) : Prop :=
  forall l c, σ !! l = Some c -> ranked_cell ρ σ (ρ l) c.

(** [σ'] with [ρ'] keeps the objects of [σ] and their ranks. *)
Definition extends (ρ : loc -> nat) (σ : store) (ρ' : loc -> nat) (σ' : store) : Prop :=
  forall l, is_Some (σ !! l) -> ρ' l = ρ l /\ is_Some (σ' !! l).

(** The store [σ'] is ranked, by a ranking that keeps [σ] and [ρ]. *)
Definition still_ranked (ρ : loc -> nat) (σ σ' : store) : Prop :=
  exists ρ', ranked ρ' σ' /\ extends ρ σ ρ' σ'.

(** What the compiler keeps of an object [l] that nothing refers to:
    the object itself, and the fact that nothing refers to it. *)
Definition kept (σ0 : store) (l : loc) (σ : store) : Prop :=
  σ !! l = σ0 !! l /\ unreferenced σ l.

(** *** Payloads in the store *)

Definition load_list (load : store -> value -> store * sval) :=
  fix go (σ : store) (xs : list value) {struct xs} : store * list sval :=
    match xs with
    | [] => (σ, [])
    | x :: xs' =>
        let '(σ, sx) := load σ x in
        let '(σ, sxs) := go σ xs' in (σ, sx :: sxs)
    end.

Definition load_props (load : store -> value -> store * sval) :=
  fix go (σ : store) (ps : props) {struct ps} : store * list (string * sval) :=
    match ps with
    | [] => (σ, [])
    | (k, x) :: ps' =>
        let '(σ, sx) := load σ x in
        let '(σ, sps) := go σ ps' in (σ, (k, sx) :: sps)
    end.

(** A tree laid out in the store, as a decoded request delivers it:
    each of its objects is a new object. *)
Fixpoint load (σ : store) (v : value) {struct v} : store * sval :=
  match v with
  | VUndefined => (σ, SUndefined)
  | VNull => (σ, SNull)
  | VBool b => (σ, SBool b)
  | VNum n => (σ, SNum n)
  | VStr s => (σ, SStr s)
  | VRegExp p flags => let '(σ, sp) := load σ p in alloc σ (CRegExp sp flags)
  | VArr xs => let '(σ, sxs) := load_list load σ xs in alloc σ (CArr sxs)
  | VObj ps => let '(σ, sps) := load_props load σ ps in alloc σ (CObj sps)
  end.

(** *** Stores that stand for trees *)

(** [sv] stands, in [σ], for the tree [v]; the objects it is made of,
    the footprint, are all distinct. *)
Inductive repr (σ : store) : gset loc -> sval -> value -> Prop :=
| repr_undefined : repr σ ∅ SUndefined VUndefined
| repr_null : repr σ ∅ SNull VNull
| repr_bool b : repr σ ∅ (SBool b) (VBool b)
| repr_num n : repr σ ∅ (SNum n) (VNum n)
| repr_str s : repr σ ∅ (SStr s) (VStr s)
| repr_regexp l F p pv flags :
    σ !! l = Some (CRegExp p flags) -> repr σ F p pv -> l ∉ F ->
    repr σ ({[l]} ∪ F) (SRef l) (VRegExp pv flags)
| repr_arr l F sxs xs :
    σ !! l = Some (CArr sxs) -> repr_list σ F sxs xs -> l ∉ F ->
    repr σ ({[l]} ∪ F) (SRef l) (VArr xs)
| repr_obj l F sps ps :
    σ !! l = Some (CObj sps) -> repr_props σ F sps ps -> l ∉ F ->
    repr σ ({[l]} ∪ F) (SRef l) (VObj ps)
with repr_list (σ : store) : gset loc -> list sval -> list value -> Prop :=
| repr_nil : repr_list σ ∅ [] []
| repr_cons F1 F2 sv v svs vs :
    repr σ F1 sv v -> repr_list σ F2 svs vs -> F1 ## F2 ->
    repr_list σ (F1 ∪ F2) (sv :: svs) (v :: vs)
with repr_props (σ : store) : gset loc -> list (string * sval) -> props -> Prop :=
| repr_props_nil : repr_props σ ∅ [] []
| repr_props_cons k F1 F2 sv v sps ps :
    repr σ F1 sv v -> repr_props σ F2 sps ps -> F1 ## F2 ->
    repr_props σ (F1 ∪ F2) ((k, sv) :: sps) ((k, v) :: ps).

Scheme repr_mut := Induction for repr Sort Prop
  with repr_list_mut := Induction for repr_list Sort Prop
  with repr_props_mut := Induction for repr_props Sort Prop.
Combined Scheme repr_mutind from repr_mut, repr_list_mut, repr_props_mut.

(** What a call may change: the objects outside the footprint [F] stay
    as they are, and the new footprint [F'] is made of objects of [F]
    and of new ones. *)
Definition preserves (σ σ' : store) (F F' : gset loc) : Prop :=
  (forall l, is_Some (σ !! l) -> l ∉ F -> σ' !! l = σ !! l)
  /\ (forall l, l ∈ F' -> l ∈ F \/ σ !! l = None)
  /\ (forall l, is_Some (σ !! l) -> is_Some (σ' !! l)).

(** The run [s] on the store follows the run [t] on trees of a call
    on the value [sv], which stands for a tree in [σ] with footprint
    [F]: it throws when [t] throws, and when [t] returns [q] it returns
    [sv], which then stands for [q]. *)
Definition follows (σ : store) (F : gset loc) (sv : sval)
    (t : option (outcome value)) (s : option (result sval)) : Prop :=
  match t with
  | None => True
  | Some (Returns q) =>
      exists σ' F', s = Some (Ret σ' sv) /\ repr σ' F' sv q /\ preserves σ σ' F F'
  | Some (Throws e) => exists σ', s = Some (Thr σ' e)
  end.

(** The same for a call of the iteratee on the object at [l0], whose
    properties have footprint [F]. *)
Definition follows_obj (l0 : loc) (σ : store) (F : gset loc)
    (t : option (outcome value)) (s : option (result unit)) : Prop :=
  match t with
  | None => True
  | Some (Returns q) =>
      exists σ' sps' ps' F',
        s = Some (Ret σ' tt) /\ q = VObj ps'
        /\ σ' !! l0 = Some (CObj sps') /\ repr_props σ' F' sps' ps' /\ (l0 ∉ F')
        /\ preserves σ σ' ({[l0]} ∪ F) ({[l0]} ∪ F')
  | Some (Throws e) => exists σ', s = Some (Thr σ' e)
  end.

(** The same on the array at [l0]. *)
Definition follows_arr (l0 : loc) (σ : store) (F : gset loc)
    (t : option (outcome value)) (s : option (result unit)) : Prop :=
  match t with
  | None => True
  | Some (Returns q) =>
      exists σ' sxs' xs' F',
        s = Some (Ret σ' tt) /\ q = VArr xs'
        /\ σ' !! l0 = Some (CArr sxs') /\ repr_list σ' F' sxs' xs' /\ (l0 ∉ F')
        /\ preserves σ σ' ({[l0]} ∪ F) ({[l0]} ∪ F')
  | Some (Throws e) => exists σ', s = Some (Thr σ' e)
  end.

End Store.

(** ** Projections and ids ([config.buildProjectionFromString],
    [config.isValidId])

    Both work on a segment of the route, a string. *)

Module Projection.

(** [~s.indexOf(c)] as a truth value: [c] occurs in [s]. *)
Definition contains (c : ascii) (s : string) : bool :=
  existsb (Ascii.eqb c) (list_ascii_of_string s).

(** [projection[key] = v] for a [v] that is no object: the name
    [__proto__] is the accessor every object inherits, whose setter
    ignores such a value, so that no property is added. *)
Definition assign (key : string) (v : value) (projection : props) : props :=
  if String.eqb key "__proto__" then projection else Obj.set key v projection.

(** The name a piece [name] or [name:value] of the list selects. *)
Definition piece_name (piece : string) : string :=
  nth 0 (Str.split ":" piece) "".

(** The iteratee of [buildProjectionFromString]. *)
Definition add_piece (projection : props) (value : string) : props :=
  if contains ":" value then
    let field := Str.split ":" value in
    assign (nth 0 field "") (nth 1 (map VStr field) VUndefined) projection
  else assign value (VNum (Int 1)) projection.

(** [buildProjectionFromString(fields)] *)
Definition buildProjectionFromString (fields : string) : props :=
  fold_left add_piece (Str.split "," fields) [].

(** What a piece stores under its name. *)
Definition piece_value (piece : string) : value :=
  if contains ":" piece then nth 1 (map VStr (Str.split ":" piece)) VUndefined
  else VNum (Int 1).

(** The last piece that names [k], if any. *)
Definition last_piece (k : string) (pieces : list string) : option string :=
  find (fun piece => String.eqb (piece_name piece) k) (rev pieces).

(** [[0-9a-fA-F]] *)
Definition hex_digit (c : ascii) : bool :=
  existsb (Ascii.eqb c)
    ["0"; "1"; "2"; "3"; "4"; "5"; "6"; "7"; "8"; "9";
     "a"; "b"; "c"; "d"; "e"; "f"; "A"; "B"; "C"; "D"; "E"; "F"]%char.

(** [new RegExp('^[0-9a-fA-F]{24}$').test(id)] for a string [id]:
    without the [m] flag the anchors are the two ends of the string. *)
Definition isValidId (id : string) : bool :=
  (String.length id =? 24)%nat && forallb hex_digit (list_ascii_of_string id).

End Projection.

(** ** The whitelist of a model ([config.getSchemaFields],
    [config.getVirtualFields])

    Of a mongoose schema the code reads [schema.paths], an object from
    path names to schema types, of which it reads [caster] (set for an
    array) and [schema] (set for sub-documents), and the names of
    [schema.virtuals]. *)

Module Whitelist.

Inductive schema :=
| Schema (paths : list (string * (bool * option schema))) (virtuals : list string).

Definition paths (s : schema) := match s with Schema ps _ => ps end.
Definition virtuals (s : schema) := match s with Schema _ vs => vs end.

(** The function [getSchemaFields] hands to [_.each(paths, ...)], for
    one path: [fields.push] adds at the end of the one array all the
    calls share; [recurse] is [config.getSchemaFields] and [ignore] is
    [config.schemaFieldIgnore]. *)
Definition add_path (recurse : schema -> list string -> string -> list string)
    (ignore : list string) (context : string)
    (fields : list string) (path : string * (bool * option schema)) : list string :=
  let '(key, (caster, sub)) := path in
  if Str.mem key ignore then fields
  else
    let field := field_of context (KStr key) in
    let fields := if caster then fields ++ [(field ++ ".$")%string] else fields in
    let fields :=
      match sub with
      | Some s' => recurse s' (recurse s' fields field) (field ++ ".$")%string
      | None => fields
      end in
    fields ++ [field].

(** [getSchemaFields(schema, fields, context)] *)
Fixpoint getSchemaFields (ignore : list string) (s : schema) (fields : list string)
    (context : string) {struct s} : list string :=
  match s with
  | Schema paths _ =>
      fold_left (add_path (getSchemaFields ignore) ignore context) paths fields
  end.

(** [getVirtualFields(schema, fields)] *)
Definition getVirtualFields (ignore : list string) (s : schema) (fields : list string)
  : list string :=
  fields ++ List.filter (fun key => negb (Str.mem key ignore)) (virtuals s).

(** [_.uniq]: the first occurrence of each element, in order. *)
Definition uniq (xs : list string) : list string :=
  fold_left (fun results x => if Str.mem x results then results else results ++ [x]) xs [].

(** [_.union(a, b)] *)
Definition union (a b : list string) : list string := uniq (a ++ b).

(** [fields = _.union(config.getSchemaFields(Model.schema),
              config.getVirtualFields(Model.schema))],
    as [config.crud] and the three bind calls compute it. *)
Definition fields (ignore : list string) (s : schema) : list string :=
  union (getSchemaFields ignore s [] "") (getVirtualFields ignore s []).

(** Every path name of the schema, at any depth, is non-empty. *)
Fixpoint named (s : schema) : bool :=
  match s with
  | Schema paths _ =>
      forallb (fun p => negb (String.eqb (fst p) "")
                        && match snd (snd p) with
                           | Some s' => named s'
                           | None => true
                           end) paths
  end.

(** [config.schemaFieldIgnore], as the module sets it. *)
Definition schemaFieldIgnore : list string := ["__v"].

End Whitelist.

(** ** Finding documents ([config.calculateDocumentOffset], [crud.find]) *)

Module Paging.

(** [a >= b], false when either side is NaN. *)
Definition ge (a b : number) : bool :=
  match a, b with
  | Int x, Int y => (y <=? x)%Z
  | _, _ => false
  end.

Section Find.

(** [toNumber] is the conversion the operators [>=], [-] and [*]
    apply to their operands; the three settings are those of the
    configuration in effect. *)
Context {engine : RegExpEngine}.
Variable toNumber : value -> number.
Variables queryLimit queryOffset querySort : value.

(** [(pageNum >= 0) ? ((pageNum - 1) * resultsPerPage) : 0] *)
Definition calculateDocumentOffset (pageNum resultsPerPage : value) : number :=
  if ge (toNumber pageNum) (Int 0)
  then Num.mul (Num.sub (toNumber pageNum) (Int 1)) (toNumber resultsPerPage)
  else Int 0.

(** [param = param.split(':'); sort[param[0]] = param[1];] *)
Definition add_sort_param (sort : props) (param : string) : props :=
  let param := Str.split ":" param in
  Projection.assign (nth 0 param "") (nth 1 (map VStr param) VUndefined) sort.

(** The sort of [crud.find]: the setting [querySort] when none is
    asked for, and otherwise the pairs [field:direction] of the list,
    compiled against the whitelist.  Only a string has [split]. *)
Definition find_sort (sort : value) (fields : list string) : option (outcome value) :=
  if negb (Js.truthy sort) then Some (Returns querySort)
  else
    match sort with
    | VStr s =>
        buildQueryFromParams
          (VObj (fold_left add_sort_param (Str.split "," s) [])) fields ""
    | _ => Some (Throws TypeError)
    end.

(** What [crud.find] asks of mongoose:
    [Model.find(query, projection).skip(offset).limit(limit).sort(sort)]. *)
Record plan := {
  plan_query : value;
  plan_projection : value;
  plan_skip : value;
  plan_limit : value;
  plan_sort : value
}.

(** [crud.find(query, limit, sort, projection, pageNum)], up to the
    call of [exec]. *)
Definition find (fields : list string) (query limit sort projection pageNum : value)
  : option (outcome plan) :=
  let limit := Js.or_else limit queryLimit in
  let projection := Js.or_else projection (VObj []) in
  let! sort := find_sort sort fields in
  let offset := calculateDocumentOffset pageNum limit in
  let offset := if Num.truthy offset then VNum offset else queryOffset in
  Some (Returns {| plan_query := query; plan_projection := projection;
                   plan_skip := offset; plan_limit := limit; plan_sort := sort |}).

End Find.

End Paging.

(** ** Responses of the routes ([config.serveJson], [config.serveError],
    [exports.serveRoutes]) *)

Module Routes.

(** What [res.set(...)] and [res.json(code, object)] send. *)
Record response := {
  headers : list (string * string);
  status : Z;
  body : value
}.

Definition cors : list (string * string) :=
  [("Access-Control-Allow-Origin", "*");
   ("Access-Control-Allow-Headers", "X-Requested-With")].

(** [config.serveJson(res, code, object)] *)
Definition serveJson (code : Z) (object : value) : response :=
  {| headers := cors; status := code; body := object |}.

(** [error.message]: a property that only an object of its own can
    have. *)
Definition message_of (error : value) : value :=
  match error with
  | VObj ps => Obj.read "message" ps
  | _ => VUndefined
  end.

(** [config.serveError(res, error)] *)
Definition serveError (error : value) : response :=
  let error := Js.or_else error (VObj []) in
  serveJson 500
    (VObj [("message", Js.or_else (message_of error) (VStr "Unknown error."))]).

Definition message (text : string) : value := VObj [("message", VStr text)].

(** The handlers [serveRoutes] installs, the four aggregations of
    [postAggregationQuery] apart. *)
Inductive handler :=
| CreateDocument | FindDocuments | UpdateDocuments | DeleteDocuments
| Count | Distinct | Group | Aggregate
| PostDocumentById | GetDocumentByFields | GetDocumentById
| UpdateDocumentById | DeleteDocumentById
| PostDocumentByIdWithProjection | GetDocumentByIdWithProjection
| PutDocumentByIdWithProjection | DeleteDocumentByIdWithProjection.

(** The handlers that answer without a call of [crud]. *)
Definition refuses (h : handler) : bool :=
  match h with
  | PostDocumentById | PostDocumentByIdWithProjection
  | PutDocumentByIdWithProjection | DeleteDocumentByIdWithProjection => true
  | _ => false
  end.

(** [{ message: ..., name: result }] *)
Definition report (text name : string) (result : value) : value :=
  VObj [("message", VStr text); (name, result)].

(** What the continuations of a handler send once the promise of its
    call of [crud] has settled to [result]; [meta] is what
    [buildResultsMeta] resolved to, for the two handlers that build
    it.  What a handler does before its call of [crud] is not part of
    it: [findDocuments] may have answered once already, see
    [find_prelude]. *)
Definition respond (h : handler) (result : settled value value) (meta : value)
  : list response :=
  let found document :=
    if Js.truthy document then [serveJson 200 document]
    else [serveJson 404 (message "Resource not found")] in
  let listed documents :=
    [serveJson 200 (VObj [("documents", documents); ("meta", meta)])] in
  let failed error := [serveError error] in
  match h with
  | CreateDocument =>
      then_ result
        (fun document => [serveJson 201 (report "Resource created" "document" document)])
        failed
  | FindDocuments | GetDocumentByFields => then_ result listed failed
  | UpdateDocuments =>
      then_ result
        (fun update =>
           if Js.truthy update
           then [serveJson 200 (report "Resources updated" "update" update)]
           else [serveJson 404 (message "Resources not found")])
        failed
  | DeleteDocuments =>
      then_ result
        (fun removed => [serveJson 200 (report "Resources deleted" "removed" removed)])
        failed
  | Count => then_ result (fun r => [serveJson 200 (VObj [("count", r)])]) failed
  | Distinct => then_ result (fun r => [serveJson 200 (VObj [("distinct", r)])]) failed
  | Group => then_ result (fun r => [serveJson 200 (VObj [("group", r)])]) failed
  | Aggregate => then_ result (fun r => [serveJson 200 (VObj [("aggregate", r)])]) failed
  | GetDocumentById | GetDocumentByIdWithProjection => then_ result found failed
  | UpdateDocumentById =>
      then_ result
        (fun update =>
           if Js.truthy update
           then [serveJson 200 (report "Resources updated" "update" update)]
           else [serveJson 404 (message "Resource not found")])
        failed
  | DeleteDocumentById =>
      then_ result
        (fun removed =>
           if Js.truthy removed
           then [serveJson 200 (report "Resources deleted" "removed" removed)]
           else [serveJson 404 (message "Resource not found")])
        failed
  | PostDocumentById =>
      [serveJson 405
         (message "Posting to a resource is not supported, use PUT for updates and POST to index for creating new documents")]
  | PostDocumentByIdWithProjection =>
      [serveJson 405
         (message "Posting to a resource with projections is not supported, POST to index for creating new documents")]
  | PutDocumentByIdWithProjection =>
      [serveJson 405
         (message "Modifying a resource attribute is not supported. Try modifying the resource instead.")]
  | DeleteDocumentByIdWithProjection =>
      [serveJson 405
         (message "Deleting a resource attribute is not supported. Try deleting the resource instead.")]
  end.

(** The [try] block at the head of the route [findDocuments], which
    parses [req.query._query] as JSON when it counts as true: when the
    block throws ([threw]), the [catch] answers a 500, and the handler
    goes on to its query and to its call of [crud] all the same. *)
Definition find_prelude (threw : bool) : list response :=
  if threw then [serveError (message "Unable to parese query string as JSON")]
  else [].

(** All that the route [findDocuments] sends. *)
Definition findDocuments_sends (threw : bool) (result : settled value value)
    (meta : value) : list response :=
  find_prelude threw ++ respond FindDocuments result meta.

End Routes.

(** ** The queries of the socket handlers, on the store
    ([exports.serveSockets]) *)

Module Handlers.
Import Store(loc, store, sval(..), cell(..), result(..)).

Section Queries.

Context {engine : RegExpEngine} {store_engine : Store.StoreEngine}.

(** [params.id || params._id] *)
Definition id_of (σ : store) (params : sval) : sval :=
  if Store.truthy (Store.read σ (KStr "id") params)
  then Store.read σ (KStr "id") params
  else Store.read σ (KStr "_id") params.

(** The handlers [findDocuments] and [deleteDocuments], up to the query
    they hand to [crud]:
    [query = config.buildQueryFromParams(_.extend({}, params), fields);
     id = params.id || params._id;
     if (id) { query._id = id; }] *)
Definition query_with_id (fuel : nat) (σ : store) (params : sval)
    (fields : list string) : option (result sval) :=
  Store.bind (Store.findDocuments fuel σ params fields) (fun σ query =>
    let id := id_of σ params in
    if Store.truthy id
    then Some (Ret (Store.write σ (KStr "_id") id query) query)
    else Some (Ret σ query)).

(** [_.isEmpty(v)]: no element for an array or a string, no own
    enumerable property for another value. *)
Definition isEmpty (σ : store) (v : sval) : bool :=
  match v with
  | SStr s => String.eqb s ""
  | SRef l =>
      match σ !! l with
      | Some (CObj ps) => match ps with [] => true | _ => false end
      | Some (CArr xs) => match xs with [] => true | _ => false end
      | _ => true
      end
  | _ => true
  end.

(** The handler [updateDocument], up to the query and the document it
    hands to [crud.update]:
    [document = config.buildQueryFromParams(_.extend({}, params), fields);
     query = config.buildQueryFromParams(_.extend({}, params._query), fields);
     id = params.id || params._id;
     if (_.isEmpty(query)) { query = { _id: id }; }] *)
Definition updateDocument (fuel : nat) (σ : store) (params : sval)
    (fields : list string) : option (result (sval * sval)) :=
  let '(σ, params) := Store.or_new_object σ params in
  let '(σ, clone) := Store.alloc σ (CObj []) in
  let σ := Store.extend σ clone params in
  Store.bind (Store.buildQueryFromParams_fuel fuel σ clone fields "") (fun σ document =>
  let '(σ, clone) := Store.alloc σ (CObj []) in
  let σ := Store.extend σ clone (Store.read σ (KStr "_query") params) in
  Store.bind (Store.buildQueryFromParams_fuel fuel σ clone fields "") (fun σ query =>
  let id := id_of σ params in
  if isEmpty σ query
  then let '(σ, query) := Store.alloc σ (CObj [("_id", id)]) in
       Some (Ret σ (query, document))
  else Some (Ret σ (query, document)))).

End Queries.

(** The properties of [sps] that refer to objects refer to the same
    objects in [sps']. *)
Definition tracked (sps sps' : list (string * sval)) : Prop :=
  forall k c, Obj.get k sps = Some (SRef c) -> Obj.get k sps' = Some (SRef c).

(** [if (_.isEmpty(query)) { query = { _id: id }; }], on trees. *)
Definition or_by_id (id : value) (query : props) : props :=
  match query with
  | [] => [("_id", id)]
  | _ => query
  end.

(** [query._id = id] when [id] counts as true, on trees. *)
Definition with_id (id : value) (query : props) : props :=
  if Js.truthy id then Obj.set "_id" id query else query.

End Handlers.

(** ** The compiler, property by property

    What the compiler does to a mapping none of whose names ends in a
    modifier, read off the three branches of its iteratee: each property
    is handled on its own. *)

Module Plain.

(** One property: an object (or null) is compiled in the context of
    its name, a scalar stays if it is allowed. *)
Definition entry (recurse : value -> string -> option (outcome value))
    (fields : list string) (context : string) (kv : string * value)
  : option (outcome props) :=
  let '(k, v) := kv in
  if Js.typeof_object v then
    let! r := recurse v (context_under context k) in
    Some (Returns [(k, r)])
  else if allowed fields context k then Some (Returns [(k, v)])
  else Some (Returns []).

(** The properties in turn, up to the first that throws. *)
Fixpoint entries (recurse : value -> string -> option (outcome value))
    (fields : list string) (context : string) (ps : props)
  : option (outcome props) :=
  match ps with
  | [] => Some (Returns [])
  | kv :: rest =>
      let! head := entry recurse fields context kv in
      let! tail := entries recurse fields context rest in
      Some (Returns (head ++ tail))
  end.

(** No name ends in a modifier, and no name comes twice. *)
Definition plain (ps : props) : Prop :=
  List.NoDup (Obj.keys ps) /\ forall k, In k (Obj.keys ps) -> has_modifier k = false.

End Plain.

(** ** What the compiler is to remove

    The result of a compilation in the words of its description: in
    every mapping, a property that holds a scalar stays when its dotted
    path is whitelisted or its name is an operator, and goes otherwise;
    a property that holds an object stays, its content filtered in
    turn; the elements of an array are filtered in place. *)

Module Filter.

Fixpoint filter (fields : list string) (context : string) (v : value) {struct v}
  : value :=
  match v with
  | VArr xs => VArr (map (filter fields context) xs)
  | VObj ps =>
      VObj ((fix go (ps : props) : props :=
               match ps with
               | [] => []
               | (k, x) :: rest =>
                   if Js.typeof_object x
                   then (k, filter fields (context_under context k) x) :: go rest
                   else if allowed fields context k then (k, x) :: go rest
                   else go rest
               end) ps)
  | _ => v
  end.



End Filter.

(** ** Inputs for the examples *)

(** An engine for the examples.  It accepts the patterns made of
    letters, digits and spaces, of escaped special characters, and of
    the quantifiers [+], [*] and [?] after one of these, with flags
    among g, i and m; every engine accepts them.  An array of one
    string is converted to that string.  It accepts nothing else; the
    examples of a rejection are patterns and flags that no engine
    accepts. *)
Definition plain_char (c : ascii) : bool :=
  let n := nat_of_ascii c in
  ((48 <=? n) && (n <=? 57) || (65 <=? n) && (n <=? 90)
   || (97 <=? n) && (n <=? 122) || (n =? 32))%nat.

Fixpoint simple_pattern (quantifiable : bool) (p : string) : bool :=
  match p with
  | EmptyString => true
  | String c rest =>
      if Ascii.eqb c "\" then
        match rest with
        | String d rest' => regexp_special d && simple_pattern true rest'
        | EmptyString => false
        end
      else if existsb (Ascii.eqb c) ["+"; "*"; "?"]%char
      then quantifiable && simple_pattern false rest
      else plain_char c && simple_pattern true rest
  end.

Definition simple_flags : list string :=
  [""; "g"; "i"; "m"; "gi"; "ig"; "gm"; "mg"; "im"; "mi"].

Definition sample_engine : RegExpEngine :=
  {| regexp_accepts pattern flags :=
       Str.mem flags simple_flags
       && match pattern with
          | VStr s => simple_pattern false s
          | VArr [VStr s] => simple_pattern false s
          | _ => false
          end |}.

Definition sample_store_engine : Store.StoreEngine :=
  {| Store.accepts_cyclic _ _ _ := false |}.

(** [parseInt] on numbers, all the examples need. *)
Definition parseInt_of_number (v : value) : number :=
  match v with VNum n => n | _ => NaN end.

(** The store of the payload [{"other": "y"}]. *)
Definition flat_payload : gmap positive Store.cell :=
  {[ 1%positive := Store.CObj [("other", Store.SStr "y")] ]}.

(** The store of a request: the query [{"other": "y"}] and the body
    [{"name": {"first": "Jo"}}]. *)
Definition request_store : gmap positive Store.cell :=
  {[ 1%positive := Store.CObj [("other", Store.SStr "y")];
     2%positive := Store.CObj [("name", Store.SRef 3)];
     3%positive := Store.CObj [("first", Store.SStr "Jo")] ]}.

(** The store of the payload
    [{"name": {"first": "Jo", "bogus": "x"}, "email.contains": "a.b",
      "friends": [{"email": "f", "age": 3}]}]. *)
Definition sample_payload : gmap positive Store.cell :=
  {[ 1%positive := Store.CObj [("name", Store.SRef 2);
                               ("email.contains", Store.SStr "a.b");
                               ("friends", Store.SRef 3)];
     2%positive := Store.CObj [("first", Store.SStr "Jo"); ("bogus", Store.SStr "x")];
     3%positive := Store.CArr [Store.SRef 4];
     4%positive := Store.CObj [("email", Store.SStr "f"); ("age", Store.SNum (Int 3))] ]}.

(** The store of the payload
    [{"$or": [{"email": "a"}, {"nick": "b"}],
      "tags": {"length": 2, "0": {"x": 1}, "evil": "y"},
      "age.contains": 5}]. *)
Definition operator_payload : gmap positive Store.cell :=
  {[ 1%positive := Store.CObj [("$or", Store.SRef 2); ("tags", Store.SRef 5);
                               ("age.contains", Store.SNum (Int 5))];
     2%positive := Store.CArr [Store.SRef 3; Store.SRef 4];
     3%positive := Store.CObj [("email", Store.SStr "a")];
     4%positive := Store.CObj [("nick", Store.SStr "b")];
     5%positive := Store.CObj [("length", Store.SNum (Int 2)); ("0", Store.SRef 6);
                               ("evil", Store.SStr "y")];
     6%positive := Store.CObj [("x", Store.SNum (Int 1))] ]}.

(** The store of the payload [{"name": {"bogus": "x"}}] and a ranking
    of it. *)
Definition nested_payload : gmap positive Store.cell :=
  {[ 1%positive := Store.CObj [("name", Store.SRef 2)];
     2%positive := Store.CObj [("bogus", Store.SStr "x")] ]}.

(** The objects of that payload, from the outermost in. *)
Definition nested_payload_footprint : gset positive :=
  {[1%positive]} ∪ (({[2%positive]} ∪ (∅ ∪ ∅)) ∪ ∅).

Definition nested_payload_rank (l : positive) : nat :=
  match l with
  | 1%positive => 4
  | 2%positive => 3
  | _ => 0
  end.

(** A schema like that of the model [Sample] of the tests: names,
    an email and an array of sub-documents, with the version key and
    the virtuals mongoose adds. *)
Definition friend_schema : Whitelist.schema :=
  Whitelist.Schema
    [("name.first", (false, None)); ("name.last", (false, None));
     ("email", (false, None)); ("_id", (false, None))]
    ["id"].

Definition sample_paths : list (string * (bool * option Whitelist.schema)) :=
  [("name.first", (false, None)); ("name.last", (false, None));
   ("email", (false, None)); ("friends", (true, Some friend_schema));
   ("_id", (false, None)); ("__v", (false, None))].

Definition sample_schema : Whitelist.schema :=
  Whitelist.Schema sample_paths ["name.full"; "friends.name.full"; "id"; "__v"].

(** Payloads of the socket handlers. *)
Definition socket_payload : props :=
  [("name", VStr "Ann"); ("role", VStr "admin"); ("id", VStr "5")].

Definition update_payload : props :=
  [("name", VStr "Ann"); ("_query", VObj [("name", VStr "Bob"); ("role", VStr "admin")])].

(** * Properties *)

(** ** Strings *)

Section Strings.

Context {engine : RegExpEngine} {store_engine : Store.StoreEngine}.

Lemma append_inv_head (c x y : string) : (c ++ x = c ++ y)%string -> x = y.
Proof.
  induction c as [|a c IH]; simpl; intros H; [exact H|].
  injection H as H. auto.
Qed.

Lemma append_nonempty (a b : string) : a <> EmptyString -> (a ++ b)%string <> EmptyString.
Proof. destruct a; simpl; intros H; [contradiction|discriminate]. Qed.

Lemma split_on_app (c : ascii) (p q : string) :
  Str.split c (p ++ String c q) = Str.split c p ++ Str.split c q.
Proof.
  unfold Str.split. induction p as [|a p IH]; simpl.
  - rewrite Ascii.eqb_refl. destruct (Str.split_on c q); reflexivity.
  - destruct (Str.split_on c (p ++ String c q)) as [seg segs].
    destruct (Str.split_on c p) as [seg' segs'].
    destruct (Str.split_on c q) as [seg'' segs''].
    simpl in IH. injection IH as -> ->.
    destruct (Ascii.eqb a c); reflexivity.
Qed.

Lemma split_on_free (c : ascii) (s : string) :
  Projection.contains c s = false -> Str.split_on c s = (s, []).
Proof.
  unfold Projection.contains. induction s as [|a s IH]; [reflexivity|].
  cbn [list_ascii_of_string existsb Str.split_on]. intros H.
  apply orb_false_iff in H as [Ha Hs]. rewrite (IH Hs).
  rewrite Ascii.eqb_sym, Ha. reflexivity.
Qed.

Lemma split_free (c : ascii) (s : string) :
  Projection.contains c s = false -> Str.split c s = [s].
Proof. intros H. unfold Str.split. rewrite (split_on_free c s H). reflexivity. Qed.

Lemma has_modifier_suffix (prefix m : string) :
  Str.split "." m = [m] ->
  List.last (Str.split "." (prefix ++ String "." m)) "" = m.
Proof.
  intros Hm. rewrite split_on_app, Hm. apply last_last.
Qed.

Lemma key_is_not_length (k m : string) :
  List.last (Str.split "." k) "" = m -> m <> "length" -> String.eqb "length" k = false.
Proof.
  intros Hk Hm. destruct (String.eqb_spec "length" k) as [<-|]; [|reflexivity].
  destruct Hm. rewrite <- Hk. reflexivity.
Qed.

Lemma append_cons (a : ascii) (s t : string) :
  (String a s ++ t)%string = String a (s ++ t)%string.
Proof. reflexivity. Qed.

Lemma join_cons (sep seg : string) (segs : list string) :
  Str.join sep (seg :: segs) =
  match segs with
  | [] => seg
  | _ :: _ => (seg ++ sep ++ Str.join sep segs)%string
  end.
Proof. destruct segs; reflexivity. Qed.

(** Joining the segments of a split gives the string back. *)
Lemma join_split (c : ascii) (s : string) :
  Str.join (String c EmptyString) (Str.split c s) = s.
Proof.
  unfold Str.split. induction s as [|a s IH]; [reflexivity|].
  cbn [Str.split_on]. destruct (Str.split_on c s) as [seg segs].
  destruct (Ascii.eqb_spec a c) as [->|Hne].
  - rewrite join_cons, IH. reflexivity.
  - rewrite join_cons in *. destruct segs as [|seg' segs].
    + rewrite IH. reflexivity.
    + rewrite append_cons, IH. reflexivity.
Qed.

End Strings.

(** ** Properties of objects *)

Section PropertiesObjects.

Context {engine : RegExpEngine} {store_engine : Store.StoreEngine}.

Section ObjFacts.

Context {V : Type}.
Implicit Types (ps : list (string * V)) (k : string) (v : V).

Lemma get_set_eq k v ps : Obj.get k (Obj.set k v ps) = Some v.
Proof.
  induction ps as [|[k' v'] ps IH]; cbn [Obj.set Obj.get].
  - rewrite String.eqb_refl. reflexivity.
  - destruct (String.eqb k k') eqn:E; cbn [Obj.get].
    + rewrite String.eqb_refl. reflexivity.
    + rewrite E. exact IH.
Qed.

Lemma get_set_ne k k' v ps : k <> k' -> Obj.get k' (Obj.set k v ps) = Obj.get k' ps.
Proof.
  intros Hne. apply String.eqb_neq in Hne. rewrite String.eqb_sym in Hne.
  induction ps as [|[k0 v0] ps IH]; cbn [Obj.set Obj.get].
  - rewrite Hne. reflexivity.
  - destruct (String.eqb_spec k k0) as [->|Hk]; cbn [Obj.get].
    + rewrite Hne. reflexivity.
    + destruct (String.eqb k' k0); [reflexivity|exact IH].
Qed.

Lemma get_delete_eq k ps : Obj.get k (Obj.delete k ps) = None.
Proof.
  induction ps as [|[k0 v0] ps IH]; cbn [Obj.delete Obj.get]; [reflexivity|].
  destruct (String.eqb k k0) eqn:E; [exact IH|].
  cbn [Obj.get]. rewrite E. exact IH.
Qed.

Lemma get_delete_ne k k' ps : k <> k' -> Obj.get k' (Obj.delete k ps) = Obj.get k' ps.
Proof.
  intros Hne.
  induction ps as [|[k0 v0] ps IH]; cbn [Obj.delete Obj.get]; [reflexivity|].
  destruct (String.eqb_spec k k0) as [->|Hk].
  - apply String.eqb_neq in Hne. rewrite String.eqb_sym in Hne.
    rewrite Hne. exact IH.
  - cbn [Obj.get]. destruct (String.eqb k' k0); [reflexivity|exact IH].
Qed.

(** Assigning the value a property already has changes nothing. *)
Lemma set_same k v ps : Obj.get k ps = Some v -> Obj.set k v ps = ps.
Proof.
  induction ps as [|[k0 v0] ps IH]; cbn [Obj.set Obj.get]; [discriminate|].
  destruct (String.eqb_spec k k0) as [->|Hk].
  - intros [= ->]. reflexivity.
  - intros H. rewrite (IH H). reflexivity.
Qed.

Lemma get_Some_In k v ps : Obj.get k ps = Some v -> In (k, v) ps.
Proof.
  induction ps as [|[k0 v0] ps IH]; cbn [Obj.get]; [discriminate|].
  destruct (String.eqb_spec k k0) as [->|Hk].
  - intros [= ->]. left. reflexivity.
  - intros H. right. auto.
Qed.

Lemma get_Some_key k v ps : Obj.get k ps = Some v -> In k (Obj.keys ps).
Proof.
  intros H. apply get_Some_In in H. unfold Obj.keys.
  apply (in_map fst) in H. exact H.
Qed.

Lemma key_get_Some k ps : In k (Obj.keys ps) -> exists v, Obj.get k ps = Some v.
Proof.
  unfold Obj.keys.
  induction ps as [|[k0 v0] ps IH]; cbn [map fst Obj.get]; [intros []|].
  destruct (String.eqb_spec k k0) as [->|Hk]; [eauto|].
  intros [H|H]; [congruence|auto].
Qed.

Lemma In_set k v k' v' ps :
  In (k', v') (Obj.set k v ps) -> (k' = k /\ v' = v) \/ In (k', v') ps.
Proof.
  induction ps as [|[k0 v0] ps IH]; cbn [Obj.set].
  - intros [[= <- <-]|[]]. auto.
  - destruct (String.eqb k k0).
    + intros [[= <- <-]|H]; [auto|right; right; exact H].
    + intros [H|H]; [right; left; exact H|].
      destruct (IH H); [auto|right; right; assumption].
Qed.

Lemma In_delete k k' v' ps : In (k', v') (Obj.delete k ps) -> In (k', v') ps.
Proof.
  induction ps as [|[k0 v0] ps IH]; cbn [Obj.delete]; [intros []|].
  destruct (String.eqb k k0).
  - intros H. right. auto.
  - intros [H|H]; [left; exact H|right; auto].
Qed.

End ObjFacts.

End PropertiesObjects.

(** ** Modifiers *)

Section Modifiers.

Context {engine : RegExpEngine} {store_engine : Store.StoreEngine}.






Lemma split_starts_with (c : ascii) (s : string) :
  Str.starts_with c s = true ->
  exists pattern rest, Str.split c s = EmptyString :: pattern :: rest.
Proof.
  destruct s as [|a s]; simpl; [discriminate|].
  intros Ha. unfold Str.split. simpl.
  destruct (Str.split_on c s) as [seg segs]. rewrite Ha. eauto.
Qed.

Lemma processModifier_regex_string (s : string) :
  processModifier "regex" (VStr s) =
  if Str.starts_with "/" s
  then new_directive (VStr (nth 1 (Str.split "/" s) "")) (nth 2 (Str.split "/" s) "")
  else new_directive (VStr s) "".
Proof.
  unfold processModifier. simpl.
  destruct (Str.starts_with "/" s) eqn:Hs; [|reflexivity].
  destruct (split_starts_with _ _ Hs) as (pattern & rest & ->).
  simpl. destruct rest as [|f rest]; simpl; [reflexivity|].
  destruct (String.eqb_spec f ""); subst; reflexivity.
Qed.



End Modifiers.

Section ModifiersExamples.

#[local] Existing Instance sample_engine.
#[local] Existing Instance sample_store_engine.


(** The engine's SyntaxError reaches the caller of the modifier. *)
Example processModifier_rejected :
  processModifier "regex" (VStr "(") = Throws SyntaxError
  /\ processModifier "regex" (VStr "/a/zz") = Throws SyntaxError.
Proof. split; reflexivity. Qed.

Example escapeRegExp_example : escapeRegExp "a.b*(c)" = "a\.b\*\(c\)".
Proof. reflexivity. Qed.

End ModifiersExamples.

(** ** Loops of the compiler *)

Section LoopsCompiler.

Context {engine : RegExpEngine} {store_engine : Store.StoreEngine}.

Lemma bind_Returns {A B} (m : option (outcome A)) (k : A -> option (outcome B)) b :
  bind m k = Some (Returns b) ->
  exists a, m = Some (Returns a) /\ k a = Some (Returns b).
Proof.
  destruct m as [[a|e]|]; cbn [bind]; [eauto|discriminate|discriminate].
Qed.

(** A property of the object and of the keys still to visit that each
    call of the iteratee re-establishes holds when the loop returns. *)
Lemma each_invariant (I : list key -> value -> Prop) f ks p r :
  I ks p ->
  (forall k ks' p p', I (k :: ks') p -> f k p = Some (Returns p') -> I ks' p') ->
  each f ks p = Some (Returns r) -> I [] r.
Proof.
  intros HI Hstep. revert p HI.
  induction ks as [|k ks IH]; intros p HI; cbn [each].
  - intros [= <-]. exact HI.
  - intros H. apply bind_Returns in H as (p' & Hf & H).
    exact (IH p' (Hstep _ _ _ _ HI Hf) H).
Qed.

(** The loop ends, with a result, when each call of the iteratee does. *)
Lemma each_total (I : value -> Prop) f ks p :
  I p ->
  (forall k p, In k ks -> I p ->
               exists r, f k p = Some r /\ forall p', r = Returns p' -> I p') ->
  exists r, each f ks p = Some r /\ forall p', r = Returns p' -> I p'.
Proof.
  revert p. induction ks as [|k ks IH]; intros p HI Hstep; cbn [each].
  - exists (Returns p). split; [reflexivity|]. intros p' [= <-]. exact HI.
  - destruct (Hstep k p (or_introl eq_refl) HI) as (r & Hr & HI').
    rewrite Hr. destruct r as [p'|e]; cbn [bind].
    + apply IH; [apply HI'; reflexivity|].
      intros k' q Hk'. apply Hstep. right. exact Hk'.
    + exists (Throws e). split; [reflexivity|discriminate].
Qed.

(** The loop returns the object unchanged when no call of the
    iteratee changes it. *)
Lemma each_fixed f ks p r :
  (forall k p', In k ks -> f k p = Some (Returns p') -> p' = p) ->
  each f ks p = Some (Returns r) -> r = p.
Proof.
  induction ks as [|k ks IH]; cbn [each]; intros Hstep.
  - intros [= <-]. reflexivity.
  - intros H. apply bind_Returns in H as (p' & Hf & H).
    assert (p' = p) as -> by (apply (Hstep k); [left; reflexivity|exact Hf]).
    apply IH; [|exact H]. intros k' q Hk'. apply Hstep. right. exact Hk'.
Qed.

End LoopsCompiler.

(** ** One call of the iteratee *)

Section OneCallIteratee.

Context {engine : RegExpEngine} {store_engine : Store.StoreEngine}.

Lemma mem_fieldModifiers (m : string) :
  Str.mem m fieldModifiers = true -> m = "contains" \/ m = "regex".
Proof.
  unfold Str.mem, fieldModifiers. cbn [existsb].
  destruct (String.eqb_spec m "contains"); [auto|].
  destruct (String.eqb_spec m "regex"); [auto|discriminate].
Qed.

Lemma new_directive_returns pattern flags d :
  new_directive pattern flags = Returns d ->
  d = regex_directive pattern flags /\ regexp_accepts pattern flags = true.
Proof.
  unfold new_directive. destruct (regexp_accepts pattern flags); [|discriminate].
  intros [= <-]. split; reflexivity.
Qed.

Lemma processModifier_is_directive (m : string) (v d : value) :
  Str.mem m fieldModifiers = true ->
  processModifier m v = Returns d -> is_directive d.
Proof.
  intros Hm. destruct (mem_fieldModifiers m Hm) as [-> | ->].
  - destruct v; try discriminate. cbn [processModifier String.eqb Ascii.eqb Bool.eqb].
    intros H. apply new_directive_returns in H as [-> _]. eexists _, _. reflexivity.
  - destruct v as [| | | |s| |xs|]; try discriminate.
    + rewrite processModifier_regex_string.
      destruct (Str.starts_with "/" s); intros H;
        apply new_directive_returns in H as [-> _]; eexists _, _; reflexivity.
    + unfold processModifier. cbn [String.eqb Ascii.eqb Bool.eqb].
      destruct (starts_with_slash xs); [discriminate|].
      intros H. apply new_directive_returns in H as [-> _]. eexists _, _. reflexivity.
Qed.

Lemma processModifier_on_directive (m : string) (v : value) :
  Str.mem m fieldModifiers = true -> is_directive v ->
  processModifier m v = Throws TypeError.
Proof.
  intros Hm (p & f & ->). destruct (mem_fieldModifiers m Hm) as [-> | ->]; reflexivity.
Qed.

Lemma directive_typeof v : is_directive v -> Js.typeof_object v = true.
Proof. intros (p & f & ->). reflexivity. Qed.

Lemma iteratee_index recurse fields ctx i p :
  iteratee recurse fields ctx (KIdx i) p =
  (let! r := recurse (Params.read (KIdx i) p) ctx in
   Some (Returns (Params.write (KIdx i) r p))).
Proof. reflexivity. Qed.

(** A call of the iteratee for a property name, case by case. *)
Lemma iteratee_name recurse fields ctx s ps :
  iteratee recurse fields ctx (KStr s) (VObj ps) =
  if has_modifier s then
    match processModifier (List.last (Str.split "." s) "") (Obj.read s ps) with
    | Throws e => Some (Throws e)
    | Returns d =>
        let! r := recurse d (if Str.mem (strip s) queryOperatorIgnore then ctx
                             else field_of ctx (KStr s)) in
        Some (Returns (VObj (Obj.set (strip s) r
                               (Obj.set (strip s) d (Obj.delete s ps)))))
    end
  else if Js.typeof_object (Obj.read s ps) then
    let! r := recurse (Obj.read s ps) (context_under ctx s) in
    Some (Returns (VObj (Obj.set s r ps)))
  else if allowed fields ctx s then Some (Returns (VObj ps))
  else Some (Returns (VObj (Obj.delete s ps))).
Proof.
  unfold iteratee, resolve_modifier, has_modifier.
  cbn [Params.read Params.name Params.delete Params.write].
  destruct (Str.mem (List.last (Str.split "." s) "") fieldModifiers) eqn:Hm.
  - destruct (processModifier _ (Obj.read s ps)) as [d|e] eqn:Hd; cbn [bind]; [|reflexivity].
    rewrite (directive_typeof d (processModifier_is_directive _ _ _ Hm Hd)).
    fold (strip s).
    destruct (Str.mem (strip s) queryOperatorIgnore); reflexivity.
  - cbn [bind]. unfold context_under, allowed.
    destruct (Js.typeof_object (Obj.read s ps)).
    + destruct (Str.mem s queryOperatorIgnore); reflexivity.
    + destruct (Str.mem (field_of ctx (KStr s)) fields),
        (Str.mem s queryOperatorIgnore); reflexivity.
Qed.

Lemma buildQueryFromParams_fuel_S fuel params fields ctx :
  buildQueryFromParams_fuel (S fuel) params fields ctx =
  if negb (Js.isObject params) then Some (Returns params)
  else each (iteratee (fun v c => buildQueryFromParams_fuel fuel v fields c) fields ctx)
         (each_keys params) params.
Proof. reflexivity. Qed.

(** A directive compiles to itself, in any context. *)
Lemma compile_directive fuel d fields ctx :
  is_directive d ->
  buildQueryFromParams_fuel (S (S fuel)) d fields ctx = Some (Returns d).
Proof. intros (p & f & ->). reflexivity. Qed.

Lemma compile_directive_returns fuel d fields ctx r :
  is_directive d ->
  buildQueryFromParams_fuel fuel d fields ctx = Some (Returns r) -> r = d.
Proof.
  intros Hd. destruct fuel as [|[|fuel]].
  - discriminate.
  - destruct Hd as (p & f & ->). discriminate.
  - rewrite (compile_directive fuel d fields ctx Hd). congruence.
Qed.

Lemma compiled_directive fields ctx d : is_directive d -> compiled fields ctx d.
Proof.
  intros (p & f & ->). apply compiled_object; [reflexivity| | |].
  - intros s v. unfold regex_directive. cbn [Obj.get].
    destruct (String.eqb s "$regex"); [|discriminate].
    intros [= <-] _. apply compiled_regexp.
  - intros s v. cbn [Obj.get].
    destruct (String.eqb s "$regex"); [|discriminate].
    intros [= <-]. discriminate.
  - intros s v. cbn [Obj.get].
    destruct (String.eqb_spec s "$regex") as [->|]; [|discriminate].
    intros _. discriminate.
Qed.

Lemma array_set_length i v xs :
  (i < length xs)%nat -> length (Params.array_set i v xs) = length xs.
Proof.
  intros Hi. unfold Params.array_set.
  destruct (Nat.ltb_spec i (length xs)); [|lia]. apply length_insert.
Qed.

(** The compiler returns a value of the kind it was given. *)
Lemma compile_same_kind fuel v fields ctx r :
  buildQueryFromParams_fuel fuel v fields ctx = Some (Returns r) -> same_kind v r.
Proof.
  destruct fuel as [|fuel]; [discriminate|].
  rewrite buildQueryFromParams_fuel_S.
  destruct v as [| | | | | |xs|ps]; cbn [Js.isObject negb same_kind each_keys each];
    try (intros [= <-]; reflexivity).
  - intros H.
    apply (each_invariant
             (fun ks p => (forall k, In k ks -> exists i, k = KIdx i /\ (i < length xs)%nat)
                          /\ exists xs', p = VArr xs' /\ length xs' = length xs)) in H.
    + apply H.
    + split; [|eauto]. intros k Hk.
      apply in_map_iff in Hk as (i & <- & Hi). apply in_seq in Hi.
      eexists; split; [reflexivity|lia].
    + intros k ks' p p' [Hks (xs' & -> & Hlen)] Hf.
      destruct (Hks k (or_introl eq_refl)) as (i & -> & Hi).
      split; [intros k' Hk'; apply Hks; right; exact Hk'|].
      rewrite iteratee_index in Hf. apply bind_Returns in Hf as (r' & _ & [= <-]).
      cbn [Params.write]. eexists; split; [reflexivity|].
      rewrite array_set_length; lia.
  - intros H.
    apply (each_invariant (fun ks p => exists ps', p = VObj ps')) in H.
    + exact H.
    + eauto.
    + intros k ks' p p' (ps' & ->) Hf. destruct k as [i|s].
      * rewrite iteratee_index in Hf. apply bind_Returns in Hf as (r' & _ & [= <-]).
        cbn [Params.write]. eauto.
      * rewrite iteratee_name in Hf.
        destruct (has_modifier s).
        { destruct (processModifier _ _); [|discriminate].
          apply bind_Returns in Hf as (r' & _ & [= <-]). eauto. }
        destruct (Js.typeof_object _).
        { apply bind_Returns in Hf as (r' & _ & [= <-]). eauto. }
        destruct (allowed _ _ _); injection Hf as <-; eauto.
Qed.

Lemma same_kind_typeof v r : same_kind v r -> Js.typeof_object r = Js.typeof_object v.
Proof.
  destruct v; cbn [same_kind]; try (intros ->; reflexivity).
  - intros (? & -> & _). reflexivity.
  - intros (? & ->). reflexivity.
Qed.

End OneCallIteratee.

(** ** Index names *)

Section IndexNames.

Context {engine : RegExpEngine} {store_engine : Store.StoreEngine}.

Lemma of_nat_inj i j : Str.of_nat i = Str.of_nat j -> i = j.
Proof.
  unfold Str.of_nat. intros H.
  apply Unsigned.to_uint_inj.
  assert (Some (Nat.to_uint i) = Some (Nat.to_uint j)) as [= E]; [|exact E].
  rewrite <- !NilEmpty.usu. rewrite H. reflexivity.
Qed.

Lemma of_nat_not_length i : Str.of_nat i <> "length".
Proof.
  unfold Str.of_nat. destruct (Nat.to_uint i); cbn; discriminate.
Qed.

Lemma array_length_set_index i v ps :
  array_length (Obj.set (Str.of_nat i) v ps) = array_length ps.
Proof.
  unfold array_length. rewrite get_set_ne; [reflexivity|apply of_nat_not_length].
Qed.

Lemma array_length_set_object k v ps :
  array_length ps = None -> Js.typeof_object v = true ->
  array_length (Obj.set k v ps) = None.
Proof.
  unfold array_length. intros Hps Hv.
  destruct (String.eqb_spec k "length") as [->|Hk].
  - rewrite get_set_eq. destruct v; try discriminate Hv; reflexivity.
  - rewrite get_set_ne by exact Hk. exact Hps.
Qed.

Lemma array_length_delete k ps :
  array_length ps = None -> array_length (Obj.delete k ps) = None.
Proof.
  unfold array_length.
  destruct (String.eqb_spec k "length") as [->|Hk].
  - rewrite get_delete_eq. reflexivity.
  - rewrite get_delete_ne by exact Hk. auto.
Qed.

Lemma nth_array_set_eq i v xs d :
  (i < length xs)%nat -> nth i (Params.array_set i v xs) d = v.
Proof.
  intros Hi. unfold Params.array_set.
  destruct (Nat.ltb_spec i (length xs)); [|lia].
  rewrite nth_lookup, list_lookup_insert_eq by exact Hi. reflexivity.
Qed.

Lemma nth_array_set_ne i j v xs d :
  (i < length xs)%nat -> i <> j -> nth j (Params.array_set i v xs) d = nth j xs d.
Proof.
  intros Hi Hij. unfold Params.array_set.
  destruct (Nat.ltb_spec i (length xs)); [|lia].
  rewrite !nth_lookup, list_lookup_insert_ne by exact Hij. reflexivity.
Qed.

Lemma read_get s ps v : Obj.get s ps = Some v -> Obj.read s ps = v.
Proof. unfold Obj.read. intros ->. reflexivity. Qed.

End IndexNames.

(** ** The output of the compiler *)

Section OutputCompiler.

Context {engine : RegExpEngine} {store_engine : Store.StoreEngine}.

Lemma entry_ok_directive fields ctx s d : is_directive d -> entry_ok fields ctx s d.
Proof.
  intros Hd. split; [|split].
  - intros _. apply compiled_directive. exact Hd.
  - rewrite (directive_typeof d Hd). discriminate.
  - intros _. exact Hd.
Qed.

Lemma compile_name_step fields ctx fuel s ks ps p' :
  (forall v c r, buildQueryFromParams_fuel fuel v fields c = Some (Returns r) ->
                 compiled fields c r) ->
  array_length ps = None ->
  (forall s' v, Obj.get s' ps = Some v ->
                In (KStr s') (KStr s :: ks) \/ entry_ok fields ctx s' v) ->
  iteratee (fun v c => buildQueryFromParams_fuel fuel v fields c) fields ctx
    (KStr s) (VObj ps) = Some (Returns p') ->
  exists ps', p' = VObj ps' /\ array_length ps' = None
              /\ forall s' v, Obj.get s' ps' = Some v ->
                              In (KStr s') ks \/ entry_ok fields ctx s' v.
Proof.
  intros IH Hlen Hinv Hf.
  assert (Hother : forall s' v, s <> s' -> Obj.get s' ps = Some v ->
                                In (KStr s') ks \/ entry_ok fields ctx s' v).
  { intros s' v Hne Hget. destruct (Hinv s' v Hget) as [[[= E]|H]|H]; auto.
    congruence. }
  rewrite iteratee_name in Hf.
  destruct (has_modifier s) eqn:Hmod.
  - destruct (processModifier _ _) as [d|e] eqn:Hd; [|discriminate].
    pose proof (processModifier_is_directive _ _ _ Hmod Hd) as Hdir.
    apply bind_Returns in Hf as (r & Hr & [= <-]).
    apply compile_directive_returns in Hr; [subst r|exact Hdir].
    eexists. split; [reflexivity|]. split.
    + apply array_length_set_object; [|apply directive_typeof; exact Hdir].
      apply array_length_set_object; [|apply directive_typeof; exact Hdir].
      apply array_length_delete. exact Hlen.
    + intros s' v. destruct (String.eqb_spec (strip s) s') as [<-|Hne].
      * rewrite get_set_eq. intros [= <-]. right. apply entry_ok_directive. exact Hdir.
      * rewrite !get_set_ne by exact Hne.
        destruct (String.eqb_spec s s') as [<-|Hne'].
        -- rewrite get_delete_eq. discriminate.
        -- rewrite get_delete_ne by exact Hne'. apply Hother. exact Hne'.
  - destruct (Js.typeof_object (Obj.read s ps)) eqn:Hty.
    + apply bind_Returns in Hf as (r & Hr & [= <-]).
      pose proof (same_kind_typeof _ _ (compile_same_kind _ _ _ _ _ Hr)) as Hkind.
      rewrite Hty in Hkind.
      eexists. split; [reflexivity|]. split.
      * apply array_length_set_object; assumption.
      * intros s' v. destruct (String.eqb_spec s s') as [<-|Hne].
        -- rewrite get_set_eq. intros [= <-]. right. split; [|split].
           ++ intros _. exact (IH _ _ _ Hr).
           ++ rewrite Hkind. discriminate.
           ++ rewrite Hmod. discriminate.
        -- rewrite get_set_ne by exact Hne. apply Hother. exact Hne.
    + destruct (allowed fields ctx s) eqn:Hal; injection Hf as <-.
      * eexists. split; [reflexivity|]. split; [exact Hlen|].
        intros s' v. destruct (String.eqb_spec s s') as [<-|Hne].
        -- intros Hget. right. rewrite (read_get _ _ _ Hget) in Hty.
           split; [|split].
           ++ rewrite Hty. discriminate.
           ++ intros _. exact Hal.
           ++ rewrite Hmod. discriminate.
        -- apply Hother. exact Hne.
      * eexists. split; [reflexivity|]. split; [apply array_length_delete; exact Hlen|].
        intros s' v. destruct (String.eqb_spec s s') as [<-|Hne].
        -- rewrite get_delete_eq. discriminate.
        -- rewrite get_delete_ne by exact Hne. apply Hother. exact Hne.
Qed.

Lemma each_keys_index n k :
  In k (map KIdx (seq 0 n)) -> exists i, k = KIdx i /\ (i < n)%nat.
Proof.
  intros Hk. apply in_map_iff in Hk as (i & <- & Hi). apply in_seq in Hi.
  eexists; split; [reflexivity|lia].
Qed.

Lemma each_keys_index_In n i : (i < n)%nat -> In (KIdx i) (map KIdx (seq 0 n)).
Proof. intros Hi. apply in_map, in_seq. lia. Qed.

Lemma each_keys_name (ps : props) k :
  In k (map KStr (Obj.keys ps)) -> exists s, k = KStr s /\ In s (Obj.keys ps).
Proof. intros Hk. apply in_map_iff in Hk as (s & <- & Hs). eauto. Qed.

(** Whatever the compiler returns is a compiled query. *)
Lemma compile_compiled fuel : forall v fields ctx r,
  buildQueryFromParams_fuel fuel v fields ctx = Some (Returns r) ->
  compiled fields ctx r.
Proof.
  induction fuel as [|fuel IH]; intros v fields ctx r; [discriminate|].
  rewrite buildQueryFromParams_fuel_S.
  destruct v as [| | | | |pattern flags|xs|ps]; cbn [Js.isObject negb each_keys each];
    try (intros [= <-]; apply compiled_scalar; reflexivity).
  - intros [= <-]. apply compiled_regexp.
  - (* an array *)
    intros H.
    apply (each_invariant
             (fun ks p =>
                (forall k, In k ks -> exists i, k = KIdx i /\ (i < length xs)%nat)
                /\ exists xs', p = VArr xs' /\ length xs' = length xs
                   /\ forall i, (i < length xs)%nat ->
                                In (KIdx i) ks \/ compiled fields ctx (nth i xs' VUndefined)))
      in H.
    + destruct H as (_ & xs' & -> & Hlen & Hall).
      apply compiled_array. intros x Hx.
      apply (In_nth _ _ VUndefined) in Hx as (i & Hi & <-).
      destruct (Hall i ltac:(lia)) as [[]|Hc]. exact Hc.
    + split; [apply each_keys_index|].
      exists xs. split; [reflexivity|]. split; [reflexivity|].
      intros i Hi. left. apply each_keys_index_In. exact Hi.
    + intros k ks' p p' (Hks & xs' & -> & Hlen & Hall) Hf.
      destruct (Hks k (or_introl eq_refl)) as (i & -> & Hi).
      split; [intros k' Hk'; apply Hks; right; exact Hk'|].
      rewrite iteratee_index in Hf. apply bind_Returns in Hf as (r' & Hr & [= <-]).
      cbn [Params.write Params.read] in *.
      eexists. split; [reflexivity|].
      split; [rewrite array_set_length; lia|].
      intros j Hj. destruct (Nat.eq_dec i j) as [<-|Hij].
      * right. rewrite nth_array_set_eq by lia. exact (IH _ _ _ _ Hr).
      * rewrite nth_array_set_ne by lia.
        destruct (Hall j Hj) as [[[= E]|Hin]|Hc]; [lia|auto|auto].
  - (* a mapping *)
    destruct (array_length ps) as [n|] eqn:Hlen.
    + intros H.
      apply (each_invariant
               (fun ks p =>
                  (forall k, In k ks -> exists i, k = KIdx i /\ (i < n)%nat)
                  /\ exists ps', p = VObj ps' /\ array_length ps' = Some n
                     /\ forall i, (i < n)%nat ->
                          In (KIdx i) ks
                          \/ (Obj.get (Str.of_nat i) ps' <> None
                              /\ compiled fields ctx (Obj.read (Str.of_nat i) ps'))))
        in H.
      * destruct H as (_ & ps' & -> & Hlen' & Hall).
        apply (compiled_array_like _ _ _ n); [exact Hlen'| |];
          intros i Hi; destruct (Hall i Hi) as [[]|[H1 H2]]; assumption.
      * split; [apply each_keys_index|].
        exists ps. split; [reflexivity|]. split; [exact Hlen|].
        intros i Hi. left. apply each_keys_index_In. exact Hi.
      * intros k ks' p p' (Hks & ps' & -> & Hlen' & Hall) Hf.
        destruct (Hks k (or_introl eq_refl)) as (i & -> & Hi).
        split; [intros k' Hk'; apply Hks; right; exact Hk'|].
        rewrite iteratee_index in Hf. apply bind_Returns in Hf as (r' & Hr & [= <-]).
        cbn [Params.write Params.read Params.name] in *.
        eexists. split; [reflexivity|].
        split; [rewrite array_length_set_index; exact Hlen'|].
        intros j Hj. destruct (Nat.eq_dec i j) as [<-|Hij].
        -- right. unfold Obj.read. rewrite get_set_eq.
           split; [discriminate|]. exact (IH _ _ _ _ Hr).
        -- assert (Str.of_nat i <> Str.of_nat j) as Hne
             by (intros E; apply Hij, of_nat_inj, E).
           unfold Obj.read. rewrite get_set_ne by exact Hne.
           destruct (Hall j Hj) as [[[= E]|Hin]|Hc]; [lia|auto|auto].
    + intros H.
      apply (each_invariant
               (fun ks p =>
                  (forall k, In k ks -> exists s, k = KStr s)
                  /\ exists ps', p = VObj ps' /\ array_length ps' = None
                     /\ forall s v, Obj.get s ps' = Some v ->
                                    In (KStr s) ks \/ entry_ok fields ctx s v))
        in H.
      * destruct H as (_ & ps' & -> & Hlen' & Hall).
        apply compiled_object; [exact Hlen'| | |]; intros s v Hget;
          destruct (Hall s v Hget) as [[]|(H1 & H2 & H3)]; assumption.
      * split.
        { intros k Hk. apply each_keys_name in Hk as (s & -> & _). eauto. }
        exists ps. split; [reflexivity|]. split; [exact Hlen|].
        intros s v Hget. left. apply in_map. exact (get_Some_key _ _ _ Hget).
      * intros k ks' p p' (Hks & ps' & -> & Hlen' & Hall) Hf.
        destruct (Hks k (or_introl eq_refl)) as (s & ->).
        split; [intros k' Hk'; apply Hks; right; exact Hk'|].
        apply (compile_name_step fields ctx fuel s ks' ps' p'); auto.
        intros v c r'. apply IH.
Qed.

End OutputCompiler.

(** ** Compiling a compiled query *)

Section CompilingCompiledQuery.

Context {engine : RegExpEngine} {store_engine : Store.StoreEngine}.

Lemma array_set_same i xs d :
  (i < length xs)%nat -> Params.array_set i (nth i xs d) xs = xs.
Proof.
  intros Hi. unfold Params.array_set.
  destruct (Nat.ltb_spec i (length xs)); [|lia].
  apply list_insert_id. rewrite nth_lookup.
  destruct (xs !! i) eqn:E; [reflexivity|].
  apply lookup_ge_None in E. lia.
Qed.

(** Compiled again, in the same context, a compiled query comes back
    unchanged, if the compiler returns at all. *)
Lemma compiled_fixed fuel : forall q fields ctx r,
  compiled fields ctx q ->
  buildQueryFromParams_fuel fuel q fields ctx = Some (Returns r) -> r = q.
Proof.
  induction fuel as [|fuel IH]; intros q fields ctx r Hq; [discriminate|].
  rewrite buildQueryFromParams_fuel_S.
  inversion Hq as [? v Hv|? pattern flags|? xs Hxs|? ps n Hlen Hsome Hall
                  |? ps Hlen Hobj Hsca Hmod]; subst.
  - rewrite Hv. intros [= <-]. reflexivity.
  - intros [= <-]. reflexivity.
  - cbn [Js.isObject negb each_keys]. apply each_fixed.
    intros k p' Hk Hf. apply each_keys_index in Hk as (i & -> & Hi).
    rewrite iteratee_index in Hf. apply bind_Returns in Hf as (r' & Hr & [= <-]).
    cbn [Params.read Params.write] in *.
    apply IH in Hr; [|apply Hxs, nth_In; exact Hi].
    subst r'. rewrite array_set_same by exact Hi. reflexivity.
  - cbn [Js.isObject negb each_keys]. rewrite Hlen. apply each_fixed.
    intros k p' Hk Hf. apply each_keys_index in Hk as (i & -> & Hi).
    rewrite iteratee_index in Hf. apply bind_Returns in Hf as (r' & Hr & [= <-]).
    cbn [Params.read Params.write Params.name] in *.
    apply IH in Hr; [|apply Hall; exact Hi].
    subst r'. rewrite set_same; [reflexivity|].
    unfold Obj.read. specialize (Hsome i Hi).
    destruct (Obj.get (Str.of_nat i) ps); [reflexivity|contradiction].
  - cbn [Js.isObject negb each_keys]. rewrite Hlen. apply each_fixed.
    intros k p' Hk Hf. apply each_keys_name in Hk as (s & -> & Hs).
    apply key_get_Some in Hs as (v & Hget).
    rewrite iteratee_name in Hf. rewrite (read_get _ _ _ Hget) in Hf.
    destruct (has_modifier s) eqn:Hm.
    + rewrite (processModifier_on_directive _ v Hm (Hmod s v Hget Hm)) in Hf.
      discriminate.
    + destruct (Js.typeof_object v) eqn:Hty.
      * apply bind_Returns in Hf as (r' & Hr & [= <-]).
        apply IH in Hr; [|exact (Hobj s v Hget Hty)].
        subst r'. rewrite (set_same _ _ _ Hget). reflexivity.
      * rewrite (Hsca s v Hget Hty) in Hf. congruence.
Qed.

End CompilingCompiledQuery.

(** ** The compiler ends *)

Section CompilerEnds.

Context {engine : RegExpEngine} {store_engine : Store.StoreEngine}.

Lemma fuel_for_pos v : (1 <= fuel_for v)%nat.
Proof. destruct v; cbn [fuel_for]; lia. Qed.

Lemma list_max_bound (xs : list nat) (m : nat) :
  (forall x, In x xs -> (x <= m)%nat) -> (list_max xs <= m)%nat.
Proof.
  intros H. apply list_max_le, List.Forall_forall. exact H.
Qed.

Lemma list_max_In (xs : list nat) (x : nat) : In x xs -> (x <= list_max xs)%nat.
Proof.
  intros H. pose proof (proj1 (list_max_le xs (list_max xs)) (le_n _)) as Hall.
  rewrite List.Forall_forall in Hall. auto.
Qed.

Lemma In_array_set i v x xs :
  (i < length xs)%nat -> In x (Params.array_set i v xs) -> x = v \/ In x xs.
Proof.
  intros Hi. unfold Params.array_set.
  destruct (Nat.ltb_spec i (length xs)); [|lia].
  intros Hx. apply (In_nth _ _ VUndefined) in Hx as (j & Hj & <-).
  rewrite length_insert in Hj.
  destruct (Nat.eq_dec i j) as [<-|Hij].
  - left. rewrite nth_lookup, list_lookup_insert_eq by exact Hi. reflexivity.
  - right. rewrite nth_lookup, list_lookup_insert_ne by exact Hij.
    rewrite <- nth_lookup. apply nth_In. exact Hj.
Qed.

Lemma processModifier_returns_on (m : string) (v d : value) :
  Str.mem m fieldModifiers = true ->
  processModifier m v = Returns d -> (2 <= fuel_for v)%nat.
Proof.
  intros Hm. destruct (mem_fieldModifiers m Hm) as [-> | ->].
  - destruct v; try discriminate. cbn [fuel_for]. lia.
  - destruct v; try discriminate; cbn [fuel_for]; lia.
Qed.

Lemma directive_fuel d : is_directive d -> fuel_for d = 2%nat.
Proof. intros (p & f & ->). reflexivity. Qed.

Lemma read_bound (ps : props) s m :
  (forall k v, In (k, v) ps -> (fuel_for v <= m)%nat) ->
  (fuel_for (Obj.read s ps) <= m)%nat \/ Obj.read s ps = VUndefined.
Proof.
  intros H. unfold Obj.read. destruct (Obj.get s ps) as [v|] eqn:E; [left|right; reflexivity].
  apply (H s). apply get_Some_In. exact E.
Qed.

(** With the fuel [fuel_for] grants, the compiler ends (it returns or
    it throws), and what it returns asks for no more fuel than what it
    was given. *)
Lemma compile_total fuel : forall v fields ctx,
  (fuel_for v <= fuel)%nat ->
  exists r, buildQueryFromParams_fuel fuel v fields ctx = Some r
            /\ forall q, r = Returns q -> (fuel_for q <= fuel_for v)%nat.
Proof.
  induction fuel as [|fuel IH]; intros v fields ctx Hfuel.
  { pose proof (fuel_for_pos v). lia. }
  rewrite buildQueryFromParams_fuel_S.
  assert (Hleaf : forall v', Js.isObject v' = false ->
            exists r, Some (Returns v') = Some r
                      /\ forall q, r = Returns q -> (fuel_for q <= fuel_for v')%nat).
  { intros v' _. eexists. split; [reflexivity|]. intros q [= <-]. lia. }
  destruct v as [| | | | |pattern flags|xs|ps]; cbn [Js.isObject negb each_keys each];
    try (apply Hleaf; reflexivity).
  - eexists. split; [reflexivity|]. intros q [= <-]. lia.
  - (* an array *)
    cbn [fuel_for] in Hfuel. set (m := Nat.max 1 (list_max (map fuel_for xs))) in *.
    destruct (each_total
                (fun p => exists xs', p = VArr xs' /\ length xs' = length xs
                          /\ forall x, In x xs' -> (fuel_for x <= m)%nat)
                (iteratee (fun v c => buildQueryFromParams_fuel fuel v fields c) fields ctx)
                (map KIdx (seq 0 (length xs))) (VArr xs)) as (r & Hr & Hbound).
    + exists xs. split; [reflexivity|]. split; [reflexivity|].
      intros x Hx. apply (in_map fuel_for) in Hx. apply list_max_In in Hx. lia.
    + intros k p Hk (xs' & -> & Hlen & Hall).
      apply each_keys_index in Hk as (i & -> & Hi).
      rewrite iteratee_index. cbn [Params.read Params.write].
      assert (Hv : (fuel_for (nth i xs' VUndefined) <= m)%nat)
        by (apply Hall, nth_In; lia).
      destruct (IH (nth i xs' VUndefined) fields ctx ltac:(lia)) as (r & -> & Hq).
      destruct r as [q|e]; cbn [bind].
      * eexists. split; [reflexivity|]. intros p' [= <-].
        eexists. split; [reflexivity|]. split; [rewrite array_set_length; lia|].
        intros x Hx. apply In_array_set in Hx as [->|Hx]; [|auto|lia].
        specialize (Hq q eq_refl). lia.
      * eexists. split; [reflexivity|]. discriminate.
    + exists r. split; [exact Hr|]. intros q ->.
      destruct (Hbound q eq_refl) as (xs' & -> & _ & Hall).
      cbn [fuel_for]. fold m.
      assert (list_max (map fuel_for xs') <= m)%nat; [|lia].
      apply list_max_bound. intros x Hx.
      apply in_map_iff in Hx as (y & <- & Hy). auto.
  - (* a mapping *)
    cbn [fuel_for] in Hfuel.
    set (m := list_max (map (fun kv : string * value => fuel_for (snd kv)) ps)) in *.
    destruct (each_total
                (fun p => exists ps', p = VObj ps'
                          /\ forall k v, In (k, v) ps' -> (fuel_for v <= m)%nat)
                (iteratee (fun v c => buildQueryFromParams_fuel fuel v fields c) fields ctx)
                (match array_length ps with
                 | Some n => map KIdx (seq 0 n)
                 | None => map KStr (Obj.keys ps)
                 end) (VObj ps)) as (r & Hr & Hbound).
    + exists ps. split; [reflexivity|]. intros k v Hkv.
      apply (in_map (fun kv : string * value => fuel_for (snd kv))) in Hkv.
      apply list_max_In in Hkv. exact Hkv.
    + intros k p Hk (ps' & -> & Hall). destruct k as [i|s].
      * (* an index: the mapping carries a numeric length *)
        assert (Hm : (1 <= m)%nat).
        { unfold array_length in Hk.
          destruct (Obj.get "length" ps) as [v|] eqn:Hget.
          - apply get_Some_In in Hget.
            apply (in_map (fun kv : string * value => fuel_for (snd kv))) in Hget.
            apply list_max_In in Hget. cbn [snd] in Hget.
            pose proof (fuel_for_pos v). unfold m. lia.
          - apply each_keys_name in Hk as (s & [=] & _). }
        rewrite iteratee_index. cbn [Params.read Params.write Params.name].
        assert (Hv : (fuel_for (Obj.read (Str.of_nat i) ps') <= m)%nat).
        { destruct (read_bound ps' (Str.of_nat i) m Hall) as [H| ->]; [exact H|exact Hm]. }
        destruct (IH (Obj.read (Str.of_nat i) ps') fields ctx ltac:(lia)) as (r & -> & Hq).
        destruct r as [q|e]; cbn [bind].
        -- eexists. split; [reflexivity|]. intros p' [= <-].
           eexists. split; [reflexivity|].
           intros k v Hkv. apply In_set in Hkv as [[_ ->]|Hkv]; [|eauto].
           specialize (Hq q eq_refl). lia.
        -- eexists. split; [reflexivity|]. discriminate.
      * rewrite iteratee_name.
        destruct (has_modifier s) eqn:Hmod.
        { destruct (processModifier _ _) as [d|e] eqn:Hd.
          - pose proof (processModifier_is_directive _ _ _ Hmod Hd) as Hdir.
            pose proof (processModifier_returns_on _ _ _ Hmod Hd) as Hv.
            assert (Hm : (2 <= m)%nat).
            { destruct (read_bound ps' s m Hall) as [H|E]; [lia|].
              rewrite E in Hv. cbn [fuel_for] in Hv. lia. }
            destruct fuel as [|[|fuel]]; [lia|lia|].
            rewrite (compile_directive fuel d fields _ Hdir). cbn [bind].
            eexists. split; [reflexivity|]. intros p' [= <-].
            eexists. split; [reflexivity|].
            intros k v Hkv.
            apply In_set in Hkv as [[_ ->]|Hkv]; [rewrite (directive_fuel d Hdir); lia|].
            apply In_set in Hkv as [[_ ->]|Hkv]; [rewrite (directive_fuel d Hdir); lia|].
            apply In_delete in Hkv. eauto.
          - eexists. split; [reflexivity|]. discriminate. }
        destruct (Js.typeof_object (Obj.read s ps')) eqn:Hty.
        { assert (Hv : (fuel_for (Obj.read s ps') <= m)%nat).
          { destruct (read_bound ps' s m Hall) as [H|E]; [exact H|].
            rewrite E in Hty. discriminate. }
          destruct (IH (Obj.read s ps') fields (context_under ctx s) ltac:(lia))
            as (r & -> & Hq).
          destruct r as [q|e]; cbn [bind].
          - eexists. split; [reflexivity|]. intros p' [= <-].
            eexists. split; [reflexivity|].
            intros k v Hkv. apply In_set in Hkv as [[_ ->]|Hkv]; [|eauto].
            specialize (Hq q eq_refl). lia.
          - eexists. split; [reflexivity|]. discriminate. }
        destruct (allowed fields ctx s).
        -- eexists. split; [reflexivity|]. intros p' [= <-]. eauto.
        -- eexists. split; [reflexivity|]. intros p' [= <-].
           eexists. split; [reflexivity|].
           intros k v Hkv. apply In_delete in Hkv. eauto.
    + exists r. split; [exact Hr|]. intros q ->.
      destruct (Hbound q eq_refl) as (ps' & -> & Hall).
      cbn [fuel_for]. fold m.
      assert (list_max (map (fun kv : string * value => fuel_for (snd kv)) ps') <= m)%nat;
        [|lia].
      apply list_max_bound. intros x Hx.
      apply in_map_iff in Hx as ([k v] & <- & Hy). cbn [snd]. eauto.
Qed.

End CompilerEnds.

(** ** The compiler on examples *)

Section CompilerExamples.

#[local] Existing Instance sample_engine.
#[local] Existing Instance sample_store_engine.

Example split_example : Str.split "." "name.first" = ["name"; "first"].
Proof. reflexivity. Qed.

Example compile_example :
  buildQueryFromParams
    (VObj [("name", VObj [("first", VStr "Jo"); ("bogus", VStr "x")]); ("other", VStr "y")])
    ["name.first"; "name.last"; "email"] ""
  = Some (Returns (VObj [("name", VObj [("first", VStr "Jo")])])).
Proof. reflexivity. Qed.

Example compile_arraylike :
  buildQueryFromParams (VObj [("length", VNum (Int 2)); ("evil", VStr "x")]) [] ""
  = Some (Returns (VObj [("length", VNum (Int 2)); ("evil", VStr "x");
                         ("0", VUndefined); ("1", VUndefined)])).
Proof. reflexivity. Qed.

End CompilerExamples.

Section CompilerExamplesFacts.

Context {engine : RegExpEngine} {store_engine : Store.StoreEngine}.

Lemma strip_modifier (k m : string) :
  Str.split "." m = [m] -> strip (k ++ String "." m) = k.
Proof.
  intros Hm. unfold strip. rewrite split_on_app, Hm, removelast_last.
  apply join_split.
Qed.

Lemma compile_contains_string (W : list string) (k s context : string) :
  buildQueryFromParams (VObj [((k ++ ".contains")%string, VStr s)]) W context
  = if regexp_accepts (VStr (escapeRegExp s)) ""
    then Some (Returns (VObj [(k, regex_directive (VStr (escapeRegExp s)) "")]))
    else Some (Throws SyntaxError).
Proof.
  assert (Hlast : List.last (Str.split "." (k ++ ".contains")) "" = "contains")
    by (apply has_modifier_suffix; reflexivity).
  unfold buildQueryFromParams.
  change (fuel_for (VObj [((k ++ ".contains")%string, VStr s)])) with 3%nat.
  rewrite buildQueryFromParams_fuel_S. cbn [Js.isObject negb each_keys].
  unfold array_length. cbn [Obj.get].
  rewrite (key_is_not_length _ "contains" Hlast) by discriminate.
  cbn [Obj.keys map fst each].
  rewrite iteratee_name. unfold has_modifier. rewrite Hlast.
  change (Str.mem "contains" fieldModifiers) with true. cbv iota.
  unfold Obj.read. cbn [Obj.get]. rewrite String.eqb_refl.
  cbn [processModifier String.eqb Ascii.eqb Bool.eqb]. unfold new_directive.
  destruct (regexp_accepts (VStr (escapeRegExp s)) ""); [|reflexivity].
  rewrite compile_directive by (eexists _, _; reflexivity).
  cbn [bind Obj.delete]. rewrite String.eqb_refl.
  rewrite (strip_modifier k "contains") by reflexivity.
  cbn [Obj.set]. rewrite String.eqb_refl. reflexivity.
Qed.

End CompilerExamplesFacts.

Section CompilerExamples2.

#[local] Existing Instance sample_engine.
#[local] Existing Instance sample_store_engine.

(** C2, as stated, fails: "email" is not whitelisted, and the compiled
    query is not empty. *)
Lemma contains_bypasses_whitelist :
  ~ In "email" ([] : list string)
  /\ buildQueryFromParams (VObj [("email.contains", VStr "x")]) [] ""
     = Some (Returns (VObj [("email", VObj [("$regex", VRegExp (VStr "x") "")])])).
Proof. split; [intros []|reflexivity]. Qed.

End CompilerExamples2.

Section CompilerExamplesFacts2.

Context {engine : RegExpEngine} {store_engine : Store.StoreEngine}.

(** C2, amended.  Whatever the whitelist, [{"email.contains": "x"}]
    compiles to [{"email": {"$regex": /x/}}]; and so for every field
    name other than [__proto__] and every string, with the pattern
    that escapes the string (which the engine accepts).  The directive a
    modifier produces is an object, and an object-valued key is never
    looked up in the whitelist. *)
Theorem contains_ignores_whitelist (W : list string) (field s context : string) :
  field <> "__proto__" ->
  regexp_accepts (VStr (escapeRegExp s)) "" = true ->
  buildQueryFromParams (VObj [((field ++ ".contains")%string, VStr s)]) W context
  = Some (Returns (VObj [(field, VObj [("$regex", VRegExp (VStr (escapeRegExp s)) "")])])).
Proof.
  intros _ Hs. rewrite compile_contains_string, Hs. reflexivity.
Qed.

End CompilerExamplesFacts2.

Section CompilerExamples3.

#[local] Existing Instance sample_engine.
#[local] Existing Instance sample_store_engine.

Lemma contains_ignores_whitelist_witness :
  "email" <> "__proto__"
  /\ regexp_accepts (VStr (escapeRegExp "x")) "" = true
  /\ buildQueryFromParams (VObj [("email.contains", VStr "x")]) ["name"] ""
     = Some (Returns (VObj [("email", VObj [("$regex", VRegExp (VStr "x") "")])])).
Proof.
  assert (H : "email" <> "__proto__") by discriminate.
  split; [exact H|]. split; [reflexivity|].
  exact (contains_ignores_whitelist ["name"] "email" "x" "" H eq_refl).
Defined.

End CompilerExamples3.

(** ** Pagination meta *)

Section PaginationMeta.

Context {engine : RegExpEngine} {store_engine : Store.StoreEngine}.

Lemma ceil_div_spec (count l : Z) :
  (0 < l)%Z ->
  exists q, Num.ceil_div (Int count) (Int l) = Int q
            /\ ((q - 1) * l < count <= q * l)%Z.
Proof.
  intros Hl. unfold Num.ceil_div.
  destruct (Z.eqb_spec l 0) as [->|_]; [lia|].
  eexists; split; [reflexivity|].
  pose proof (Z.div_mod (- count) l ltac:(lia)) as Hdm.
  pose proof (Z.mod_pos_bound (- count) l Hl) as Hb.
  nia.
Qed.

Lemma set_nonempty {V} (k : string) (v : V) (ps : list (string * V)) :
  Obj.set k v ps <> [].
Proof.
  destruct ps as [|[k' v'] ps]; cbn [Obj.set]; [discriminate|].
  destruct (String.eqb k k'); discriminate.
Qed.

Lemma link_to_present stringify path (ps : props) n :
  Meta.present path (Meta.link_to stringify path (Meta.with_page ps n)).
Proof.
  unfold Meta.present, Meta.link_to, Meta.no_link.
  destruct (Meta.has_path path) eqn:Hp.
  - destruct path as [[|a s]|]; simpl in Hp; try discriminate Hp.
    intros H. injection H as H. revert H. apply append_nonempty. discriminate.
  - intros H. injection H as H. revert H. apply set_nonempty.
Qed.

Lemma no_link_absent path : ~ Meta.present path (Meta.no_link path).
Proof. intros H. apply H. reflexivity. Qed.

Lemma gt_spec (a b : number) :
  Num.gt a b = true <-> exists x y, a = Int x /\ b = Int y /\ (y < x)%Z.
Proof.
  split.
  - destruct a as [|x], b as [|y]; cbn [Num.gt]; try discriminate.
    intros H. apply Z.ltb_lt in H. eauto.
  - intros (x & y & -> & -> & H). apply Z.ltb_lt. exact H.
Qed.

(** C4.  When the count succeeds with [count] documents, a safe
    integer: the page count is [ceil(count / limit)] when [count > 0]
    and [limit > 0] (the integer [q] with
    [(q - 1) * limit < count <= q * limit]) and 1 otherwise; the first
    and last links are present; the prev link is present iff
    [page > 1]; the next link is present iff [limit > 0] and
    [count > page * limit].  A limit or a page that is not a number
    satisfies none of the comparisons. *)
Theorem buildResultsMeta_pages_and_links
    (parseInt : value -> number) (stringify : props -> string)
    (queryLimit queryOffset : value) (crud_count : value -> settled Z value)
    (path : option string) (params : props) (query : value) (count : Z) :
  (0 <= count)%Z -> Num.safe count ->
  crud_count query = Fulfilled count ->
  let limit := parseInt (Js.or_else (Obj.read "limit" params) queryLimit) in
  let page := parseInt (Js.or_else (Obj.read "page" params) (VNum (Int 1))) in
  exists m,
    Meta.buildResultsMeta parseInt stringify queryLimit queryOffset crud_count
      path params query = Fulfilled m
    /\ (forall l, limit = Int l -> (0 < count)%Z -> (0 < l)%Z ->
        exists q, Meta.pages m = Int q /\ ((q - 1) * l < count <= q * l)%Z)
    /\ (count = 0%Z \/ (forall l, limit = Int l -> (l <= 0)%Z) -> Meta.pages m = Int 1)
    /\ Meta.present path (Meta.first (Meta.meta_links m))
    /\ Meta.present path (Meta.last (Meta.meta_links m))
    /\ (Meta.present path (Meta.prev (Meta.meta_links m))
        <-> exists p, page = Int p /\ (1 < p)%Z)
    /\ (Meta.present path (Meta.next (Meta.meta_links m))
        <-> exists l p, limit = Int l /\ page = Int p /\ (0 < l)%Z /\ (p * l < count)%Z).
Proof.
  intros Hcount _ Hq limit page.
  unfold Meta.buildResultsMeta. rewrite Hq. unfold then_.
  fold limit. fold page.
  assert (Htruthy : Num.truthy (Int count) = (0 <? count)%Z).
  { unfold Num.truthy.
    destruct (Z.eqb_spec count 0), (Z.ltb_spec 0 count); simpl; lia. }
  rewrite Htruthy.
  eexists. split; [reflexivity|].
  cbn [Meta.pages Meta.meta_links Meta.first Meta.prev Meta.next Meta.last].
  split.
  { intros l Hl Hc Hlpos. rewrite Hl.
    assert ((0 <? count)%Z = true) as -> by (apply Z.ltb_lt; lia).
    assert (Num.gt (Int l) (Int 0) = true) as -> by (apply Z.ltb_lt; lia).
    cbn [andb]. apply ceil_div_spec. exact Hlpos. }
  split.
  { intros [->|Hl]; [reflexivity|].
    destruct (Num.gt limit (Int 0)) eqn:Hg; [|rewrite andb_false_r; reflexivity].
    apply gt_spec in Hg as (x & y & Hx & [= <-] & Hlt). specialize (Hl x Hx). lia. }
  split; [apply link_to_present|].
  split; [apply link_to_present|].
  split.
  - destruct (Num.gt page (Int 1)) eqn:Hg.
    + split; [|intros _; apply link_to_present].
      intros _. apply gt_spec in Hg as (x & y & Hx & [= <-] & Hlt). eauto.
    + split; [intros H; destruct (no_link_absent _ H)|].
      intros (x & Hx & Hlt).
      assert (Num.gt page (Int 1) = true) by (apply gt_spec; eauto).
      congruence.
  - destruct (Num.gt limit (Int 0) && Num.gt (Int count) (Num.mul page limit)) eqn:Hg.
    + split; [|intros _; apply link_to_present].
      intros _. apply andb_true_iff in Hg as [Hl Hc].
      apply gt_spec in Hl as (l & y & Hl & [= <-] & Hlpos).
      apply gt_spec in Hc as (c & y & [= <-] & Hm & Hlt).
      rewrite Hl in Hm. destruct page as [|x]; [discriminate Hm|].
      injection Hm as <-. exists l, x. auto.
    + split; [intros H; destruct (no_link_absent _ H)|].
      intros (l & x & Hl & Hx & Hlpos & Hlt).
      assert (Num.gt limit (Int 0) && Num.gt (Int count) (Num.mul page limit) = true);
        [|congruence].
      rewrite Hl, Hx. apply andb_true_iff.
      split; apply Z.ltb_lt; [exact Hlpos|exact Hlt].
Qed.

End PaginationMeta.

Section PaginationMetaExamples.

#[local] Existing Instance sample_engine.
#[local] Existing Instance sample_store_engine.

Lemma buildResultsMeta_pages_and_links_witness :
  (0 <= 25)%Z /\ Num.safe 25
  /\ exists m,
      Meta.buildResultsMeta parseInt_of_number (fun _ => "") (VNum (Int 0)) (VNum (Int 0))
        (fun _ => Fulfilled 25%Z) None
        [("limit", VNum (Int 10)); ("page", VNum (Int 2))] (VObj []) = Fulfilled m
      /\ Meta.pages m = Int 3
      /\ Meta.present None (Meta.next (Meta.meta_links m)).
Proof.
  assert (Hs : Num.safe 25) by (unfold Num.safe, Num.max_safe; lia).
  split; [lia|]. split; [exact Hs|].
  destruct (buildResultsMeta_pages_and_links parseInt_of_number (fun _ => "")
              (VNum (Int 0)) (VNum (Int 0)) (fun _ => Fulfilled 25%Z) None
              [("limit", VNum (Int 10)); ("page", VNum (Int 2))] (VObj []) 25%Z
              ltac:(lia) Hs eq_refl) as (m & Hm & Hp & _ & _ & _ & _ & Hn).
  exists m. split; [exact Hm|]. split.
  - destruct (Hp 10%Z eq_refl ltac:(lia) ltac:(lia)) as (q & Hq & Hb).
    rewrite Hq. f_equal. lia.
  - apply Hn. exists 10%Z, 2%Z. repeat split; lia.
Defined.

Example next_link_25_10 :
  forall page,
    exists m,
      Meta.buildResultsMeta parseInt_of_number (fun _ => "") (VNum (Int 0)) (VNum (Int 0))
        (fun _ => Fulfilled 25%Z) None
        [("limit", VNum (Int 10)); ("page", VNum (Int page))] (VObj []) = Fulfilled m
      /\ (page = 2%Z -> Meta.present None (Meta.next (Meta.meta_links m)))
      /\ (page = 3%Z -> ~ Meta.present None (Meta.next (Meta.meta_links m))).
Proof.
  intros page. eexists. split; [reflexivity|]. split; intros ->.
  - discriminate.
  - intros H. apply H. reflexivity.
Qed.

End PaginationMetaExamples.

Section PaginationMeta2.

Context {engine : RegExpEngine} {store_engine : Store.StoreEngine}.

(** C5.  The builder never rejects.  When the count fails, the promise
    is still fulfilled: [documents] holds the error, [pages] is still 0
    and the next and last links are still the placeholders. *)
Theorem buildResultsMeta_count_failure
    (parseInt : value -> number) (stringify : props -> string)
    (queryLimit queryOffset : value) (crud_count : value -> settled Z value)
    (path : option string) (params : props) (query : value) :
  (exists m,
      Meta.buildResultsMeta parseInt stringify queryLimit queryOffset crud_count
        path params query = Fulfilled m)
  /\ forall error,
      crud_count query = Rejected error ->
      exists m,
        Meta.buildResultsMeta parseInt stringify queryLimit queryOffset crud_count
          path params query = Fulfilled m
        /\ Meta.documents m = error
        /\ Meta.pages m = Int 0
        /\ Meta.next (Meta.meta_links m) = Meta.no_link path
        /\ Meta.last (Meta.meta_links m) = Meta.no_link path.
Proof.
  split.
  - unfold Meta.buildResultsMeta. destruct (crud_count query); simpl; eauto.
  - intros error H. unfold Meta.buildResultsMeta. rewrite H. simpl.
    eexists. split; [reflexivity|]. simpl. auto.
Qed.

End PaginationMeta2.

Section PaginationMetaExamples2.

#[local] Existing Instance sample_engine.
#[local] Existing Instance sample_store_engine.

Lemma buildResultsMeta_count_failure_witness :
  exists m,
    Meta.buildResultsMeta parseInt_of_number (fun _ => "") (VNum (Int 0)) (VNum (Int 0))
      (fun _ => Rejected (VStr "down")) (Some "/api/samples")
      [("page", VNum (Int 2))] (VObj []) = Fulfilled m
    /\ Meta.documents m = VStr "down"
    /\ Meta.pages m = Int 0
    /\ Meta.next (Meta.meta_links m) = Meta.no_link (Some "/api/samples")
    /\ Meta.last (Meta.meta_links m) = Meta.no_link (Some "/api/samples").
Proof.
  exact (proj2 (buildResultsMeta_count_failure parseInt_of_number (fun _ => "")
                  (VNum (Int 0)) (VNum (Int 0)) (fun _ => Rejected (VStr "down"))
                  (Some "/api/samples") [("page", VNum (Int 2))] (VObj []))
               (VStr "down") eq_refl).
Defined.

End PaginationMetaExamples2.

(** ** Socket channels *)

Section SocketChannels.

Context {engine : RegExpEngine} {store_engine : Store.StoreEngine}.

Lemma event_injective (collection a b : string) :
  Sockets.event collection a = Sockets.event collection b -> a = b.
Proof.
  unfold Sockets.event. intros H.
  apply append_inv_head in H. apply append_inv_head in H.
  apply append_inv_head in H. exact H.
Qed.

(** The handlers of save, find and update answer on the channels of
    their own verb. *)
Lemma handler_channels_own_verb (v : Sockets.verb) collection r meta :
  v <> Sockets.Delete ->
  map Sockets.channel (Sockets.handler v collection r meta) =
  [Sockets.event collection
     (Sockets.verb_name v ++ match r with Fulfilled _ => ".response" | Rejected _ => ".error" end)].
Proof.
  intros Hv. destruct v, r; try contradiction; simpl; try reflexivity.
  unfold Sockets.updateDocument. simpl. destruct (Js.truthy a); reflexivity.
Qed.

(** C7, at the delete handler.  Whether the removal succeeds or fails,
    the handler bound to [api.{collection}.delete] emits once, on
    [api.{collection}.update.response]: neither on
    [api.{collection}.delete.response] nor on
    [api.{collection}.delete.error]. *)
Theorem deleteDocuments_emits_on_update_channel (collection : string)
    (r : settled value value) (meta : value) :
  map Sockets.channel (Sockets.handler Sockets.Delete collection r meta)
  = [Sockets.event collection "update.response"]
  /\ Sockets.event collection "update.response"
     <> Sockets.event collection "delete.response"
  /\ Sockets.event collection "update.response"
     <> Sockets.event collection "delete.error".
Proof.
  split; [destruct r; reflexivity|].
  split; intros H; apply event_injective in H; discriminate.
Qed.

End SocketChannels.

(** ** The shared configuration *)

Section SharedConfiguration.

Context {engine : RegExpEngine} {store_engine : Store.StoreEngine}.

(** C9.  A bind call merges its overrides into the module-level
    configuration itself: a setting overridden by one bind call is still
    in effect for the next bind call that does not override it. *)
Theorem override_outlives_bind_call (setting : Type) (b1 b2 : Config.binder)
    (exports_config overrides1 : gmap string setting)
    (overrides2 : option (gmap string setting)) (k : string) (v : setting) :
  overrides1 !! k = Some v ->
  default ∅ overrides2 !! k = None ->
  let '(exports_config1, _) := Config.serve setting b1 exports_config (Some overrides1) in
  let '(_, config2) := Config.serve setting b2 exports_config1 overrides2 in
  config2 !! k = Some v.
Proof.
  intros H1 H2. destruct b1, b2; simpl; unfold Config.extend;
    rewrite lookup_union_r by exact H2;
    apply lookup_union_Some_l; exact H1.
Qed.

End SharedConfiguration.

Section SharedConfigurationExamples.

#[local] Existing Instance sample_engine.
#[local] Existing Instance sample_store_engine.

Lemma override_outlives_bind_call_witness :
  ({["queryLimit" := 5%Z]} : gmap string Z) !! "queryLimit" = Some 5%Z
  /\ (let '(exports_config1, _) :=
        Config.serve Z Config.ServeRoutes {["queryLimit" := 0%Z]}
          (Some {["queryLimit" := 5%Z]}) in
      let '(_, config2) := Config.serve Z Config.ServeSockets exports_config1 None in
      config2 !! "queryLimit" = Some 5%Z).
Proof.
  split; [reflexivity|].
  exact (override_outlives_bind_call Z Config.ServeRoutes Config.ServeSockets
           {["queryLimit" := 0%Z]} {["queryLimit" := 5%Z]} None "queryLimit" 5%Z
           eq_refl eq_refl).
Defined.

End SharedConfigurationExamples.

(** ** Modifiers on values that are not strings *)

Section ModifiersValuesAreNotStrings.

Context {engine : RegExpEngine} {store_engine : Store.StoreEngine}.







Lemma same_kind_not_string v r :
  same_kind v r -> Js.typeof_object v = true -> forall s, r <> VStr s.
Proof.
  intros Hk Hv s ->. apply same_kind_typeof in Hk. rewrite Hv in Hk. discriminate.
Qed.


End ModifiersValuesAreNotStrings.

Section ModifiersValuesAreNotStringsExamples.

#[local] Existing Instance sample_engine.
#[local] Existing Instance sample_store_engine.


Example bare_contains_throws :
  buildQueryFromParams (VObj [("contains", VBool true)]) [] "" = Some (Throws TypeError).
Proof. reflexivity. Qed.


End ModifiersValuesAreNotStringsExamples.

(** ** What compiling removes, and compiling twice *)

Section CompilingRemovesCompilingTwiceExamples.

#[local] Existing Instance sample_engine.
#[local] Existing Instance sample_store_engine.


End CompilingRemovesCompilingTwiceExamples.

Section CompilingRemovesCompilingTwice.

Context {engine : RegExpEngine} {store_engine : Store.StoreEngine}.

(** For every parameter set, whitelist and context the compiler ends,
    and what it returns is a compiled query. *)
Lemma compile_ends_compiled (params : value) (fields : list string) (context : string) :
  match buildQueryFromParams params fields context with
  | Some (Returns q) => compiled fields context q
  | Some (Throws _) => True
  | None => False
  end.
Proof.
  unfold buildQueryFromParams.
  destruct (compile_total (fuel_for params) params fields context (le_n _))
    as (r & Hr & _).
  rewrite Hr. destruct r as [q|e]; [|exact I].
  exact (compile_compiled _ _ _ _ _ Hr).
Qed.

End CompilingRemovesCompilingTwice.

Section CompilingRemovesCompilingTwiceExamples2.

#[local] Existing Instance sample_engine.
#[local] Existing Instance sample_store_engine.

(** C3, as stated, fails: the output of a first compilation still has a
    key that ends in a modifier, and compiling it again throws. *)
Lemma second_compilation_throws :
  buildQueryFromParams (VObj [("a.contains.contains", VStr "x")]) [] ""
  = Some (Returns (VObj [("a.contains", regex_directive (VStr "x") "")]))
  /\ buildQueryFromParams (VObj [("a.contains", regex_directive (VStr "x") "")]) [] ""
     = Some (Throws TypeError).
Proof. split; reflexivity. Qed.

End CompilingRemovesCompilingTwiceExamples2.

Section CompilingRemovesCompilingTwice2.

Context {engine : RegExpEngine} {store_engine : Store.StoreEngine}.

Lemma names_all_In test ps k v :
  names_all test (VObj ps) = true -> In (k, v) ps ->
  test k = true /\ names_all test v = true.
Proof.
  cbn [names_all]. intros H Hin.
  rewrite forallb_forall in H. specialize (H _ Hin). cbn [fst snd] in H.
  apply andb_true_iff in H. exact H.
Qed.

Lemma names_all_elem test xs x :
  names_all test (VArr xs) = true -> In x xs -> names_all test x = true.
Proof. cbn [names_all]. intros H Hin. rewrite forallb_forall in H. exact (H _ Hin). Qed.

Lemma modifier_free_In ps k v :
  modifier_free (VObj ps) = true -> Obj.get k ps = Some v ->
  has_modifier k = false /\ modifier_free v = true.
Proof.
  intros H Hget. apply get_Some_In in Hget.
  destruct (names_all_In _ _ _ _ H Hget) as [Hk Hv].
  split; [apply negb_true_iff; exact Hk|exact Hv].
Qed.

(** The loop returns the object as it is when each call of the
    iteratee does. *)
Lemma each_returns_same f ks p :
  (forall k, In k ks -> f k p = Some (Returns p)) -> each f ks p = Some (Returns p).
Proof.
  induction ks as [|k ks IH]; intros H; cbn [each]; [reflexivity|].
  rewrite (H k (or_introl eq_refl)). cbn [bind]. apply IH.
  intros k' Hk'. apply H. right. exact Hk'.
Qed.

Lemma fuel_for_elem xs x : In x xs -> (fuel_for x < fuel_for (VArr xs))%nat.
Proof.
  intros Hin. apply (in_map fuel_for) in Hin. apply list_max_In in Hin.
  cbn [fuel_for]. lia.
Qed.

Lemma fuel_for_prop ps k v : In (k, v) ps -> (fuel_for v < fuel_for (VObj ps))%nat.
Proof.
  intros Hin. apply (in_map (fun kv : string * value => fuel_for (snd kv))) in Hin.
  apply list_max_In in Hin. cbn [fuel_for snd] in *. lia.
Qed.

(** A compiled query none of whose names ends in a modifier compiles,
    in the same context, to itself. *)
Lemma compiled_returns fuel : forall q fields ctx,
  compiled fields ctx q -> modifier_free q = true -> (fuel_for q <= fuel)%nat ->
  buildQueryFromParams_fuel fuel q fields ctx = Some (Returns q).
Proof.
  induction fuel as [|fuel IH]; intros q fields ctx Hq Hfree Hfuel.
  { pose proof (fuel_for_pos q). lia. }
  rewrite buildQueryFromParams_fuel_S.
  inversion Hq as [? v Hv|? pattern flags|? xs Hxs|? ps n Hlen Hsome Hall
                  |? ps Hlen Hobj Hsca Hmod]; subst.
  - rewrite Hv. reflexivity.
  - reflexivity.
  - cbn [Js.isObject negb each_keys]. apply each_returns_same.
    intros k Hk. apply each_keys_index in Hk as (i & -> & Hi).
    rewrite iteratee_index. cbn [Params.read Params.write].
    assert (Hin : In (nth i xs VUndefined) xs) by (apply nth_In; exact Hi).
    rewrite IH; [|apply Hxs; exact Hin|exact (names_all_elem _ _ _ Hfree Hin)|].
    + cbn [bind]. rewrite array_set_same by exact Hi. reflexivity.
    + pose proof (fuel_for_elem _ _ Hin). lia.
  - cbn [Js.isObject negb each_keys]. rewrite Hlen. apply each_returns_same.
    intros k Hk. apply each_keys_index in Hk as (i & -> & Hi).
    rewrite iteratee_index. cbn [Params.read Params.write Params.name].
    specialize (Hsome i Hi). unfold Obj.read.
    destruct (Obj.get (Str.of_nat i) ps) as [v|] eqn:Hget; [|contradiction].
    pose proof (Hall i Hi) as Hc. rewrite (read_get _ _ _ Hget) in Hc.
    rewrite IH; [|exact Hc|exact (proj2 (modifier_free_In _ _ _ Hfree Hget))|].
    + cbn [bind]. rewrite (set_same _ _ _ Hget). reflexivity.
    + pose proof (fuel_for_prop _ _ _ (get_Some_In _ _ _ Hget)). lia.
  - cbn [Js.isObject negb each_keys]. rewrite Hlen. apply each_returns_same.
    intros k Hk. apply each_keys_name in Hk as (s & -> & Hs).
    apply key_get_Some in Hs as (v & Hget).
    rewrite iteratee_name. rewrite (read_get _ _ _ Hget).
    destruct (modifier_free_In _ _ _ Hfree Hget) as [-> Hv].
    destruct (Js.typeof_object v) eqn:Hty.
    + rewrite IH; [|exact (Hobj s v Hget Hty)|exact Hv|].
      * cbn [bind]. rewrite (set_same _ _ _ Hget). reflexivity.
      * pose proof (fuel_for_prop _ _ _ (get_Some_In _ _ _ Hget)). lia.
    + rewrite (Hsca s v Hget Hty). reflexivity.
Qed.

(** C3, amended.  Compiling the output of a compilation again, with the
    same whitelist and context, gives that output back unchanged
    whenever no name of the output, at any depth, ends in a modifier;
    the parameter set is one that never makes the compiler assign to
    [__proto__]. *)
Theorem compile_twice (p : value) (W : list string) (context : string) (q : value) :
  proto_free p = true ->
  buildQueryFromParams p W context = Some (Returns q) ->
  modifier_free q = true ->
  buildQueryFromParams q W context = Some (Returns q).
Proof.
  unfold buildQueryFromParams. intros _ Hp Hfree.
  apply compile_compiled in Hp.
  exact (compiled_returns _ _ _ _ Hp Hfree (le_n _)).
Qed.

End CompilingRemovesCompilingTwice2.

Section CompilingRemovesCompilingTwiceExamples3.

#[local] Existing Instance sample_engine.
#[local] Existing Instance sample_store_engine.

Lemma compile_twice_witness :
  proto_free (VObj [("name", VObj [("first", VStr "Jo"); ("bogus", VStr "x")]);
                    ("email.contains", VStr "x")]) = true
  /\ buildQueryFromParams
       (VObj [("name", VObj [("first", VStr "Jo"); ("bogus", VStr "x")]);
              ("email.contains", VStr "x")])
       ["name.first"; "name.last"; "email"] ""
     = Some (Returns (VObj [("name", VObj [("first", VStr "Jo")]);
                            ("email", regex_directive (VStr "x") "")]))
  /\ modifier_free (VObj [("name", VObj [("first", VStr "Jo")]);
                          ("email", regex_directive (VStr "x") "")]) = true
  /\ buildQueryFromParams
       (VObj [("name", VObj [("first", VStr "Jo")]);
              ("email", regex_directive (VStr "x") "")])
       ["name.first"; "name.last"; "email"] ""
     = Some (Returns (VObj [("name", VObj [("first", VStr "Jo")]);
                            ("email", regex_directive (VStr "x") "")])).
Proof.
  split; [reflexivity|]. split; [reflexivity|]. split; [reflexivity|].
  exact (compile_twice
           (VObj [("name", VObj [("first", VStr "Jo"); ("bogus", VStr "x")]);
                  ("email.contains", VStr "x")])
           ["name.first"; "name.last"; "email"] "" _ eq_refl eq_refl eq_refl).
Defined.

End CompilingRemovesCompilingTwiceExamples3.

(** ** The compiler on the store *)

Module StoreFacts.
Import Store.

Section CompilerStore.

Context {engine : RegExpEngine} {store_engine : Store.StoreEngine}.

Lemma store_bind_Some {A B} (m : option (result A)) (k : store -> A -> option (result B)) r :
  Store.bind m k = Some r ->
  (exists σ e, m = Some (Thr σ e) /\ r = Thr σ e)
  \/ (exists σ a, m = Some (Ret σ a) /\ k σ a = Some r).
Proof.
  destruct m as [[σ a|σ e]|]; cbn [Store.bind]; [eauto|intros [= <-]; eauto|discriminate].
Qed.

(** A property of the store that each call of the iteratee keeps
    holds when the loop ends. *)
Lemma store_each_invariant (J : store -> Prop) f ks σ r :
  J σ ->
  (forall k σ r, J σ -> f σ k = Some r -> J (store_of r)) ->
  Store.each f ks σ = Some r -> J (store_of r).
Proof.
  intros HJ Hstep. revert σ HJ.
  induction ks as [|k ks IH]; intros σ HJ; cbn [Store.each].
  - intros [= <-]. exact HJ.
  - intros H. apply store_bind_Some in H as [(σ' & e & Hf & ->)|(σ' & [] & Hf & H)].
    + exact (Hstep _ _ _ HJ Hf).
    + apply (IH σ'); [|exact H]. exact (Hstep _ _ _ HJ Hf).
Qed.

(** The compiler returns the very value it was given. *)
Lemma compile_returns_params fuel σ params fields ctx σ' v :
  Store.buildQueryFromParams_fuel fuel σ params fields ctx = Some (Ret σ' v) ->
  v = params.
Proof.
  destruct fuel as [|fuel]; [discriminate|]. cbn [Store.buildQueryFromParams_fuel].
  destruct (negb (Store.isObject params)); [intros [= _ <-]; reflexivity|].
  intros H. apply store_bind_Some in H as [(? & ? & _ & [=])|(σ1 & [] & _ & [= _ <-])].
  reflexivity.
Qed.

End CompilerStore.

(** *** Objects nothing refers to *)

Section ObjectsNothingRefers.

Context {engine : RegExpEngine} {store_engine : Store.StoreEngine}.

Lemma unreferenced_insert σ l l0 c :
  unreferenced σ l -> ~ refers c l -> unreferenced (<[l0 := c]> σ) l.
Proof.
  intros Hσ Hc l' c'.
  destruct (decide (l0 = l')) as [->|Hne].
  - rewrite lookup_insert_eq. intros [= <-]. exact Hc.
  - rewrite lookup_insert_ne by exact Hne. apply Hσ.
Qed.

Lemma In_store_array_set i v x xs :
  In x (Store.array_set i v xs) -> x = v \/ x = SUndefined \/ In x xs.
Proof.
  unfold Store.array_set. destruct (i <? length xs)%nat.
  - intros Hx. apply list_elem_of_In, list_elem_of_lookup in Hx as (j & Hj).
    destruct (decide (i = j)) as [<-|Hij].
    + apply list_lookup_insert_Some in Hj as [(_ & <- & _)|(Hne & _)]; [auto|congruence].
    + rewrite list_lookup_insert_ne in Hj by exact Hij.
      right. right. apply list_elem_of_In, list_elem_of_lookup. eauto.
  - intros Hx. apply in_app_or in Hx as [Hx|Hx]; [auto|].
    apply in_app_or in Hx as [Hx|[<-|[]]]; [|auto].
    apply repeat_spec in Hx. auto.
Qed.

Lemma read_refers σ k params l :
  Store.read σ k params = SRef l ->
  exists l0 c, params = SRef l0 /\ σ !! l0 = Some c /\ refers c l.
Proof.
  unfold Store.read. destruct params as [| | | | |l0]; try discriminate.
  destruct (σ !! l0) as [[ps|xs|p f]|] eqn:Hc; try discriminate.
  - destruct (Obj.get (Params.name k) ps) as [v|] eqn:Hget; [|discriminate].
    cbn. intros ->. exists l0, (CObj ps). split; [reflexivity|].
    split; [exact Hc|]. cbn [refers].
    apply get_Some_In in Hget. apply (in_map snd) in Hget. exact Hget.
  - destruct k as [i|s]; [|discriminate].
    intros H. exists l0, (CArr xs). split; [reflexivity|]. split; [exact Hc|].
    cbn [refers]. destruct (Nat.lt_ge_cases i (length xs)) as [Hi|Hi].
    + rewrite <- H. apply nth_In. exact Hi.
    + rewrite nth_overflow in H by exact Hi. discriminate.
Qed.

Lemma kept_write σ0 l σ k v params :
  is_Some (σ0 !! l) -> params <> SRef l -> v <> SRef l ->
  kept σ0 l σ -> kept σ0 l (Store.write σ k v params).
Proof.
  intros Hl Hp Hv [Heq Hun]. unfold Store.write.
  destruct params as [| | | | |l0]; try (split; assumption).
  assert (l0 <> l) as Hne by congruence.
  destruct (σ !! l0) as [[ps|xs|p f]|] eqn:Hc; try (split; assumption).
  - split; [rewrite lookup_insert_ne by exact Hne; exact Heq|].
    apply unreferenced_insert; [exact Hun|]. cbn [refers]. intros Hin.
    apply in_map_iff in Hin as ([k' v'] & Hv' & Hin). cbn [snd] in Hv'. subst v'.
    apply In_set in Hin as [[_ E]|Hin]; [congruence|].
    apply (Hun l0 _ Hc). cbn [refers]. apply in_map_iff. exists (k', SRef l). auto.
  - destruct k as [i|s]; [|split; assumption].
    split; [rewrite lookup_insert_ne by exact Hne; exact Heq|].
    apply unreferenced_insert; [exact Hun|]. cbn [refers]. intros Hin.
    apply In_store_array_set in Hin as [E|[E|Hin]]; [congruence|discriminate|].
    exact (Hun l0 _ Hc Hin).
Qed.

Lemma kept_delete σ0 l σ k params :
  params <> SRef l -> kept σ0 l σ -> kept σ0 l (Store.delete σ k params).
Proof.
  intros Hp [Heq Hun]. unfold Store.delete.
  destruct params as [| | | | |l0]; try (split; assumption).
  assert (l0 <> l) as Hne by congruence.
  destruct (σ !! l0) as [[ps|xs|p f]|] eqn:Hc; try (split; assumption).
  split; [rewrite lookup_insert_ne by exact Hne; exact Heq|].
  apply unreferenced_insert; [exact Hun|]. cbn [refers]. intros Hin.
  apply in_map_iff in Hin as ([k' v'] & Hv' & Hin). cbn [snd] in Hv'. subst v'.
  apply In_delete in Hin.
  apply (Hun l0 _ Hc). cbn [refers]. apply in_map_iff. exists (k', SRef l). auto.
Qed.

Lemma alloc_fresh σ c σ' v :
  Store.alloc σ c = (σ', v) ->
  exists l', v = SRef l' /\ σ !! l' = None /\ σ' = <[l' := c]> σ.
Proof.
  unfold Store.alloc. intros [= <- <-]. eexists. split; [reflexivity|].
  split; [|reflexivity]. apply not_elem_of_dom, is_fresh.
Qed.

Lemma kept_alloc σ0 l σ c σ' v :
  is_Some (σ0 !! l) -> ~ refers c l -> kept σ0 l σ ->
  Store.alloc σ c = (σ', v) -> kept σ0 l σ' /\ v <> SRef l.
Proof.
  intros [c0 Hl] Hc [Heq Hun] Ha.
  apply alloc_fresh in Ha as (l' & -> & Hfresh & ->).
  assert (l' <> l) as Hne by (intros ->; congruence).
  split; [|congruence]. split.
  - rewrite lookup_insert_ne by exact Hne. exact Heq.
  - apply unreferenced_insert; assumption.
Qed.

Lemma kept_regex_directive σ0 l σ pattern flags σ' d :
  is_Some (σ0 !! l) -> pattern <> SRef l -> kept σ0 l σ ->
  Store.regex_directive σ pattern flags = (σ', d) ->
  kept σ0 l σ' /\ d <> SRef l.
Proof.
  intros Hl Hp Hk. unfold Store.regex_directive.
  destruct (Store.alloc σ (CRegExp pattern flags)) as [σ1 re] eqn:H1.
  apply (kept_alloc σ0 l) in H1 as [Hk1 Hre]; [|exact Hl|exact Hp|exact Hk].
  intros H2.
  apply (kept_alloc σ0 l) in H2; [exact H2|exact Hl| |exact Hk1].
  cbn [refers map snd]. intros [E|[]]. congruence.
Qed.

Lemma kept_processModifier σ0 l σ m v r :
  is_Some (σ0 !! l) -> v <> SRef l -> kept σ0 l σ ->
  Store.processModifier σ m v = r ->
  kept σ0 l (store_of r) /\ forall σ' d, r = Ret σ' d -> d <> SRef l.
Proof.
  intros Hl Hv Hk. unfold Store.processModifier.
  assert (Hdir : forall pattern flags,
             pattern <> SRef l ->
             forall r, Store.new_directive σ pattern flags = r ->
             kept σ0 l (store_of r) /\ forall σ' d, r = Ret σ' d -> d <> SRef l).
  { intros pattern flags Hp r' <-. unfold Store.new_directive.
    destruct (Store.accepts σ pattern flags); [|split; [exact Hk|discriminate]].
    destruct (Store.regex_directive σ pattern flags) as [σ1 d] eqn:Hd.
    apply (kept_regex_directive σ0 l) in Hd as [Hk1 Hd]; [|assumption..].
    split; [exact Hk1|]. intros σ' d' [= _ <-]. exact Hd. }
  assert (Hthr : forall r, Thr σ TypeError = r ->
             kept σ0 l (store_of r) /\ forall σ' d, r = Ret σ' d -> d <> SRef l).
  { intros r' <-. split; [exact Hk|discriminate]. }
  destruct (String.eqb m "contains").
  { destruct v; try apply Hthr. apply Hdir. discriminate. }
  destruct (String.eqb m "regex").
  { destruct v as [| | | |s|l0]; try apply Hthr.
    - destruct (Str.starts_with "/" s); apply Hdir; [|discriminate].
      destruct (Str.split "/" s) as [|? [|? ?]]; discriminate.
    - destruct (σ !! l0) as [[ps|xs|p f]|]; try apply Hthr.
      destruct (Store.starts_with_slash xs); [apply Hthr|apply Hdir; exact Hv]. }
  intros <-. split; [exact Hk|]. intros σ' d [= _ <-]. exact Hv.
Qed.

Lemma kept_iteratee σ0 l recurse fields ctx params σ k r :
  is_Some (σ0 !! l) -> params <> SRef l ->
  (forall σ v c r, v <> SRef l -> kept σ0 l σ -> recurse σ v c = Some r ->
                   kept σ0 l (store_of r) /\ forall σ' v', r = Ret σ' v' -> v' = v) ->
  kept σ0 l σ ->
  Store.iteratee recurse fields ctx params σ k = Some r ->
  kept σ0 l (store_of r).
Proof.
  intros Hl Hp Hrec Hk. unfold Store.iteratee.
  assert (Hv : Store.read σ k params <> SRef l).
  { intros E. apply read_refers in E as (l0 & c & _ & Hc & Href).
    exact (proj2 Hk l0 c Hc Href). }
  set (v := Store.read σ k params) in *. clearbody v.
  assert (Hwrite : forall σ1 k1 v1 r1,
             v1 <> SRef l -> kept σ0 l σ1 ->
             forall c, Store.bind (recurse σ1 v1 c)
                         (fun σ r => Some (Ret (Store.write σ k1 r params) tt)) = Some r1 ->
             kept σ0 l (store_of r1)).
  { intros σ1 k1 v1 r1 Hv1 Hk1 c H.
    apply store_bind_Some in H as [(σ2 & e & Hr & ->)|(σ2 & v2 & Hr & [= <-])].
    - exact (proj1 (Hrec _ _ _ _ Hv1 Hk1 Hr)).
    - destruct (Hrec _ _ _ _ Hv1 Hk1 Hr) as [Hk2 Hsame].
      rewrite (Hsame _ _ eq_refl). cbn [store_of].
      apply kept_write; assumption. }
  intros H. apply store_bind_Some in H as [(σ1 & e & Hm & ->)|(σ1 & [k1 v1] & Hm & H)].
  - (* the modifier throws *)
    unfold Store.resolve_modifier in Hm. destruct k as [i|s]; [discriminate|].
    destruct (Str.mem _ fieldModifiers); [|discriminate].
    apply store_bind_Some in Hm as [(σ2 & e2 & [= Hm] & [= <-])|(σ2 & d & _ & [=])].
    apply (kept_processModifier σ0 l) in Hm as [Hm _]; [exact Hm|exact Hl|exact Hv|].
    apply kept_delete; assumption.
  - assert (Hk1 : kept σ0 l σ1 /\ v1 <> SRef l).
    { unfold Store.resolve_modifier in Hm. destruct k as [i|s].
      - injection Hm as <- <- <-. auto.
      - destruct (Str.mem _ fieldModifiers).
        + apply store_bind_Some in Hm as [(σ2 & e2 & _ & [=])|(σ2 & d & [= Hm] & [= <- <- <-])].
          apply (kept_processModifier σ0 l) in Hm as [Hm Hd];
            [|exact Hl|exact Hv|apply kept_delete; assumption].
          specialize (Hd _ _ eq_refl). split; [|exact Hd].
          apply kept_write; assumption.
        + injection Hm as <- <- <-. auto. }
    destruct Hk1 as [Hk1 Hv1]. destruct k1 as [i|s].
    + exact (Hwrite _ _ _ _ Hv1 Hk1 _ H).
    + destruct (Store.typeof_object v1).
      * destruct (Str.mem s queryOperatorIgnore); exact (Hwrite _ _ _ _ Hv1 Hk1 _ H).
      * destruct (negb _ && negb _); injection H as <-; cbn [store_of];
          [apply kept_delete; assumption|exact Hk1].
Qed.

(** The compiler leaves alone an object that nothing refers to and
    that is not the one it was given. *)
Lemma compile_frame σ0 l fuel : forall σ params fields ctx r,
  is_Some (σ0 !! l) -> params <> SRef l -> kept σ0 l σ ->
  Store.buildQueryFromParams_fuel fuel σ params fields ctx = Some r ->
  kept σ0 l (store_of r).
Proof.
  induction fuel as [|fuel IH]; intros σ params fields ctx r Hl Hp Hk; [discriminate|].
  cbn [Store.buildQueryFromParams_fuel].
  destruct (negb (Store.isObject params)); [intros [= <-]; exact Hk|].
  intros H. apply store_bind_Some in H as [(σ1 & e & He & ->)|(σ1 & [] & He & [= <-])];
    cbn [store_of];
    change σ1 with (store_of (Thr (A:=unit) σ1 e)) ||
    change σ1 with (store_of (Ret σ1 tt));
    (apply (store_each_invariant (kept σ0 l)) in He; [exact He|exact Hk|]);
    intros k σ2 r2 Hk2; apply kept_iteratee; try assumption;
    intros σ3 v c r3 Hv Hk3 Hr; (split; [exact (IH _ _ _ _ _ Hl Hv Hk3 Hr)|]);
    intros σ' v' ->; exact (compile_returns_params _ _ _ _ _ _ _ Hr).
Qed.

Lemma enumerable_unreferenced σ source l kv :
  unreferenced σ l -> In kv (Store.enumerable σ source) -> snd kv <> SRef l.
Proof.
  intros Hun. unfold Store.enumerable.
  destruct source as [| | | |s|l0]; try (intros []).
  - intros Hin. apply list_elem_of_In, elem_of_lookup_imap in Hin as (i & c & -> & _).
    discriminate.
  - destruct (σ !! l0) as [[ps|xs|p f]|] eqn:Hc; try (intros []).
    + intros Hin E. apply (Hun l0 _ Hc). cbn [refers]. rewrite <- E.
      apply in_map. exact Hin.
    + intros Hin E.
      apply list_elem_of_In, elem_of_lookup_imap in Hin as (i & x & -> & Hx).
      cbn [snd] in E. subst x. apply (Hun l0 _ Hc). cbn [refers].
      apply list_elem_of_In, list_elem_of_lookup. eauto.
Qed.

Lemma kept_extend σ0 l σ destination source :
  is_Some (σ0 !! l) -> destination <> SRef l -> kept σ0 l σ ->
  kept σ0 l (Store.extend σ destination source).
Proof.
  intros Hl Hd Hk. unfold Store.extend.
  pose proof (fun kv => enumerable_unreferenced σ source l kv (proj2 Hk)) as Hvals.
  revert Hvals. generalize (Store.enumerable σ source) as kvs.
  revert σ Hk. intros σ Hk kvs. revert σ Hk.
  induction kvs as [|kv kvs IH]; intros σ Hk Hvals; cbn [fold_left]; [exact Hk|].
  apply IH.
  - apply kept_write; [exact Hl|exact Hd| |exact Hk]. apply Hvals. left. reflexivity.
  - intros kv' Hin. apply Hvals. right. exact Hin.
Qed.

(** A handler that compiles [_.extend({}, params)] leaves the
    payload's own object as it was. *)
Lemma findDocuments_frame fuel σ l c fields r :
  σ !! l = Some c -> unreferenced σ l ->
  Store.findDocuments fuel σ (SRef l) fields = Some r ->
  store_of r !! l = Some c.
Proof.
  intros Hl Hun. unfold Store.findDocuments, Store.or_new_object.
  cbn [Store.truthy].
  destruct (Store.alloc σ (CObj [])) as [σ1 clone] eqn:Ha.
  assert (Hsome : is_Some (σ !! l)) by eauto.
  apply (kept_alloc σ l) in Ha as [Hk1 Hclone];
    [|exact Hsome|intros []|split; [reflexivity|exact Hun]].
  intros H. apply (compile_frame σ l) in H as [Heq _].
  - rewrite Heq. exact Hl.
  - exact Hsome.
  - exact Hclone.
  - apply kept_extend; assumption.
Qed.

End ObjectsNothingRefers.

(** *** Ranked stores: the compiler ends *)

Section RankedStoresCompilerEnds.

Context {engine : RegExpEngine} {store_engine : Store.StoreEngine}.

Lemma extends_refl ρ σ : extends ρ σ ρ σ.
Proof. intros l Hl. auto. Qed.

Lemma extends_trans ρ σ ρ1 σ1 ρ2 σ2 :
  extends ρ σ ρ1 σ1 -> extends ρ1 σ1 ρ2 σ2 -> extends ρ σ ρ2 σ2.
Proof.
  intros H1 H2 l Hl. destruct (H1 l Hl) as [E1 Hl1].
  destruct (H2 l Hl1) as [E2 Hl2]. split; [congruence|exact Hl2].
Qed.

Lemma below_extends ρ σ ρ' σ' n v :
  extends ρ σ ρ' σ' -> below ρ σ n v -> below ρ' σ' n v.
Proof.
  intros Hext [Hw Hl]. split.
  - destruct v; cbn [weight] in *; try exact Hw.
    destruct (Hext l (Hl l eq_refl)) as [-> _]. exact Hw.
  - intros l ->. exact (proj2 (Hext l (Hl l eq_refl))).
Qed.

Lemma ranked_cell_extends ρ σ ρ' σ' n c :
  extends ρ σ ρ' σ' -> ranked_cell ρ σ n c -> ranked_cell ρ' σ' n c.
Proof.
  intros Hext. destruct c as [ps|xs|p f]; cbn [ranked_cell]; [| |auto].
  - intros [Hn H]. split; [exact Hn|]. intros k v Hin.
    exact (below_extends _ _ _ _ _ _ Hext (H k v Hin)).
  - intros [Hn H]. split; [exact Hn|]. intros x Hin.
    exact (below_extends _ _ _ _ _ _ Hext (H x Hin)).
Qed.

Lemma ranked_cell_pos ρ σ n c : ranked_cell ρ σ n c -> (1 <= n)%nat.
Proof. destruct c; cbn [ranked_cell]; lia. Qed.

Lemma below_pos ρ σ n v : ranked ρ σ -> below ρ σ n v -> (1 <= weight ρ v)%nat.
Proof.
  intros Hr [_ Hl]. destruct v; cbn [weight]; try lia.
  destruct (Hl l eq_refl) as [c Hc]. exact (ranked_cell_pos _ _ _ _ (Hr l c Hc)).
Qed.

(** Replacing the content of an object by one just as ranked. *)
Lemma ranked_insert ρ σ l0 c :
  ranked ρ σ -> is_Some (σ !! l0) -> ranked_cell ρ σ (ρ l0) c ->
  ranked ρ (<[l0 := c]> σ) /\ extends ρ σ ρ (<[l0 := c]> σ).
Proof.
  intros Hr Hl0 Hc.
  assert (Hext : extends ρ σ ρ (<[l0 := c]> σ)).
  { intros l Hl. split; [reflexivity|].
    destruct (decide (l0 = l)) as [->|Hne].
    - rewrite lookup_insert_eq. eauto.
    - rewrite lookup_insert_ne by exact Hne. exact Hl. }
  split; [|exact Hext].
  intros l c'. destruct (decide (l0 = l)) as [->|Hne].
  - rewrite lookup_insert_eq. intros [= <-].
    exact (ranked_cell_extends _ _ _ _ _ _ Hext Hc).
  - rewrite lookup_insert_ne by exact Hne. intros Hl.
    exact (ranked_cell_extends _ _ _ _ _ _ Hext (Hr l c' Hl)).
Qed.

Lemma ranked_write ρ σ l0 k v :
  ranked ρ σ -> is_Some (σ !! l0) -> below ρ σ (ρ l0) v ->
  ranked ρ (Store.write σ k v (SRef l0))
  /\ extends ρ σ ρ (Store.write σ k v (SRef l0)).
Proof.
  intros Hr Hl0 Hv. unfold Store.write.
  destruct (σ !! l0) as [[ps|xs|p f]|] eqn:Hc; try (split; [exact Hr|apply extends_refl]).
  - apply ranked_insert; [exact Hr|eauto|].
    destruct (Hr l0 _ Hc) as [Hn Hall]. split; [exact Hn|].
    intros k' v' Hin. apply In_set in Hin as [[_ ->]|Hin]; [exact Hv|eauto].
  - destruct k as [i|s]; [|split; [exact Hr|apply extends_refl]].
    apply ranked_insert; [exact Hr|eauto|].
    destruct (Hr l0 _ Hc) as [Hn Hall]. split; [exact Hn|].
    intros x Hin. apply In_store_array_set in Hin as [->|[->|Hin]];
      [exact Hv| |auto].
    split; [cbn [weight]; lia|discriminate].
Qed.

Lemma ranked_delete ρ σ l0 k :
  ranked ρ σ ->
  ranked ρ (Store.delete σ k (SRef l0))
  /\ extends ρ σ ρ (Store.delete σ k (SRef l0)).
Proof.
  intros Hr. unfold Store.delete.
  destruct (σ !! l0) as [[ps|xs|p f]|] eqn:Hc; try (split; [exact Hr|apply extends_refl]).
  apply ranked_insert; [exact Hr|eauto|].
  destruct (Hr l0 _ Hc) as [Hn Hall]. split; [exact Hn|].
  intros k' v' Hin. apply In_delete in Hin. eauto.
Qed.

(** A new object holds only ranked values: it takes its rank, the
    others keep theirs. *)
Lemma ranked_alloc ρ σ c n σ' v :
  ranked ρ σ -> ranked_cell ρ σ n c ->
  Store.alloc σ c = (σ', v) ->
  exists ρ', ranked ρ' σ' /\ extends ρ σ ρ' σ'
             /\ weight ρ' v = n /\ (forall l, v = SRef l -> is_Some (σ' !! l))
             /\ Store.typeof_object v = true.
Proof.
  intros Hr Hc Ha. apply alloc_fresh in Ha as (l' & -> & Hfresh & ->).
  set (ρ' := fun l => if decide (l = l') then n else ρ l).
  assert (Hnew : ρ' l' = n) by (unfold ρ'; rewrite decide_True by reflexivity; reflexivity).
  assert (Hold : forall l, l <> l' -> ρ' l = ρ l)
    by (intros l Hne; unfold ρ'; rewrite decide_False by exact Hne; reflexivity).
  clearbody ρ'.
  assert (Hext : extends ρ σ ρ' (<[l' := c]> σ)).
  { intros l Hl.
    assert (l <> l') as Hne by (intros ->; rewrite Hfresh in Hl; destruct Hl; discriminate).
    rewrite (Hold l Hne). rewrite lookup_insert_ne by congruence. auto. }
  exists ρ'. split; [|split; [exact Hext|split; [|split; [|reflexivity]]]].
  - intros l c'. destruct (decide (l' = l)) as [<-|Hne].
    + rewrite lookup_insert_eq. intros [= <-]. rewrite Hnew.
      exact (ranked_cell_extends _ _ _ _ _ _ Hext Hc).
    + rewrite lookup_insert_ne by exact Hne. intros Hl.
      rewrite Hold by congruence.
      exact (ranked_cell_extends _ _ _ _ _ _ Hext (Hr l c' Hl)).
  - cbn [weight]. exact Hnew.
  - intros l [= <-]. rewrite lookup_insert_eq. eauto.
Qed.

Lemma ranked_regex_directive ρ σ pattern flags σ' d :
  ranked ρ σ ->
  Store.regex_directive σ pattern flags = (σ', d) ->
  exists ρ', ranked ρ' σ' /\ extends ρ σ ρ' σ'
             /\ weight ρ' d = 2%nat /\ (forall l, d = SRef l -> is_Some (σ' !! l))
             /\ Store.typeof_object d = true.
Proof.
  intros Hr. unfold Store.regex_directive.
  destruct (Store.alloc σ (CRegExp pattern flags)) as [σ1 re] eqn:H1.
  apply (ranked_alloc ρ σ _ 1%nat) in H1 as (ρ1 & Hr1 & Hext1 & Hw1 & Hre & _);
    [|exact Hr|cbn [ranked_cell]; lia].
  intros H2.
  apply (ranked_alloc ρ1 σ1 _ 2%nat) in H2 as (ρ2 & Hr2 & Hext2 & Hw2 & Hd & Hty);
    [|exact Hr1|].
  - exists ρ2. split; [exact Hr2|]. split; [|auto].
    exact (extends_trans _ _ _ _ _ _ Hext1 Hext2).
  - cbn [ranked_cell]. split; [lia|]. intros k v [[= _ <-]|[]].
    split; [lia|exact Hre].
Qed.

(** A modifier gives a directive in the place of a string or of an
    array, which weigh as much. *)
Lemma ranked_processModifier ρ σ n m v r :
  ranked ρ σ -> below ρ σ n v -> Str.mem m fieldModifiers = true ->
  Store.processModifier σ m v = r ->
  exists ρ', ranked ρ' (store_of r) /\ extends ρ σ ρ' (store_of r)
             /\ forall σ' d, r = Ret σ' d ->
                  below ρ' σ' n d /\ Store.typeof_object d = true.
Proof.
  intros Hr Hv Hm. unfold Store.processModifier.
  assert (Hdir : forall pattern flags,
             (2 < n)%nat ->
             forall r, Store.new_directive σ pattern flags = r ->
             exists ρ', ranked ρ' (store_of r) /\ extends ρ σ ρ' (store_of r)
                        /\ forall σ' d, r = Ret σ' d ->
                             below ρ' σ' n d /\ Store.typeof_object d = true).
  { intros pattern flags Hn r' <-. unfold Store.new_directive.
    destruct (Store.accepts σ pattern flags);
      [|exists ρ; split; [exact Hr|]; split; [apply extends_refl|discriminate]].
    destruct (Store.regex_directive σ pattern flags) as [σ1 d] eqn:Hd.
    apply (ranked_regex_directive ρ) in Hd as (ρ1 & Hr1 & Hext1 & Hw & Hl & Hty); [|exact Hr].
    exists ρ1. split; [exact Hr1|]. split; [exact Hext1|].
    intros σ' d' [= <- <-]. split; [|exact Hty]. split; [lia|exact Hl]. }
  assert (Hthr : forall r, Thr σ TypeError = r ->
             exists ρ', ranked ρ' (store_of r) /\ extends ρ σ ρ' (store_of r)
                        /\ forall σ' d, r = Ret σ' d ->
                             below ρ' σ' n d /\ Store.typeof_object d = true).
  { intros r' <-. exists ρ. split; [exact Hr|]. split; [apply extends_refl|discriminate]. }
  destruct (mem_fieldModifiers m Hm) as [-> | ->]; cbn [String.eqb Ascii.eqb Bool.eqb].
  - destruct v; try apply Hthr. apply Hdir. destruct Hv as [Hv _]. exact Hv.
  - destruct v as [| | | |s|l0]; try apply Hthr.
    + destruct Hv as [Hv _]. cbn [weight] in Hv.
      destruct (Str.starts_with "/" s); apply Hdir; exact Hv.
    + destruct (σ !! l0) as [[ps|xs|p f]|] eqn:Hc; try apply Hthr.
      destruct (Store.starts_with_slash xs); [apply Hthr|apply Hdir].
      destruct Hv as [Hv _]. cbn [weight] in Hv.
      pose proof (Hr l0 _ Hc) as [H2 _]. lia.
Qed.

Lemma read_below ρ σ l0 k :
  ranked ρ σ -> (2 <= ρ l0)%nat ->
  below ρ σ (ρ l0) (Store.read σ k (SRef l0)).
Proof.
  intros Hr H2.
  assert (Hundef : below ρ σ (ρ l0) SUndefined)
    by (split; [cbn [weight]; lia|discriminate]).
  unfold Store.read.
  destruct (σ !! l0) as [[ps|xs|p f]|] eqn:Hc; try exact Hundef.
  - destruct (Obj.get (Params.name k) ps) as [v|] eqn:Hget; [|exact Hundef].
    apply get_Some_In in Hget. exact (proj2 (Hr l0 _ Hc) _ _ Hget).
  - destruct k as [i|s]; [|exact Hundef].
    destruct (Nat.lt_ge_cases i (length xs)) as [Hi|Hi].
    + exact (proj2 (Hr l0 _ Hc) _ (nth_In _ _ Hi)).
    + rewrite nth_overflow by exact Hi. exact Hundef.
Qed.

(** An object with a key to visit holds something, or is an array. *)
Lemma each_keys_rank ρ σ l0 k :
  ranked ρ σ -> In k (Store.each_keys σ (SRef l0)) -> (2 <= ρ l0)%nat.
Proof.
  intros Hr. unfold Store.each_keys.
  destruct (σ !! l0) as [[ps|xs|p f]|] eqn:Hc; try (intros []).
  - destruct (Hr l0 _ Hc) as [_ Hall].
    assert (Hentry : forall k' v', In (k', v') ps -> (2 <= ρ l0)%nat).
    { intros k' v' Hin. pose proof (Hall _ _ Hin) as Hb.
      pose proof (below_pos _ _ _ _ Hr Hb). destruct Hb. lia. }
    destruct (Obj.get "length" ps) as [v|] eqn:Hget.
    + intros _. apply get_Some_In in Hget. eauto.
    + intros Hk. apply in_map_iff in Hk as (s & _ & Hs).
      apply key_get_Some in Hs as (v & Hv). apply get_Some_In in Hv. eauto.
  - intros _. exact (proj1 (Hr l0 _ Hc)).
Qed.

Lemma store_each_total (J : store -> Prop) f ks σ :
  J σ ->
  (forall k σ, In k ks -> J σ -> exists r, f σ k = Some r /\ J (store_of r)) ->
  exists r, Store.each f ks σ = Some r /\ J (store_of r).
Proof.
  revert σ. induction ks as [|k ks IH]; intros σ HJ Hstep; cbn [Store.each].
  - exists (Ret σ tt). auto.
  - destruct (Hstep k σ (or_introl eq_refl) HJ) as (r & Hr & HJ').
    rewrite Hr. destruct r as [σ' []|σ' e]; cbn [Store.bind].
    + apply IH; [exact HJ'|]. intros k' σ'' Hk'. apply Hstep. right. exact Hk'.
    + exists (Thr σ' e). auto.
Qed.

Lemma still_ranked_step ρ σ ρ1 σ1 σ2 :
  extends ρ σ ρ1 σ1 -> still_ranked ρ1 σ1 σ2 -> still_ranked ρ σ σ2.
Proof.
  intros H1 (ρ2 & Hr2 & H2). exists ρ2. split; [exact Hr2|].
  exact (extends_trans _ _ _ _ _ _ H1 H2).
Qed.

(** On a ranked store, with fuel for the weight of what it is given,
    the compiler ends, and leaves a ranked store. *)
Lemma compile_ends fuel : forall σ ρ params fields ctx,
  ranked ρ σ -> (forall l, params = SRef l -> is_Some (σ !! l)) ->
  (weight ρ params <= fuel)%nat ->
  exists r, Store.buildQueryFromParams_fuel fuel σ params fields ctx = Some r
            /\ still_ranked ρ σ (store_of r).
Proof.
  induction fuel as [|fuel IH]; intros σ ρ params fields ctx Hr Hp Hfuel.
  { assert (1 <= weight ρ params)%nat; [|lia].
    apply (below_pos ρ σ (S (weight ρ params))); [exact Hr|]. split; [lia|exact Hp]. }
  cbn [Store.buildQueryFromParams_fuel].
  destruct params as [| | | | |l0]; cbn [Store.isObject negb];
    try (eexists; split; [reflexivity|]; exists ρ; split; [exact Hr|apply extends_refl]).
  pose proof (Hp l0 eq_refl) as Hl0. cbn [weight] in Hfuel.
  set (recurse := fun σ v c => Store.buildQueryFromParams_fuel fuel σ v fields c).
  (* recursing into a value of the object, then assigning the result *)
  assert (Hrec : forall ρ1 σ1 v k1 c,
             ranked ρ1 σ1 -> extends ρ σ ρ1 σ1 -> below ρ1 σ1 (ρ l0) v ->
             exists r, Store.bind (recurse σ1 v c)
                         (fun σ r => Some (Ret (Store.write σ k1 r (SRef l0)) tt)) = Some r
                       /\ still_ranked ρ σ (store_of r)).
  { intros ρ1 σ1 v k1 c Hr1 Hext1 [Hw Hv].
    destruct (IH σ1 ρ1 v fields c Hr1 Hv ltac:(lia)) as (r & Hr' & ρ2 & Hr2 & Hext2).
    unfold recurse. rewrite Hr'. destruct r as [σ2 v'|σ2 e]; cbn [Store.bind].
    - apply compile_returns_params in Hr'. subst v'. cbn [store_of] in *.
      eexists. split; [reflexivity|]. cbn [store_of].
      pose proof (extends_trans _ _ _ _ _ _ Hext1 Hext2) as Hext.
      destruct (Hext l0 Hl0) as [Hrank Hl2].
      destruct (ranked_write ρ2 σ2 l0 k1 v Hr2 Hl2) as [Hr3 Hext3].
      { rewrite Hrank. apply (below_extends _ _ _ _ _ _ Hext2). split; assumption. }
      exists ρ2. split; [exact Hr3|]. exact (extends_trans _ _ _ _ _ _ Hext Hext3).
    - eexists. split; [reflexivity|]. exists ρ2. split; [exact Hr2|].
      exact (extends_trans _ _ _ _ _ _ Hext1 Hext2). }
  destruct (store_each_total (still_ranked ρ σ)
              (Store.iteratee recurse fields ctx (SRef l0))
              (Store.each_keys σ (SRef l0)) σ) as (r & Hr' & Hrank).
  - exists ρ. split; [exact Hr|apply extends_refl].
  - intros k σ1 Hk (ρ1 & Hr1 & Hext1).
    pose proof (each_keys_rank _ _ _ _ Hr Hk) as H2.
    destruct (Hext1 l0 Hl0) as [Hrank1 Hl1].
    assert (Hv : below ρ1 σ1 (ρ l0) (Store.read σ1 k (SRef l0))).
    { rewrite <- Hrank1. apply read_below; [exact Hr1|lia]. }
    unfold Store.iteratee. set (v := Store.read σ1 k (SRef l0)) in *. clearbody v.
    assert (Hplain : forall k1,
               exists r,
                 match k1 with
                 | KIdx _ =>
                     Store.bind (recurse σ1 v ctx)
                       (fun σ r => Some (Ret (Store.write σ k1 r (SRef l0)) tt))
                 | KStr s =>
                     if Store.typeof_object v
                     then
                       if Str.mem s queryOperatorIgnore
                       then Store.bind (recurse σ1 v ctx)
                              (fun σ r => Some (Ret (Store.write σ k1 r (SRef l0)) tt))
                       else Store.bind (recurse σ1 v (field_of ctx k))
                              (fun σ r => Some (Ret (Store.write σ k1 r (SRef l0)) tt))
                     else
                       if negb (Str.mem (field_of ctx k) fields)
                          && negb (Str.mem s queryOperatorIgnore)
                       then Some (Ret (Store.delete σ1 k1 (SRef l0)) tt)
                       else Some (Ret σ1 tt)
                 end = Some r /\ still_ranked ρ σ (store_of r)).
    { intros k1. destruct k1 as [i|s]; [apply (Hrec ρ1); assumption|].
      destruct (Store.typeof_object v).
      - destruct (Str.mem s queryOperatorIgnore); apply (Hrec ρ1); assumption.
      - destruct (negb _ && negb _).
        + eexists. split; [reflexivity|]. cbn [store_of].
          destruct (ranked_delete ρ1 σ1 l0 (KStr s) Hr1) as [Hr2 Hext2].
          exists ρ1. split; [exact Hr2|]. exact (extends_trans _ _ _ _ _ _ Hext1 Hext2).
        + eexists. split; [reflexivity|]. exists ρ1. auto. }
    unfold Store.resolve_modifier. destruct k as [i|s].
    { cbn [Store.bind]. apply (Hplain (KIdx i)). }
    destruct (Str.mem (List.last (Str.split "." s) "") fieldModifiers) eqn:Hm;
      [|cbn [Store.bind]; apply (Hplain (KStr s))].
    destruct (ranked_delete ρ1 σ1 l0 (KStr s) Hr1) as [Hr2 Hext2].
    set (σ2 := Store.delete σ1 (KStr s) (SRef l0)) in *.
    pose proof (below_extends _ _ _ _ _ _ Hext2 Hv) as Hv2.
    destruct (ranked_processModifier ρ1 σ2 (ρ l0) _ v _ Hr2 Hv2 Hm eq_refl)
      as (ρ3 & Hr3 & Hext3 & Hd).
    destruct (Store.processModifier σ2 _ v) as [σ3 d|σ3 e]; cbn [Store.bind store_of] in *.
    + destruct (Hd _ _ eq_refl) as [Hd3 Hty]. rewrite Hty.
      pose proof (extends_trans _ _ _ _ _ _ Hext1
                    (extends_trans _ _ _ _ _ _ Hext2 Hext3)) as Hext.
      destruct (Hext l0 Hl0) as [Hrank3 Hl3].
      destruct (ranked_write ρ3 σ3 l0 (KStr (Str.join "." (removelast (Str.split "." s)))) d
                  Hr3 Hl3) as [Hr4 Hext4]; [rewrite Hrank3; exact Hd3|].
      pose proof (below_extends _ _ _ _ _ _ Hext4 Hd3) as Hd4.
      pose proof (extends_trans _ _ _ _ _ _ Hext Hext4) as Hext'.
      destruct (Str.mem _ queryOperatorIgnore); apply (Hrec ρ3); assumption.
    + eexists. split; [reflexivity|]. exists ρ3. split; [exact Hr3|].
      exact (extends_trans _ _ _ _ _ _ Hext1
               (extends_trans _ _ _ _ _ _ Hext2 Hext3)).
  - rewrite Hr'. destruct r as [σ1 []|σ1 e]; cbn [Store.bind];
      eexists; (split; [reflexivity|exact Hrank]).
Qed.

Lemma ranked_extend ρ σ l' kvs :
  ranked ρ σ -> is_Some (σ !! l') ->
  (forall kv, In kv kvs -> below ρ σ (ρ l') (snd kv)) ->
  ranked ρ (fold_left (fun σ kv => Store.write σ (KStr (fst kv)) (snd kv) (SRef l')) kvs σ)
  /\ extends ρ σ ρ
       (fold_left (fun σ kv => Store.write σ (KStr (fst kv)) (snd kv) (SRef l')) kvs σ).
Proof.
  revert σ. induction kvs as [|kv kvs IH]; intros σ Hr Hl Hall; cbn [fold_left].
  - split; [exact Hr|apply extends_refl].
  - destruct (ranked_write ρ σ l' (KStr (fst kv)) (snd kv) Hr Hl) as [Hr1 Hext1];
      [apply Hall; left; reflexivity|].
    destruct (IH _ Hr1 (proj2 (Hext1 l' Hl))) as [Hr2 Hext2].
    + intros kv' Hin. apply (below_extends _ _ _ _ _ _ Hext1).
      apply Hall. right. exact Hin.
    + split; [exact Hr2|]. exact (extends_trans _ _ _ _ _ _ Hext1 Hext2).
Qed.

Lemma enumerable_below ρ σ l kv :
  ranked ρ σ -> In kv (Store.enumerable σ (SRef l)) -> below ρ σ (ρ l) (snd kv).
Proof.
  intros Hr. unfold Store.enumerable.
  destruct (σ !! l) as [[ps|xs|p f]|] eqn:Hc; try (intros []).
  - destruct kv as [k v]. intros Hin. exact (proj2 (Hr l _ Hc) _ _ Hin).
  - intros Hin.
    apply list_elem_of_In, elem_of_lookup_imap in Hin as (i & x & -> & Hx).
    cbn [snd]. apply (proj2 (Hr l _ Hc)).
    apply list_elem_of_In, list_elem_of_lookup. eauto.
Qed.

(** On a ranked store, with fuel for the rank of the payload, the
    handlers reach the end of the compilation. *)
Lemma findDocuments_ends ρ fuel σ l fields :
  ranked ρ σ -> is_Some (σ !! l) -> (ρ l <= fuel)%nat ->
  exists r, Store.findDocuments fuel σ (SRef l) fields = Some r.
Proof.
  intros Hr Hl Hfuel. unfold Store.findDocuments, Store.or_new_object.
  cbn [Store.truthy].
  destruct (Store.alloc σ (CObj [])) as [σ1 clone] eqn:Ha.
  pose proof (alloc_fresh _ _ _ _ Ha) as (l' & -> & _ & _).
  destruct Hl as [c Hc].
  apply (ranked_alloc ρ σ _ (ρ l)) in Ha as (ρ1 & Hr1 & Hext1 & Hw1 & Hl1 & _);
    [|exact Hr|].
  2:{ cbn [ranked_cell]. split; [exact (ranked_cell_pos _ _ _ _ (Hr l c Hc))|intros ? ? []]. }
  cbn [weight] in Hw1. unfold Store.extend.
  destruct (ranked_extend ρ1 σ1 l' (Store.enumerable σ1 (SRef l)) Hr1 (Hl1 l' eq_refl))
    as [Hr2 Hext2].
  { intros kv Hin. rewrite Hw1.
    replace (ρ l) with (ρ1 l) by exact (proj1 (Hext1 l ltac:(eauto))).
    apply enumerable_below; assumption. }
  destruct (compile_ends fuel _ ρ1 (SRef l') fields "" Hr2) as (r & Hr' & _).
  - intros ? [= <-]. exact (proj2 (Hext2 l' (Hl1 l' eq_refl))).
  - cbn [weight]. lia.
  - eauto.
Qed.

Lemma saveDocument_ends ρ fuel σ l fields :
  ranked ρ σ -> is_Some (σ !! l) -> (ρ l <= fuel)%nat ->
  exists r, Store.saveDocument fuel σ (SRef l) fields = Some r.
Proof.
  intros Hr Hl Hfuel. unfold Store.saveDocument, Store.or_new_object.
  cbn [Store.truthy].
  destruct (compile_ends fuel σ ρ (SRef l) fields "" Hr) as (r & Hr' & _).
  - intros ? [= <-]. exact Hl.
  - exact Hfuel.
  - eauto.
Qed.

End RankedStoresCompilerEnds.

End StoreFacts.

(** ** The compiler on the store follows the compiler on trees *)

Module Refinement.
Import Store(loc, store, sval(..), cell(..), result(..), repr(..), repr_list(..),
  repr_props(..), repr_mutind, preserves, follows, follows_obj, follows_arr,
  load, load_list, load_props).

Section CompilerStoreFollowsCompilerTrees.

Context {engine : RegExpEngine} {store_engine : Store.StoreEngine}.

Lemma repr_dom σ :
  (forall F sv v, repr σ F sv v -> forall l, l ∈ F -> is_Some (σ !! l))
  /\ (forall F svs vs, repr_list σ F svs vs -> forall l, l ∈ F -> is_Some (σ !! l))
  /\ (forall F sps ps, repr_props σ F sps ps -> forall l, l ∈ F -> is_Some (σ !! l)).
Proof.
  apply repr_mutind; intros;
    repeat match goal with
    | H : _ ∈ ∅ |- _ => set_solver
    | H : _ ∈ _ ∪ _ |- _ => apply elem_of_union in H as [H|H]
    | H : _ ∈ {[_]} |- _ => apply elem_of_singleton in H; subst
    end; eauto.
Qed.

Lemma repr_frame σ :
  (forall F sv v, repr σ F sv v ->
     forall σ', (forall l, l ∈ F -> σ' !! l = σ !! l) -> repr σ' F sv v)
  /\ (forall F svs vs, repr_list σ F svs vs ->
     forall σ', (forall l, l ∈ F -> σ' !! l = σ !! l) -> repr_list σ' F svs vs)
  /\ (forall F sps ps, repr_props σ F sps ps ->
     forall σ', (forall l, l ∈ F -> σ' !! l = σ !! l) -> repr_props σ' F sps ps).
Proof.
  apply repr_mutind; intros; try (constructor; fail).
  - eapply repr_regexp; [rewrite H0 by set_solver; eassumption| |assumption].
    apply H. intros. apply H0. set_solver.
  - eapply repr_arr; [rewrite H0 by set_solver; eassumption| |assumption].
    apply H. intros. apply H0. set_solver.
  - eapply repr_obj; [rewrite H0 by set_solver; eassumption| |assumption].
    apply H. intros. apply H0. set_solver.
  - apply repr_cons; [apply H|apply H0|assumption]; intros; apply H1; set_solver.
  - apply repr_props_cons; [apply H|apply H0|assumption]; intros; apply H1; set_solver.
Qed.

(** A value that stands for a tree reifies to that tree, once the
    fuel covers its depth. *)
Lemma repr_reify σ :
  (forall F sv v, repr σ F sv v ->
     exists n, forall m, (n <= m)%nat -> Store.reify m σ sv = Some v)
  /\ (forall F svs vs, repr_list σ F svs vs ->
     exists n, forall m, (n <= m)%nat -> mapM (Store.reify m σ) svs = Some vs)
  /\ (forall F sps ps, repr_props σ F sps ps ->
     exists n, forall m, (n <= m)%nat ->
       mapM (fun kv => option_map (pair (fst kv)) (Store.reify m σ (snd kv))) sps
       = Some ps).
Proof.
  apply repr_mutind.
  1-5: intros; exists 0%nat; intros [|m] _; reflexivity.
  - intros l F p pv flags Hl Hp [n IH] Hn. exists (S n). intros [|m] Hm; [lia|].
    cbn [Store.reify]. rewrite Hl, IH by lia. reflexivity.
  - intros l F sxs xs Hl Hxs [n IH] Hn. exists (S n). intros [|m] Hm; [lia|].
    cbn [Store.reify]. rewrite Hl, IH by lia. reflexivity.
  - intros l F sps ps Hl Hps [n IH] Hn. exists (S n). intros [|m] Hm; [lia|].
    cbn [Store.reify]. rewrite Hl, IH by lia. reflexivity.
  - exists 0%nat. reflexivity.
  - intros F1 F2 sv v svs vs Hv [n1 IH1] Hvs [n2 IH2] Hd. exists (Nat.max n1 n2).
    intros m Hm. cbn [mapM]. rewrite IH1, IH2 by lia. reflexivity.
  - exists 0%nat. reflexivity.
  - intros k F1 F2 sv v sps ps Hv [n1 IH1] Hps [n2 IH2] Hd. exists (Nat.max n1 n2).
    intros m Hm. cbn [mapM fst snd]. rewrite IH1, IH2 by lia. reflexivity.
Qed.

(** The fuel the size of the footprint grants is enough. *)
Lemma repr_reify_size σ :
  (forall F sv v, repr σ F sv v ->
     forall m, (size F <= m)%nat -> Store.reify m σ sv = Some v)
  /\ (forall F svs vs, repr_list σ F svs vs ->
     forall m, (size F <= m)%nat -> mapM (Store.reify m σ) svs = Some vs)
  /\ (forall F sps ps, repr_props σ F sps ps ->
     forall m, (size F <= m)%nat ->
       mapM (fun kv => option_map (pair (fst kv)) (Store.reify m σ (snd kv))) sps
       = Some ps).
Proof.
  assert (Hsize : forall (l : loc) (F : gset loc), l ∉ F -> size ({[l]} ∪ F) = S (size F)).
  { intros l F Hl. rewrite size_union by set_solver. rewrite size_singleton. reflexivity. }
  apply repr_mutind.
  1-5: intros; destruct m; reflexivity.
  - intros l F p pv flags Hl Hp IH Hn m Hm. rewrite (Hsize l F Hn) in Hm.
    destruct m as [|m]; [lia|]. cbn [Store.reify]. rewrite Hl, IH by lia. reflexivity.
  - intros l F sxs xs Hl Hxs IH Hn m Hm. rewrite (Hsize l F Hn) in Hm.
    destruct m as [|m]; [lia|]. cbn [Store.reify]. rewrite Hl, IH by lia. reflexivity.
  - intros l F sps ps Hl Hps IH Hn m Hm. rewrite (Hsize l F Hn) in Hm.
    destruct m as [|m]; [lia|]. cbn [Store.reify]. rewrite Hl, IH by lia. reflexivity.
  - reflexivity.
  - intros F1 F2 sv v svs vs Hv IH1 Hvs IH2 Hd m Hm.
    rewrite size_union in Hm by exact Hd.
    cbn [mapM]. rewrite IH1, IH2 by lia. reflexivity.
  - reflexivity.
  - intros k F1 F2 sv v sps ps Hv IH1 Hps IH2 Hd m Hm.
    rewrite size_union in Hm by exact Hd.
    cbn [mapM fst snd]. rewrite IH1, IH2 by lia. reflexivity.
Qed.

(** The engine's answer on a pattern of the store that stands for a
    tree is its answer on the tree. *)
Lemma repr_accepts σ F sv v flags :
  repr σ F sv v -> Store.accepts σ sv flags = regexp_accepts v flags.
Proof.
  intros Hv. unfold Store.accepts.
  rewrite (proj1 (repr_reify_size σ) _ _ _ Hv); [reflexivity|].
  rewrite <- size_dom. apply subseteq_size. intros l Hl.
  apply elem_of_dom. exact (proj1 (repr_dom σ) _ _ _ Hv l Hl).
Qed.

Lemma repr_typeof σ F sv v :
  repr σ F sv v -> Store.typeof_object sv = Js.typeof_object v.
Proof. destruct 1; reflexivity. Qed.

Lemma repr_isObject σ F sv v :
  repr σ F sv v -> Store.isObject sv = Js.isObject v.
Proof. destruct 1; reflexivity. Qed.

Lemma repr_props_keys σ F sps ps :
  repr_props σ F sps ps -> Obj.keys sps = Obj.keys ps.
Proof.
  induction 1; [reflexivity|]. unfold Obj.keys in *. cbn [map fst]. congruence.
Qed.

Lemma repr_list_length σ F svs vs : repr_list σ F svs vs -> length svs = length vs.
Proof. induction 1; cbn [length]; congruence. Qed.
Lemma preserves_refl σ F : preserves σ σ F F.
Proof. repeat split; auto. Qed.

Lemma preserves_trans σ σ1 σ2 F F1 F2 :
  preserves σ σ1 F F1 -> preserves σ1 σ2 F1 F2 -> preserves σ σ2 F F2.
Proof.
  intros (H1 & H2 & H3) (K1 & K2 & K3). repeat split.
  - intros l Hl Hn. rewrite K1, H1; auto.
    intros Hin. destruct (H2 l Hin) as [?|Hnone]; [auto|].
    rewrite Hnone in Hl. destruct Hl; discriminate.
  - intros l Hl. destruct (K2 l Hl) as [Hin|Hnone]; [auto|].
    right. destruct (σ !! l) eqn:E; [|reflexivity].
    destruct (H3 l) as [c' Hc]; [rewrite E; eauto|]. congruence.
  - auto.
Qed.

Lemma repr_props_delete σ s F sps ps :
  repr_props σ F sps ps ->
  exists F', F' ⊆ F /\ repr_props σ F' (Obj.delete s sps) (Obj.delete s ps).
Proof.
  induction 1 as [|k F1 F2 sv v sps ps Hv Hps (F' & Hsub & IH) Hd].
  - exists ∅. split; [set_solver|constructor].
  - cbn [Obj.delete]. destruct (String.eqb s k).
    + exists F'. split; [set_solver|exact IH].
    + exists (F1 ∪ F'). split; [set_solver|].
      apply repr_props_cons; [assumption|assumption|set_solver].
Qed.

(** The property [s] of an object and the rest of the object own
    disjoint parts of the store, so that the property can be given a
    new value, or deleted, without a look at the rest. *)
Lemma repr_props_focus σ s F sps ps :
  repr_props σ F sps ps ->
  exists Fc Fr,
    repr σ Fc (default SUndefined (Obj.get s sps)) (Obj.read s ps)
    /\ Fc ## Fr /\ Fc ∪ Fr ⊆ F
    /\ (forall σ' Fc' sv' v',
          (forall l, l ∈ Fr -> σ' !! l = σ !! l) ->
          repr σ' Fc' sv' v' -> Fc' ## Fr ->
          exists F', F' ⊆ Fc' ∪ Fr
                     /\ repr_props σ' F' (Obj.set s sv' sps) (Obj.set s v' ps))
    /\ (forall σ',
          (forall l, l ∈ Fr -> σ' !! l = σ !! l) ->
          exists F', F' ⊆ Fr
                     /\ repr_props σ' F' (Obj.delete s sps) (Obj.delete s ps)).
Proof.
  induction 1 as [|k F1 F2 sv v sps ps Hv Hps IH Hd].
  - exists ∅, ∅. unfold Obj.read. cbn [Obj.get default Obj.set Obj.delete].
    split; [constructor|]. split; [set_solver|]. split; [set_solver|]. split.
    + intros σ' Fc' sv' v' _ Hr _. exists (Fc' ∪ ∅). split; [set_solver|].
      apply repr_props_cons; [assumption|constructor|set_solver].
    + intros σ' _. exists ∅. split; [set_solver|constructor].
  - unfold Obj.read in *. cbn [Obj.get Obj.set Obj.delete].
    destruct (String.eqb s k).
    + exists F1, F2. cbn [default].
      split; [assumption|]. split; [assumption|]. split; [set_solver|]. split.
      * intros σ' Fc' sv' v' Hfr Hr Hdis. exists (Fc' ∪ F2). split; [set_solver|].
        apply repr_props_cons; [assumption| |assumption].
        apply (proj2 (proj2 (repr_frame σ)) _ _ _ Hps). assumption.
      * intros σ' Hfr.
        destruct (repr_props_delete σ s _ _ _ Hps) as (F' & Hsub & Hdel).
        exists F'. split; [assumption|].
        apply (proj2 (proj2 (repr_frame σ)) _ _ _ Hdel). intros; apply Hfr. set_solver.
    + destruct IH as (Fc & Fr & Hc & Hdis & Hsub & Hplug & Hdel).
      exists Fc, (F1 ∪ Fr).
      split; [assumption|]. split; [set_solver|]. split; [set_solver|]. split.
      * intros σ' Fc' sv' v' Hfr Hr Hdis'.
        destruct (Hplug σ' Fc' sv' v') as (F' & Hsub' & Hps');
          [intros; apply Hfr; set_solver|assumption|set_solver|].
        exists (F1 ∪ F'). split; [set_solver|].
        apply repr_props_cons; [|assumption|set_solver].
        apply (proj1 (repr_frame σ) _ _ _ Hv). intros; apply Hfr. set_solver.
      * intros σ' Hfr.
        destruct (Hdel σ') as (F' & Hsub' & Hps'); [intros; apply Hfr; set_solver|].
        exists (F1 ∪ F'). split; [set_solver|].
        apply repr_props_cons; [|assumption|set_solver].
        apply (proj1 (repr_frame σ) _ _ _ Hv). intros; apply Hfr. set_solver.
Qed.

Lemma tree_array_set_nil i (v : value) :
  Params.array_set i v [] = repeat VUndefined i ++ [v].
Proof. unfold Params.array_set. cbn. rewrite Nat.sub_0_r. reflexivity. Qed.

Lemma tree_array_set_0 (v x : value) xs : Params.array_set 0 v (x :: xs) = v :: xs.
Proof. reflexivity. Qed.

Lemma tree_array_set_S i (v x : value) xs :
  Params.array_set (S i) v (x :: xs) = x :: Params.array_set i v xs.
Proof.
  unfold Params.array_set. cbn [length].
  change (S i <? S (length xs))%nat with (i <? length xs)%nat.
  destruct (i <? length xs)%nat; reflexivity.
Qed.

Lemma store_array_set_nil i (v : sval) :
  Store.array_set i v [] = repeat SUndefined i ++ [v].
Proof. unfold Store.array_set. cbn. rewrite Nat.sub_0_r. reflexivity. Qed.

Lemma store_array_set_S i (v x : sval) xs :
  Store.array_set (S i) v (x :: xs) = x :: Store.array_set i v xs.
Proof.
  unfold Store.array_set. cbn [length].
  change (S i <? S (length xs))%nat with (i <? length xs)%nat.
  destruct (i <? length xs)%nat; reflexivity.
Qed.

Lemma repr_list_holes σ' Fc' sv' v' i :
  repr σ' Fc' sv' v' ->
  exists F', F' ⊆ Fc'
    /\ repr_list σ' F' (repeat SUndefined i ++ [sv']) (repeat VUndefined i ++ [v']).
Proof.
  intros Hr. induction i as [|i (F' & Hsub & IH)].
  - exists (Fc' ∪ ∅). split; [set_solver|].
    apply repr_cons; [assumption|constructor|set_solver].
  - exists (∅ ∪ F'). split; [set_solver|].
    cbn [repeat app]. apply repr_cons; [constructor|assumption|set_solver].
Qed.

(** The same for the element [i] of an array. *)
Lemma repr_list_focus σ F svs vs :
  repr_list σ F svs vs ->
  forall i, exists Fc Fr,
    repr σ Fc (nth i svs SUndefined) (nth i vs VUndefined)
    /\ Fc ## Fr /\ Fc ∪ Fr ⊆ F
    /\ (forall σ' Fc' sv' v',
          (forall l, l ∈ Fr -> σ' !! l = σ !! l) ->
          repr σ' Fc' sv' v' -> Fc' ## Fr ->
          exists F', F' ⊆ Fc' ∪ Fr
                     /\ repr_list σ' F' (Store.array_set i sv' svs)
                          (Params.array_set i v' vs)).
Proof.
  induction 1 as [|F1 F2 sv v svs vs Hv Hvs IH Hd]; intros i.
  - exists ∅, ∅. split; [destruct i; constructor|].
    split; [set_solver|]. split; [set_solver|].
    intros σ' Fc' sv' v' _ Hr _.
    rewrite tree_array_set_nil, store_array_set_nil.
    destruct (repr_list_holes σ' Fc' sv' v' i Hr) as (F' & ? & ?).
    exists F'. split; [set_solver|assumption].
  - destruct i as [|i].
    + exists F1, F2. cbn [nth].
      split; [assumption|]. split; [assumption|]. split; [set_solver|].
      intros σ' Fc' sv' v' Hfr Hr Hdis. exists (Fc' ∪ F2). split; [set_solver|].
      apply repr_cons; [assumption| |assumption].
      apply (proj1 (proj2 (repr_frame σ)) _ _ _ Hvs). assumption.
    + destruct (IH i) as (Fc & Fr & Hc & Hdis & Hsub & Hplug).
      exists Fc, (F1 ∪ Fr). cbn [nth].
      split; [assumption|]. split; [set_solver|]. split; [set_solver|].
      intros σ' Fc' sv' v' Hfr Hr Hdis'.
      rewrite tree_array_set_S, store_array_set_S.
      destruct (Hplug σ' Fc' sv' v') as (F' & Hsub' & Hps');
        [intros; apply Hfr; set_solver|assumption|set_solver|].
      exists (F1 ∪ F'). split; [set_solver|].
      apply repr_cons; [|assumption|set_solver].
      apply (proj1 (repr_frame σ) _ _ _ Hv). intros; apply Hfr. set_solver.
Qed.

Lemma alloc_spec σ c σ' v :
  Store.alloc σ c = (σ', v) ->
  exists l, v = SRef l /\ σ !! l = None /\ σ' = <[l := c]> σ.
Proof.
  unfold Store.alloc. intros [= <- <-]. exists (fresh (dom σ)).
  split; [reflexivity|]. split; [|reflexivity].
  apply not_elem_of_dom, is_fresh.
Qed.

Lemma repr_regex_directive σ F p pv flags :
  repr σ F p pv ->
  exists σ' sd Fd,
    Store.regex_directive σ p flags = (σ', sd)
    /\ repr σ' Fd sd (regex_directive pv flags)
    /\ preserves σ σ' F Fd.
Proof.
  intros Hp. unfold Store.regex_directive.
  destruct (Store.alloc σ (CRegExp p flags)) as [σ1 re] eqn:H1.
  destruct (Store.alloc σ1 (CObj [("$regex", re)])) as [σ2 d] eqn:H2.
  apply alloc_spec in H1 as (l1 & -> & Hl1 & ->).
  apply alloc_spec in H2 as (l2 & -> & Hl2 & ->).
  assert (Hne : l2 <> l1).
  { intros ->. rewrite lookup_insert_eq in Hl2. discriminate. }
  rewrite lookup_insert_ne in Hl2 by congruence.
  assert (Hdom : forall l, l ∈ F -> is_Some (σ !! l)) by apply (proj1 (repr_dom σ) _ _ _ Hp).
  assert (Hold : forall l, is_Some (σ !! l) ->
                      <[l2:=CObj [("$regex", SRef l1)]]> (<[l1:=CRegExp p flags]> σ) !! l = σ !! l).
  { intros l [c Hc]. rewrite !lookup_insert_ne; congruence. }
  assert (H1F : l1 ∉ F).
  { intros Hin. destruct (Hdom _ Hin). congruence. }
  assert (H2F : l2 ∉ F).
  { intros Hin. destruct (Hdom _ Hin). congruence. }
  eexists _, _, ({[l2]} ∪ (({[l1]} ∪ F) ∪ ∅)). split; [reflexivity|]. split.
  - unfold regex_directive. eapply repr_obj.
    + apply lookup_insert_eq.
    + apply repr_props_cons; [|constructor|set_solver].
      eapply repr_regexp; [| |exact H1F].
      * rewrite lookup_insert_ne by congruence. apply lookup_insert_eq.
      * apply (proj1 (repr_frame σ) _ _ _ Hp). intros l Hl. apply Hold, Hdom, Hl.
    + set_solver.
  - repeat split.
    + intros l Hl _. apply Hold, Hl.
    + intros l Hl.
      apply elem_of_union in Hl as [Hl|Hl];
        [apply elem_of_singleton in Hl; subst; auto|].
      apply elem_of_union in Hl as [Hl|Hl]; [|set_solver].
      apply elem_of_union in Hl as [Hl|Hl];
        [apply elem_of_singleton in Hl; subst; auto|auto].
    + intros l Hl. rewrite Hold by assumption. assumption.
Qed.

Lemma repr_nth_strings σ i segs :
  repr σ ∅ (nth i (map SStr segs) SUndefined) (nth i (map VStr segs) VUndefined).
Proof.
  revert i. induction segs as [|s segs IH]; intros [|i]; cbn [map nth];
    try constructor. apply IH.
Qed.

Lemma repr_starts_with_slash σ F sxs xs :
  repr_list σ F sxs xs -> Store.starts_with_slash sxs = starts_with_slash xs.
Proof. destruct 1 as [|? ? ? ? ? ? []]; reflexivity. Qed.

Lemma repr_new_directive σ F p pv flags :
  repr σ F p pv ->
  match new_directive pv flags with
  | Returns d =>
      exists σ' sd Fd,
        Store.new_directive σ p flags = Ret σ' sd
        /\ repr σ' Fd sd d /\ preserves σ σ' F Fd
  | Throws e => exists σ', Store.new_directive σ p flags = Thr σ' e
  end.
Proof.
  intros Hp. unfold new_directive, Store.new_directive.
  rewrite (repr_accepts _ _ _ _ flags Hp).
  destruct (regexp_accepts pv flags); [|eexists; reflexivity].
  destruct (repr_regex_directive σ F p pv flags Hp) as (σ' & sd & Fd & -> & Hd & Hpr).
  eexists _, _, _. split; [reflexivity|]. split; [exact Hd|exact Hpr].
Qed.

(** [processModifier] on the store does what it does on trees. *)
Lemma repr_processModifier σ F m sv v :
  repr σ F sv v ->
  match processModifier m v with
  | Returns d =>
      exists σ' sd Fd,
        Store.processModifier σ m sv = Ret σ' sd
        /\ repr σ' Fd sd d /\ preserves σ σ' F Fd
  | Throws e => exists σ', Store.processModifier σ m sv = Thr σ' e
  end.
Proof.
  intros Hv. unfold processModifier, Store.processModifier.
  destruct (String.eqb m "contains").
  { destruct Hv; try (eexists; reflexivity).
    apply (repr_new_directive σ ∅). constructor. }
  destruct (String.eqb m "regex").
  2:{ eexists _, _, _. split; [reflexivity|]. split; [exact Hv|apply preserves_refl]. }
  destruct Hv as [| | | |s|l F p pv flags Hl|l F sxs xs Hl Hxs Hn|l F sps ps Hl];
    try (eexists; reflexivity).
  - destruct (Str.starts_with "/" s).
    + apply (repr_new_directive σ ∅). apply repr_nth_strings.
    + apply (repr_new_directive σ ∅). constructor.
  - rewrite Hl. eexists; reflexivity.
  - rewrite Hl, (repr_starts_with_slash _ _ _ _ Hxs).
    destruct (starts_with_slash xs); [eexists; reflexivity|].
    apply (repr_new_directive σ ({[l]} ∪ F)). eapply repr_arr; eassumption.
  - rewrite Hl. eexists; reflexivity.
Qed.
Lemma follows_obj_trans l0 σ σ1 F F1 t s :
  preserves σ σ1 ({[l0]} ∪ F) ({[l0]} ∪ F1) ->
  follows_obj l0 σ1 F1 t s -> follows_obj l0 σ F t s.
Proof.
  destruct t as [[q|e]|]; cbn [follows_obj]; auto.
  intros Hp (σ' & sps' & ps' & F' & -> & -> & Hl & Hps & Hn & Hp').
  eexists _, _, _, _. split; [reflexivity|]. split; [reflexivity|].
  split; [exact Hl|]. split; [exact Hps|]. split; [exact Hn|].
  eapply preserves_trans; eassumption.
Qed.

Lemma follows_arr_trans l0 σ σ1 F F1 t s :
  preserves σ σ1 ({[l0]} ∪ F) ({[l0]} ∪ F1) ->
  follows_arr l0 σ1 F1 t s -> follows_arr l0 σ F t s.
Proof.
  destruct t as [[q|e]|]; cbn [follows_arr]; auto.
  intros Hp (σ' & sps' & ps' & F' & -> & -> & Hl & Hps & Hn & Hp').
  eexists _, _, _, _. split; [reflexivity|]. split; [reflexivity|].
  split; [exact Hl|]. split; [exact Hps|]. split; [exact Hn|].
  eapply preserves_trans; eassumption.
Qed.

(** Writing back into the object at [l0] the value a call has left
    for one of its properties.  [P] is what the new content of [l0]
    stands for, given the new value of the property. *)
Lemma write_back l0 σ F (c0 c1 : cell) σ1 Fc Fr Fc' sv' v'
    (P : store -> gset loc -> Prop) :
  σ !! l0 = Some c0 -> l0 ∉ F ->
  (forall l, l ∈ F -> is_Some (σ !! l)) ->
  Fc ## Fr -> Fc ∪ Fr ⊆ F ->
  (forall l, is_Some (σ !! l) -> l ∉ Fc -> l <> l0 -> σ1 !! l = σ !! l) ->
  (forall l, l ∈ Fc' -> l ∈ Fc \/ σ !! l = None) ->
  (forall l, is_Some (σ !! l) -> is_Some (σ1 !! l)) ->
  repr σ1 Fc' sv' v' ->
  (forall σ', (forall l, l ∈ Fr -> σ' !! l = σ !! l) ->
              repr σ' Fc' sv' v' -> Fc' ## Fr ->
              exists F', F' ⊆ Fc' ∪ Fr /\ P σ' F') ->
  exists F',
    P (<[l0 := c1]> σ1) F' /\ (l0 ∉ F')
    /\ preserves σ (<[l0 := c1]> σ1) ({[l0]} ∪ F) ({[l0]} ∪ F').
Proof.
  intros Hl Hn Hdom Hdis Hsub H1 H2 H3 Hr Hplug.
  assert (Hn' : l0 ∉ Fc').
  { intros Hin. destruct (H2 _ Hin) as [?|Hnone]; [apply Hn; set_solver|congruence]. }
  assert (Hdis' : Fc' ## Fr).
  { apply elem_of_disjoint. intros l Hin Hinr.
    destruct (H2 _ Hin) as [?|Hnone]; [set_solver|].
    destruct (Hdom l) as [c Hc]; [set_solver|congruence]. }
  destruct (Hplug (<[l0 := c1]> σ1)) as (F' & Hsub' & HP).
  - intros l Hin. assert (l <> l0) by (intros ->; apply Hn; set_solver).
    rewrite lookup_insert_ne by congruence.
    apply H1; [apply Hdom; set_solver|set_solver|assumption].
  - apply (proj1 (repr_frame σ1) _ _ _ Hr). intros l Hin.
    rewrite lookup_insert_ne; [reflexivity|]. intros ->. contradiction.
  - exact Hdis'.
  - exists F'. split; [exact HP|]. split.
    { intros Hin. apply Hsub' in Hin. apply elem_of_union in Hin as [?|?];
        [contradiction|]. apply Hn. set_solver. }
    repeat split.
    + intros l Hin Hnot.
      assert (l <> l0) by (intros ->; apply Hnot; set_solver).
      rewrite lookup_insert_ne by congruence.
      apply H1; [assumption|set_solver|assumption].
    + intros l Hin. apply elem_of_union in Hin as [Hin|Hin]; [left; set_solver|].
      apply Hsub' in Hin. apply elem_of_union in Hin as [Hin|Hin].
      * destruct (H2 _ Hin); [left; set_solver|right; assumption].
      * left. set_solver.
    + intros l Hin. destruct (decide (l = l0)) as [->|Hne].
      * rewrite lookup_insert_eq. eauto.
      * rewrite lookup_insert_ne by congruence. apply H3, Hin.
Qed.

Section Step.

Variable fields : list string.
Variable rec_t : value -> string -> option (outcome value).
Variable rec_s : store -> sval -> string -> option (result sval).
Hypothesis rec_follows : forall σ F sv v ctx,
  repr σ F sv v -> follows σ F sv (rec_t v ctx) (rec_s σ sv ctx).

(** The value of a property is compiled and written back. *)
Lemma recurse_write_obj l0 σ sps ps F k c :
  σ !! l0 = Some (CObj sps) -> repr_props σ F sps ps -> l0 ∉ F ->
  follows_obj l0 σ F
    (let! r := rec_t (Obj.read (Params.name k) ps) c in
     Some (Returns (Params.write k r (VObj ps))))
    (Store.bind (rec_s σ (default SUndefined (Obj.get (Params.name k) sps)) c)
       (fun σ r => Some (Ret (Store.write σ k r (SRef l0)) tt))).
Proof.
  intros Hl Hps Hn.
  pose proof (proj2 (proj2 (repr_dom σ)) _ _ _ Hps) as Hdom.
  destruct (repr_props_focus σ (Params.name k) F sps ps Hps)
    as (Fc & Fr & Hc & Hdis & Hsub & Hplug & _).
  pose proof (rec_follows σ Fc _ _ c Hc) as Hrec.
  destruct (rec_t (Obj.read (Params.name k) ps) c) as [[q|e]|];
    cbn [follows bind follows_obj] in *; [| |exact I].
  2:{ destruct Hrec as (σ' & ->). exists σ'. reflexivity. }
  destruct Hrec as (σ1 & Fc' & -> & Hq & H1 & H2 & H3). cbn [Store.bind].
  assert (Hl1 : σ1 !! l0 = Some (CObj sps)).
  { rewrite H1; [exact Hl|rewrite Hl; eauto|]. intros Hin. apply Hn. set_solver. }
  unfold Store.write. rewrite Hl1. cbn [Params.write].
  edestruct (write_back l0 σ F (CObj sps)
               (CObj (Obj.set (Params.name k) (default SUndefined (Obj.get (Params.name k) sps)) sps))
               σ1 Fc Fr Fc' (default SUndefined (Obj.get (Params.name k) sps)) q
               (fun σ' F' => repr_props σ' F'
                  (Obj.set (Params.name k) (default SUndefined (Obj.get (Params.name k) sps)) sps)
                  (Obj.set (Params.name k) q ps)))
    as (F' & HP & Hn' & Hp'); try eassumption.
  - intros l Hin Hnot _. apply H1; assumption.
  - intros σ' Hfr Hr Hd. apply Hplug; assumption.
  - eexists _, _, _, F'. split; [reflexivity|]. split; [reflexivity|].
    split; [apply lookup_insert_eq|]. split; [exact HP|]. split; assumption.
Qed.

Lemma iteratee_follows_arr l0 σ sxs xs F ctx i :
  σ !! l0 = Some (CArr sxs) -> repr_list σ F sxs xs -> l0 ∉ F ->
  follows_arr l0 σ F
    (iteratee rec_t fields ctx (KIdx i) (VArr xs))
    (Store.iteratee rec_s fields ctx (SRef l0) σ (KIdx i)).
Proof.
  intros Hl Hxs Hn.
  pose proof (proj1 (proj2 (repr_dom σ)) _ _ _ Hxs) as Hdom.
  rewrite iteratee_index. unfold Store.iteratee.
  cbn [Store.resolve_modifier Store.bind Params.read]. unfold Store.read. rewrite Hl.
  destruct (repr_list_focus σ F sxs xs Hxs i) as (Fc & Fr & Hc & Hdis & Hsub & Hplug).
  pose proof (rec_follows σ Fc _ _ ctx Hc) as Hrec.
  destruct (rec_t (nth i xs VUndefined) ctx) as [[q|e]|];
    cbn [follows bind follows_arr] in *; [| |exact I].
  2:{ destruct Hrec as (σ' & ->). exists σ'. reflexivity. }
  destruct Hrec as (σ1 & Fc' & -> & Hq & H1 & H2 & H3). cbn [Store.bind].
  assert (Hl1 : σ1 !! l0 = Some (CArr sxs)).
  { rewrite H1; [exact Hl|rewrite Hl; eauto|]. intros Hin. apply Hn. set_solver. }
  unfold Store.write. rewrite Hl1. cbn [Params.write].
  edestruct (write_back l0 σ F (CArr sxs)
               (CArr (Store.array_set i (nth i sxs SUndefined) sxs))
               σ1 Fc Fr Fc' (nth i sxs SUndefined) q
               (fun σ' F' => repr_list σ' F'
                  (Store.array_set i (nth i sxs SUndefined) sxs)
                  (Params.array_set i q xs)))
    as (F' & HP & Hn' & Hp'); try eassumption.
  - intros l Hin Hnot _. apply H1; assumption.
  - intros σ' Hfr Hr Hd. apply Hplug; assumption.
  - eexists _, _, _, F'. split; [reflexivity|]. split; [reflexivity|].
    split; [apply lookup_insert_eq|]. split; [exact HP|]. split; assumption.
Qed.


(** A call of the iteratee on an object. *)
Lemma iteratee_follows_obj l0 σ sps ps F ctx k :
  σ !! l0 = Some (CObj sps) -> repr_props σ F sps ps -> l0 ∉ F ->
  follows_obj l0 σ F
    (iteratee rec_t fields ctx k (VObj ps))
    (Store.iteratee rec_s fields ctx (SRef l0) σ k).
Proof.
  intros Hl Hps Hn.
  pose proof (proj2 (proj2 (repr_dom σ)) _ _ _ Hps) as Hdom.
  destruct k as [i|s].
  { rewrite iteratee_index. unfold Store.iteratee.
    cbn [Store.resolve_modifier Store.bind Params.read]. unfold Store.read. rewrite Hl.
    apply (recurse_write_obj l0 σ sps ps F (KIdx i) ctx Hl Hps Hn). }
  rewrite iteratee_name. unfold Store.iteratee, Store.resolve_modifier, has_modifier.
  unfold Store.read. rewrite Hl. cbn [Params.name].
  destruct (repr_props_focus σ s F sps ps Hps)
    as (Fc & Fr & Hc & Hdis & Hsub & Hplug & Hdel).
  destruct (Str.mem (List.last (Str.split "." s) "") fieldModifiers) eqn:Hm.
  - unfold Store.delete. rewrite Hl. cbn [Params.name]. fold (strip s).
    set (σ1 := <[l0 := CObj (Obj.delete s sps)]> σ).
    assert (Hc1 : repr σ1 Fc (default SUndefined (Obj.get s sps)) (Obj.read s ps)).
    { apply (proj1 (repr_frame σ) _ _ _ Hc). intros l Hin. unfold σ1.
      apply lookup_insert_ne. intros ->. apply Hn. set_solver. }
    pose proof (repr_processModifier σ1 Fc (List.last (Str.split "." s) "") _ _ Hc1) as Hpm.
    destruct (processModifier (List.last (Str.split "." s) "") (Obj.read s ps))
      as [d|e] eqn:Hd.
    2:{ destruct Hpm as (σ' & ->). cbn [Store.bind follows_obj]. exists σ'. reflexivity. }
    destruct Hpm as (σ2 & sd & Fd & -> & Hsd & H1 & H2 & H3). cbn [Store.bind].
    assert (Hl2 : σ2 !! l0 = Some (CObj (Obj.delete s sps))).
    { rewrite H1; unfold σ1.
      - apply lookup_insert_eq.
      - rewrite lookup_insert_eq. eauto.
      - intros Hin. apply Hn. set_solver. }
    assert (Hw : Store.write σ2 (KStr (strip s)) sd (SRef l0)
                 = <[l0 := CObj (Obj.set (strip s) sd (Obj.delete s sps))]> σ2).
    { unfold Store.write. rewrite Hl2. reflexivity. }
    rewrite Hw. clear Hw.
    rewrite (repr_typeof _ _ _ _ Hsd),
      (directive_typeof d (processModifier_is_directive _ _ _ Hm Hd)).
    destruct (Hdel σ) as (Fdel & Hsubd & Hpsd); [reflexivity|].
    destruct (repr_props_focus σ (strip s) _ _ _ Hpsd)
      as (Fc2 & Fr2 & _ & _ & Hsub2 & Hplug2 & _).
    edestruct (write_back l0 σ F (CObj sps)
                 (CObj (Obj.set (strip s) sd (Obj.delete s sps)))
                 σ2 Fc Fr2 Fd sd d
                 (fun σ' F' => repr_props σ' F'
                    (Obj.set (strip s) sd (Obj.delete s sps))
                    (Obj.set (strip s) d (Obj.delete s ps))))
      as (F3 & Hps3 & Hn3 & Hp3); try eassumption.
    { set_solver. }
    { set_solver. }
    { intros l Hin Hnot Hne. rewrite H1; unfold σ1.
      - apply lookup_insert_ne. congruence.
      - rewrite lookup_insert_ne by congruence. assumption.
      - assumption. }
    { intros l Hin. destruct (H2 _ Hin) as [?|Hnone]; [auto|]. right.
      unfold σ1 in Hnone. destruct (decide (l0 = l)) as [->|Hne].
      - rewrite lookup_insert_eq in Hnone. discriminate.
      - rewrite lookup_insert_ne in Hnone by assumption. assumption. }
    { intros l Hin. apply H3. unfold σ1. destruct (decide (l0 = l)) as [->|Hne].
      - rewrite lookup_insert_eq. eauto.
      - rewrite lookup_insert_ne by assumption. assumption. }
    { intros σ' Hfr Hr Hd'. apply Hplug2; assumption. }
    set (σ3 := <[l0 := CObj (Obj.set (strip s) sd (Obj.delete s sps))]> σ2) in *.
    assert (Hl3 : σ3 !! l0 = Some (CObj (Obj.set (strip s) sd (Obj.delete s sps))))
      by apply lookup_insert_eq.
    apply (follows_obj_trans l0 σ σ3 F F3); [exact Hp3|].
    assert (Hgo : forall c,
      follows_obj l0 σ3 F3
        (let! r := rec_t d c in
         Some (Returns (VObj (Obj.set (strip s) r
                                (Obj.set (strip s) d (Obj.delete s ps))))))
        (Store.bind (rec_s σ3 sd c)
           (fun σ r => Some (Ret (Store.write σ (KStr (strip s)) r (SRef l0)) tt)))).
    { intros c.
      pose proof (recurse_write_obj l0 σ3 _ _ F3 (KStr (strip s)) c Hl3 Hps3 Hn3) as H.
      cbn [Params.name Params.write] in H. unfold Obj.read in H.
      rewrite !get_set_eq in H. exact H. }
    destruct (Str.mem (strip s) queryOperatorIgnore); apply Hgo.
  - cbn [Store.bind]. rewrite (repr_typeof _ _ _ _ Hc).
    destruct (Js.typeof_object (Obj.read s ps)).
    + unfold context_under.
      destruct (Str.mem s queryOperatorIgnore);
        apply (recurse_write_obj l0 σ sps ps F (KStr s) _ Hl Hps Hn).
    + unfold allowed.
      destruct (Str.mem (field_of ctx (KStr s)) fields || Str.mem s queryOperatorIgnore) eqn:Ha.
      * replace (negb (Str.mem (field_of ctx (KStr s)) fields)
                 && negb (Str.mem s queryOperatorIgnore)) with false
          by (destruct (Str.mem (field_of ctx (KStr s)) fields),
                (Str.mem s queryOperatorIgnore); cbn in *; congruence).
        cbn [follows_obj]. eexists _, _, _, _.
        split; [reflexivity|]. split; [reflexivity|].
        split; [exact Hl|]. split; [exact Hps|]. split; [exact Hn|].
        apply preserves_refl.
      * replace (negb (Str.mem (field_of ctx (KStr s)) fields)
                 && negb (Str.mem s queryOperatorIgnore)) with true
          by (destruct (Str.mem (field_of ctx (KStr s)) fields),
                (Str.mem s queryOperatorIgnore); cbn in *; congruence).
        unfold Store.delete. rewrite Hl. cbn [Params.name follows_obj].
        edestruct (write_back l0 σ F (CObj sps) (CObj (Obj.delete s sps))
                     σ ∅ Fr ∅ SUndefined VUndefined
                     (fun σ' F' => repr_props σ' F'
                        (Obj.delete s sps) (Obj.delete s ps)))
          as (F' & HP & Hn' & Hp'); try eassumption.
        { set_solver. }
        { set_solver. }
        { reflexivity. }
        { auto. }
        { auto. }
        { constructor. }
        { intros σ' Hfr _ _. destruct (Hdel σ' Hfr) as (F' & ? & ?).
          exists F'. split; [set_solver|assumption]. }
        eexists _, _, _, F'. split; [reflexivity|]. split; [reflexivity|].
        split; [apply lookup_insert_eq|]. split; [exact HP|]. split; assumption.
Qed.

Lemma each_follows_obj l0 ctx ks :
  forall σ sps ps F,
  σ !! l0 = Some (CObj sps) -> repr_props σ F sps ps -> l0 ∉ F ->
  follows_obj l0 σ F
    (each (iteratee rec_t fields ctx) ks (VObj ps))
    (Store.each (Store.iteratee rec_s fields ctx (SRef l0)) ks σ).
Proof.
  induction ks as [|k ks IH]; intros σ sps ps F Hl Hps Hn; cbn [each Store.each].
  - eexists _, _, _, _. split; [reflexivity|]. split; [reflexivity|].
    split; [exact Hl|]. split; [exact Hps|]. split; [exact Hn|apply preserves_refl].
  - pose proof (iteratee_follows_obj l0 σ sps ps F ctx k Hl Hps Hn) as Hstep.
    destruct (iteratee rec_t fields ctx k (VObj ps)) as [[q|e]|];
      cbn [bind follows_obj] in *; [| |exact I].
    + destruct Hstep as (σ' & sps' & ps' & F' & -> & -> & Hl' & Hps' & Hn' & Hp).
      cbn [Store.bind]. eapply follows_obj_trans; [exact Hp|]. eapply IH; eassumption.
    + destruct Hstep as (σ' & ->). exists σ'. reflexivity.
Qed.

Lemma each_follows_arr l0 ctx idxs :
  forall σ sxs xs F,
  σ !! l0 = Some (CArr sxs) -> repr_list σ F sxs xs -> l0 ∉ F ->
  follows_arr l0 σ F
    (each (iteratee rec_t fields ctx) (map KIdx idxs) (VArr xs))
    (Store.each (Store.iteratee rec_s fields ctx (SRef l0)) (map KIdx idxs) σ).
Proof.
  induction idxs as [|i idxs IH]; intros σ sxs xs F Hl Hxs Hn; cbn [map each Store.each].
  - eexists _, _, _, _. split; [reflexivity|]. split; [reflexivity|].
    split; [exact Hl|]. split; [exact Hxs|]. split; [exact Hn|apply preserves_refl].
  - pose proof (iteratee_follows_arr l0 σ sxs xs F ctx i Hl Hxs Hn) as Hstep.
    destruct (iteratee rec_t fields ctx (KIdx i) (VArr xs)) as [[q|e]|];
      cbn [bind follows_arr] in *; [| |exact I].
    + destruct Hstep as (σ' & sxs' & xs' & F' & -> & -> & Hl' & Hxs' & Hn' & Hp).
      cbn [Store.bind]. eapply follows_arr_trans; [exact Hp|]. eapply IH; eassumption.
    + destruct Hstep as (σ' & ->). exists σ'. reflexivity.
Qed.

End Step.

Lemma repr_props_get σ s F sps ps :
  repr_props σ F sps ps ->
  match Obj.get s ps with
  | Some v => exists sv Fc, Obj.get s sps = Some sv /\ repr σ Fc sv v
  | None => Obj.get s sps = None
  end.
Proof.
  induction 1 as [|k F1 F2 sv v sps ps Hv Hps IH Hd]; cbn [Obj.get]; [reflexivity|].
  destruct (String.eqb s k); eauto.
Qed.

(** [_.each] visits the same keys. *)
Lemma repr_each_keys σ F sv v :
  repr σ F sv v -> Store.each_keys σ sv = each_keys v.
Proof.
  destruct 1 as [| | | | |l F p pv flags Hl|l F sxs xs Hl Hxs Hn|l F sps ps Hl Hps Hn];
    cbn [Store.each_keys each_keys]; try reflexivity; rewrite Hl.
  - reflexivity.
  - rewrite (repr_list_length _ _ _ _ Hxs). reflexivity.
  - unfold array_length. rewrite (repr_props_keys _ _ _ _ Hps).
    pose proof (repr_props_get σ "length" F sps ps Hps) as Hg.
    destruct (Obj.get "length" ps) as [v|].
    + destruct Hg as (sv & Fc & -> & Hr). destruct Hr as [| | |n| | | |]; try reflexivity.
      destruct n; reflexivity.
    + rewrite Hg. reflexivity.
Qed.

(** The compiler on the store follows the compiler on trees: run on
    a value that stands for a tree, it throws when the compiler on trees
    throws, and otherwise it returns the value it was given, which then
    stands for the compiled tree; the objects outside the footprint of
    the value are left as they were. *)
Lemma compile_follows fuel fields :
  forall σ F sv v ctx,
  repr σ F sv v ->
  follows σ F sv (buildQueryFromParams_fuel fuel v fields ctx)
    (Store.buildQueryFromParams_fuel fuel σ sv fields ctx).
Proof.
  induction fuel as [|fuel IH]; intros σ F sv v ctx Hv; [exact I|].
  rewrite buildQueryFromParams_fuel_S. cbn [Store.buildQueryFromParams_fuel].
  rewrite (repr_isObject _ _ _ _ Hv), (repr_each_keys _ _ _ _ Hv).
  destruct Hv as [| | | | |l F p pv flags Hl Hp Hn|l F sxs xs Hl Hxs Hn|l F sps ps Hl Hps Hn];
    cbn [Js.isObject negb each_keys each follows Store.each Store.bind];
    try (eexists _, _; split; [reflexivity|];
         split; [constructor|apply preserves_refl]).
  - eexists _, _. split; [reflexivity|].
    split; [eapply repr_regexp; eassumption|apply preserves_refl].
  - pose proof (each_follows_arr fields _ _ IH l ctx (seq 0 (length xs)) σ sxs xs F Hl Hxs Hn)
      as Hloop.
    destruct (each _ (map KIdx (seq 0 (length xs))) (VArr xs)) as [[q|e]|];
      cbn [follows_arr] in Hloop; [| |exact I].
    + destruct Hloop as (σ' & sxs' & xs' & F' & -> & -> & Hl' & Hxs' & Hn' & Hp).
      cbn [Store.bind]. eexists _, _. split; [reflexivity|].
      split; [eapply repr_arr; eassumption|exact Hp].
    + destruct Hloop as (σ' & ->). exists σ'. reflexivity.
  - pose proof (fun ks => each_follows_obj fields _ _ IH l ctx ks σ sps ps F Hl Hps Hn)
      as Hloop.
    match goal with |- context [each ?f ?ks (VObj ps)] =>
      specialize (Hloop ks); destruct (each f ks (VObj ps)) as [[q|e]|] end;
      cbn [follows_obj] in Hloop; [| |exact I].
    + destruct Hloop as (σ' & sps' & ps' & F' & -> & -> & Hl' & Hps' & Hn' & Hp).
      cbn [Store.bind]. eexists _, _. split; [reflexivity|].
      split; [eapply repr_obj; eassumption|exact Hp].
    + destruct Hloop as (σ' & ->). exists σ'. reflexivity.
Qed.

End CompilerStoreFollowsCompilerTrees.

(** *** Payloads as a request delivers them *)

Section PayloadsRequestDeliversThem.

Context {engine : RegExpEngine} {store_engine : Store.StoreEngine}.

Lemma value_nested_ind (P : value -> Prop) :
  P VUndefined -> P VNull -> (forall b, P (VBool b)) -> (forall n, P (VNum n)) ->
  (forall s, P (VStr s)) ->
  (forall p flags, P p -> P (VRegExp p flags)) ->
  (forall xs, (forall x, In x xs -> P x) -> P (VArr xs)) ->
  (forall ps, (forall k x, In (k, x) ps -> P x) -> P (VObj ps)) ->
  forall v, P v.
Proof.
  intros Hu Hn Hb Hnum Hs Hre Harr Hobj. fix IH 1.
  intros [| |b|n|s|p flags|xs|ps];
    [exact Hu|exact Hn|apply Hb|apply Hnum|apply Hs|apply Hre, IH| |].
  - apply Harr. induction xs as [|x xs IHxs]; intros y Hy; [destruct Hy|].
    destruct Hy as [<-|Hy]; [apply IH|apply IHxs; assumption].
  - apply Hobj. induction ps as [|[k x] ps IHps]; intros k' y Hy; [destruct Hy|].
    destruct Hy as [[= <- <-]|Hy]; [apply IH|eapply IHps; eassumption].
Qed.

Lemma repr_alloc σ F c :
  (forall l, l ∈ F -> is_Some (σ !! l)) ->
  forall σ' sv, Store.alloc σ c = (σ', sv) ->
  exists l, sv = SRef l /\ σ' !! l = Some c /\ (l ∉ F)
            /\ (forall l', l' ∈ F -> σ' !! l' = σ !! l')
            /\ preserves σ σ' F ({[l]} ∪ F).
Proof.
  intros Hdom σ' sv Ha. apply alloc_spec in Ha as (l & -> & Hl & ->).
  assert (Hn : l ∉ F). { intros Hin. destruct (Hdom _ Hin). congruence. }
  exists l. split; [reflexivity|]. split; [apply lookup_insert_eq|]. split; [exact Hn|].
  split.
  - intros l' Hin. apply lookup_insert_ne. intros ->. contradiction.
  - repeat split.
    + intros l' [c' Hc'] _. apply lookup_insert_ne. congruence.
    + intros l' Hin. apply elem_of_union in Hin as [Hin|Hin]; [|auto].
      apply elem_of_singleton in Hin. subst. auto.
    + intros l' [c' Hc']. destruct (decide (l = l')) as [->|Hne]; [congruence|].
      rewrite lookup_insert_ne by assumption. eauto.
Qed.

Lemma preserves_new σ σ1 σ2 F1 F2 :
  preserves σ σ1 ∅ F1 -> preserves σ1 σ2 ∅ F2 -> preserves σ σ2 ∅ (F1 ∪ F2).
Proof.
  intros (H1 & H2 & H3) (K1 & K2 & K3).
  assert (Hnone : forall l, σ1 !! l = None -> σ !! l = None).
  { intros l Hl. destruct (σ !! l) eqn:E; [|reflexivity].
    destruct (H3 l) as [c' Hc]; [rewrite E; eauto|]. congruence. }
  repeat split.
  - intros l Hl Hn. rewrite K1, H1; auto.
  - intros l Hl. right. apply elem_of_union in Hl as [Hl|Hl].
    + destruct (H2 _ Hl) as [?|?]; [set_solver|assumption].
    + destruct (K2 _ Hl) as [?|?]; [set_solver|auto].
  - auto.
Qed.

Lemma repr_kept σ σ' F F' :
  preserves σ σ' ∅ F' ->
  (forall l, l ∈ F -> is_Some (σ !! l)) ->
  (forall l, l ∈ F -> σ' !! l = σ !! l) /\ F ## F'.
Proof.
  intros (H1 & H2 & _) Hdom. split.
  - intros l Hl. apply H1; [auto|set_solver].
  - apply elem_of_disjoint. intros l Hl Hl'.
    destruct (H2 _ Hl') as [?|Hnone]; [set_solver|].
    destruct (Hdom _ Hl). congruence.
Qed.

Lemma load_list_repr xs :
  (forall x, In x xs -> forall σ,
     exists F, repr (load σ x).1 F (load σ x).2 x /\ preserves σ (load σ x).1 ∅ F) ->
  forall σ, exists F,
    repr_list (load_list load σ xs).1 F (load_list load σ xs).2 xs
    /\ preserves σ (load_list load σ xs).1 ∅ F.
Proof.
  induction xs as [|x xs IH]; intros Hxs σ; cbn [load_list].
  - exists ∅. split; [constructor|apply preserves_refl].
  - destruct (Hxs x (or_introl eq_refl) σ) as (F1 & Hr1 & Hp1).
    destruct (load σ x) as [σ1 sx]. cbn [fst snd] in *.
    destruct (IH (fun y Hy => Hxs y (or_intror Hy)) σ1) as (F2 & Hr2 & Hp2).
    destruct (load_list load σ1 xs) as [σ2 sxs]. cbn [fst snd] in *.
    destruct (repr_kept σ1 σ2 F1 F2 Hp2 (proj1 (repr_dom σ1) _ _ _ Hr1)) as [Hfr Hdis].
    exists (F1 ∪ F2). split; [|eapply preserves_new; eassumption].
    apply repr_cons; [|assumption|assumption].
    apply (proj1 (repr_frame σ1) _ _ _ Hr1). assumption.
Qed.

Lemma load_props_repr ps :
  (forall k x, In (k, x) ps -> forall σ,
     exists F, repr (load σ x).1 F (load σ x).2 x /\ preserves σ (load σ x).1 ∅ F) ->
  forall σ, exists F,
    repr_props (load_props load σ ps).1 F (load_props load σ ps).2 ps
    /\ preserves σ (load_props load σ ps).1 ∅ F.
Proof.
  induction ps as [|[k x] ps IH]; intros Hps σ; cbn [load_props].
  - exists ∅. split; [constructor|apply preserves_refl].
  - destruct (Hps k x (or_introl eq_refl) σ) as (F1 & Hr1 & Hp1).
    destruct (load σ x) as [σ1 sx]. cbn [fst snd] in *.
    destruct (IH (fun k' y Hy => Hps k' y (or_intror Hy)) σ1) as (F2 & Hr2 & Hp2).
    destruct (load_props load σ1 ps) as [σ2 sps]. cbn [fst snd] in *.
    destruct (repr_kept σ1 σ2 F1 F2 Hp2 (proj1 (repr_dom σ1) _ _ _ Hr1)) as [Hfr Hdis].
    exists (F1 ∪ F2). split; [|eapply preserves_new; eassumption].
    apply repr_props_cons; [|assumption|assumption].
    apply (proj1 (repr_frame σ1) _ _ _ Hr1). assumption.
Qed.

(** A loaded tree stands for itself, in new objects. *)
Lemma load_repr v :
  forall σ, exists F,
    repr (load σ v).1 F (load σ v).2 v /\ preserves σ (load σ v).1 ∅ F.
Proof.
  induction v as [| |b|n|s|p flags IH|xs IH|ps IH] using value_nested_ind;
    intros σ; cbn [load];
    try (exists ∅; split; [constructor|apply preserves_refl]).
  - destruct (IH σ) as (F & Hr & Hp).
    destruct (load σ p) as [σ1 sp]. cbn [fst snd] in *.
    destruct (Store.alloc σ1 (CRegExp sp flags)) as [σ2 sv] eqn:Ha.
    apply (repr_alloc σ1 F) in Ha as (l & -> & Hl & Hn & Hfr & Hp2);
      [|apply (proj1 (repr_dom σ1) _ _ _ Hr)].
    exists ({[l]} ∪ F). cbn [fst snd]. split.
    + eapply repr_regexp; [exact Hl| |exact Hn].
      apply (proj1 (repr_frame σ1) _ _ _ Hr). assumption.
    + eapply preserves_trans; eassumption.
  - destruct (load_list_repr xs IH σ) as (F & Hr & Hp).
    destruct (load_list load σ xs) as [σ1 sxs]. cbn [fst snd] in *.
    destruct (Store.alloc σ1 (CArr sxs)) as [σ2 sv] eqn:Ha.
    apply (repr_alloc σ1 F) in Ha as (l & -> & Hl & Hn & Hfr & Hp2);
      [|apply (proj1 (proj2 (repr_dom σ1)) _ _ _ Hr)].
    exists ({[l]} ∪ F). cbn [fst snd]. split.
    + eapply repr_arr; [exact Hl| |exact Hn].
      apply (proj1 (proj2 (repr_frame σ1)) _ _ _ Hr). assumption.
    + eapply preserves_trans; eassumption.
  - destruct (load_props_repr ps IH σ) as (F & Hr & Hp).
    destruct (load_props load σ ps) as [σ1 sps]. cbn [fst snd] in *.
    destruct (Store.alloc σ1 (CObj sps)) as [σ2 sv] eqn:Ha.
    apply (repr_alloc σ1 F) in Ha as (l & -> & Hl & Hn & Hfr & Hp2);
      [|apply (proj2 (proj2 (repr_dom σ1)) _ _ _ Hr)].
    exists ({[l]} ∪ F). cbn [fst snd]. split.
    + eapply repr_obj; [exact Hl| |exact Hn].
      apply (proj2 (proj2 (repr_frame σ1)) _ _ _ Hr). assumption.
    + eapply preserves_trans; eassumption.
Qed.

(** The compiler on a payload laid out in the store: whatever the
    store held before is left alone, and the payload's object holds the
    compiled query, or the compiler throws as it does on trees. *)
Lemma compile_loaded v fields ctx σ :
  match buildQueryFromParams v fields ctx with
  | Some (Returns q) =>
      exists σ' F',
        Store.buildQueryFromParams_fuel (fuel_for v) (load σ v).1 (load σ v).2 fields ctx
        = Some (Ret σ' (load σ v).2)
        /\ repr σ' F' (load σ v).2 q
        /\ forall l, is_Some (σ !! l) -> σ' !! l = σ !! l
  | Some (Throws e) =>
      exists σ',
        Store.buildQueryFromParams_fuel (fuel_for v) (load σ v).1 (load σ v).2 fields ctx
        = Some (Thr σ' e)
  | None => False
  end.
Proof.
  destruct (load_repr v σ) as (F & Hr & H1 & H2 & H3).
  pose proof (compile_follows (fuel_for v) fields _ _ _ _ ctx Hr) as Hf.
  destruct (compile_total (fuel_for v) v fields ctx (le_n _)) as (r & Hret & _).
  unfold buildQueryFromParams. rewrite Hret in *.
  destruct r as [q|e]; cbn [follows] in Hf; [|exact Hf].
  destruct Hf as (σ' & F' & Hs & Hq & K1 & _).
  exists σ', F'. split; [exact Hs|]. split; [exact Hq|].
  intros l Hl. rewrite K1.
  - apply H1; [exact Hl|set_solver].
  - apply H3, Hl.
  - intros Hin. destruct (H2 _ Hin) as [?|Hnone]; [set_solver|].
    destruct Hl. congruence.
Qed.

Lemma repr_truthy σ F sv v : repr σ F sv v -> Store.truthy sv = Js.truthy v.
Proof. destruct 1; reflexivity. Qed.

(** The handler [saveDocument] on a payload as a decoded request
    delivers it: the payload's own object holds the compiled document
    afterwards. *)
Lemma saveDocument_loaded v fields σ :
  Js.truthy v = true ->
  match buildQueryFromParams v fields "" with
  | Some (Returns q) =>
      exists σ' F',
        Store.saveDocument (fuel_for v) (load σ v).1 (load σ v).2 fields
        = Some (Ret σ' (load σ v).2)
        /\ repr σ' F' (load σ v).2 q
        /\ forall l, is_Some (σ !! l) -> σ' !! l = σ !! l
  | Some (Throws e) =>
      exists σ',
        Store.saveDocument (fuel_for v) (load σ v).1 (load σ v).2 fields
        = Some (Thr σ' e)
  | None => False
  end.
Proof.
  intros Ht. destruct (load_repr v σ) as (F & Hr & _).
  unfold Store.saveDocument, Store.or_new_object.
  rewrite (repr_truthy _ _ _ _ Hr), Ht.
  exact (compile_loaded v fields "" σ).
Qed.

End PayloadsRequestDeliversThem.

End Refinement.

Section PayloadsRequestDeliversThemExamples.

#[local] Existing Instance sample_engine.
#[local] Existing Instance sample_store_engine.

(** C8, as stated, fails.  The save handler compiles the payload
    itself: the payload [{"other": "y"}] is empty afterwards.  The find
    handler compiles a shallow clone: in the payload
    [{"name": {"bogus": "x"}}] the nested mapping, shared with the
    clone, is empty afterwards.  The create handler merges the body into
    the query object of the request and compiles that object: the query
    [{"other": "y"}] is [{"name": ...}] afterwards. *)
Lemma handlers_rewrite_the_payload :
  match Store.saveDocument 3 flat_payload
          (Store.SRef 1) ["name.first"; "name.last"; "email"] with
  | Some (Store.Ret σ' document) =>
      document = Store.SRef 1 /\ σ' !! 1%positive = Some (Store.CObj [])
  | _ => False
  end
  /\ match Store.findDocuments 3 nested_payload
            (Store.SRef 1) ["name.first"; "name.last"; "email"] with
     | Some (Store.Ret σ' query) =>
         σ' !! 2%positive = Some (Store.CObj [])
     | _ => False
     end
  /\ match Store.createDocument 3 request_store (Store.SRef 1) (Store.SRef 2)
            ["name.first"; "name.last"; "email"] with
     | Some (Store.Ret σ' document) =>
         document = Store.SRef 1
         /\ σ' !! 1%positive = Some (Store.CObj [("name", Store.SRef 3)])
     | _ => False
     end.
Proof. vm_compute. repeat split; reflexivity. Qed.

(** The compiler on the store and the compiler on trees agree on a
    payload with a nested mapping, a modifier and an array of
    sub-documents. *)
Example store_and_tree_agree :
  let fields := ["name.first"; "name.last"; "email"; "friends.email"] in
  match Store.reify 4 sample_payload (Store.SRef 1) with
  | Some params =>
      match Store.buildQueryFromParams_fuel 4 sample_payload (Store.SRef 1) fields "",
            buildQueryFromParams params fields "" with
      | Some (Store.Ret σ' v), Some (Returns q) =>
          Store.reify 4 σ' v = Some q
          /\ q = VObj [("name", VObj [("first", VStr "Jo")]);
                       ("friends", VArr [VObj [("email", VStr "f")]]);
                       ("email", regex_directive (VStr "a\.b") "")]
      | _, _ => False
      end
  | None => False
  end.
Proof. vm_compute. split; reflexivity. Qed.

(** They agree as well on operators, on a mapping with a numeric
    [length], and on the exception: up to the key that makes the
    compiler throw, the store has been rewritten. *)
Example store_and_tree_agree_on_throw :
  let fields := ["email"] in
  match Store.reify 4 operator_payload (Store.SRef 1) with
  | Some params =>
      match Store.buildQueryFromParams_fuel 4 operator_payload (Store.SRef 1) fields "",
            buildQueryFromParams params fields "" with
      | Some (Store.Thr σ' e), Some (Throws e') =>
          e = e'
          /\ Store.reify 4 σ' (Store.SRef 1)
             = Some (VObj [("$or", VArr [VObj [("email", VStr "a")]; VObj []]);
                           ("tags", VObj [("length", VNum (Int 2)); ("0", VObj []);
                                          ("evil", VStr "y"); ("1", VUndefined)])])
      | _, _ => False
      end
  | None => False
  end.
Proof. vm_compute. split; reflexivity. Qed.

(** The store [nested_payload] stands for the payload
    [{"name": {"bogus": "x"}}]. *)
Lemma nested_payload_repr :
  Store.repr nested_payload nested_payload_footprint (Store.SRef 1)
    (VObj [("name", VObj [("bogus", VStr "x")])]).
Proof.
  unfold nested_payload_footprint.
  eapply Store.repr_obj; [reflexivity| |set_solver].
  apply Store.repr_props_cons; [|constructor|set_solver].
  eapply Store.repr_obj; [reflexivity| |set_solver].
  apply Store.repr_props_cons; [constructor|constructor|set_solver].
Qed.

End PayloadsRequestDeliversThemExamples.

Section PayloadsRequestDeliversThem2.

Context {engine : RegExpEngine} {store_engine : Store.StoreEngine}.

(** C8, amended.  The compiler works in place: it returns the very
    object it was given, rewritten; on a store of plain data (ranked:
    no object contains itself) it ends.  A handler that hands it
    [_.extend({}, params)] then reaches the end of the compilation and
    keeps the payload's own object as it was (the properties of the
    payload itself), whenever nothing in the store refers to that
    object; the mappings nested in the payload stay shared with the
    clone and are rewritten in place.  As for the logical output, it is
    the one computed on trees: on a payload that stands for a tree
    (none of its objects is shared), the compiler throws when the
    compiler on trees throws, and otherwise the object it was given
    holds the compiled query afterwards, while the objects outside the
    payload are as they were.  So the handler [saveDocument], given a
    payload as a decoded request delivers it, leaves the compiled
    document in the payload's own object. *)
Theorem compiler_works_in_place :
  (forall fuel σ params fields context σ' v,
      Store.buildQueryFromParams_fuel fuel σ params fields context
      = Some (Store.Ret σ' v) ->
      v = params)
  /\ (forall ρ fuel (σ : gmap positive Store.cell) params fields context,
        Store.ranked ρ σ ->
        (forall l, params = Store.SRef l -> is_Some (σ !! l)) ->
        (Store.weight ρ params <= fuel)%nat ->
        exists r,
          Store.buildQueryFromParams_fuel fuel σ params fields context = Some r)
  /\ (forall ρ fuel (σ : gmap positive Store.cell) l c fields,
        Store.ranked ρ σ -> σ !! l = Some c -> Store.unreferenced σ l ->
        (ρ l <= fuel)%nat ->
        exists r,
          Store.findDocuments fuel σ (Store.SRef l) fields = Some r
          /\ Store.store_of r !! l = Some c)
  /\ (forall fuel (σ : gmap positive Store.cell) F params v fields context,
        Store.repr σ F params v ->
        Store.follows σ F params
          (buildQueryFromParams_fuel fuel v fields context)
          (Store.buildQueryFromParams_fuel fuel σ params fields context))
  /\ (forall v fields (σ : gmap positive Store.cell),
        Js.truthy v = true ->
        let payload := (Store.load σ v).2 in
        match buildQueryFromParams v fields "" with
        | Some (Returns q) =>
            exists σ' n,
              Store.saveDocument (fuel_for v) (Store.load σ v).1 payload fields
              = Some (Store.Ret σ' payload)
              /\ Store.reify n σ' payload = Some q
              /\ forall l, is_Some (σ !! l) -> σ' !! l = σ !! l
        | Some (Throws e) =>
            exists σ',
              Store.saveDocument (fuel_for v) (Store.load σ v).1 payload fields
              = Some (Store.Thr σ' e)
        | None => False
        end).
Proof.
  split; [exact StoreFacts.compile_returns_params|]. split; [|split].
  - intros ρ fuel σ params fields context Hr Hp Hfuel.
    destruct (StoreFacts.compile_ends fuel σ ρ params fields context Hr Hp Hfuel)
      as (r & Hr' & _).
    eauto.
  - intros ρ fuel σ l c fields Hr Hl Hun Hfuel.
    destruct (StoreFacts.findDocuments_ends ρ fuel σ l fields Hr ltac:(eauto) Hfuel)
      as (r & Hr').
    exists r. split; [exact Hr'|].
    exact (StoreFacts.findDocuments_frame fuel σ l c fields r Hl Hun Hr').
  - split.
    + intros fuel σ F params v fields context Hv.
      exact (Refinement.compile_follows fuel fields σ F params v context Hv).
    + intros v fields σ Ht payload.
      pose proof (Refinement.saveDocument_loaded v fields σ Ht) as H.
      destruct (buildQueryFromParams v fields "") as [[q|e]|]; [|exact H|exact H].
      destruct H as (σ' & F' & Hs & Hq & Hfr).
      destruct (proj1 (Refinement.repr_reify σ') _ _ _ Hq) as [n Hn].
      exists σ', n. split; [exact Hs|]. split; [apply Hn; lia|exact Hfr].
Qed.

End PayloadsRequestDeliversThem2.

Section PayloadsRequestDeliversThemExamples2.

#[local] Existing Instance sample_engine.
#[local] Existing Instance sample_store_engine.

Lemma compiler_works_in_place_witness :
  Store.ranked nested_payload_rank nested_payload
  /\ nested_payload !! 1%positive = Some (Store.CObj [("name", Store.SRef 2)])
  /\ Store.unreferenced nested_payload 1
  /\ (nested_payload_rank 1 <= 4)%nat
  /\ (exists r,
      Store.findDocuments 4 nested_payload (Store.SRef 1)
        ["name.first"; "name.last"; "email"] = Some r
      /\ Store.store_of r !! 1%positive = Some (Store.CObj [("name", Store.SRef 2)]))
  /\ Store.repr nested_payload nested_payload_footprint (Store.SRef 1)
       (VObj [("name", VObj [("bogus", VStr "x")])])
  /\ Store.follows nested_payload nested_payload_footprint (Store.SRef 1)
       (buildQueryFromParams_fuel 3 (VObj [("name", VObj [("bogus", VStr "x")])])
          ["name.first"; "name.last"; "email"] "")
       (Store.buildQueryFromParams_fuel 3 nested_payload (Store.SRef 1)
          ["name.first"; "name.last"; "email"] "")
  /\ Js.truthy (VObj [("other", VStr "y")]) = true
  /\ (exists σ' n,
        Store.saveDocument 3 (Store.load ∅ (VObj [("other", VStr "y")])).1
          (Store.load ∅ (VObj [("other", VStr "y")])).2
          ["name.first"; "name.last"; "email"]
        = Some (Store.Ret σ' (Store.load ∅ (VObj [("other", VStr "y")])).2)
        /\ Store.reify n σ' (Store.load ∅ (VObj [("other", VStr "y")])).2
           = Some (VObj [])
        /\ forall l, is_Some ((∅ : gmap positive Store.cell) !! l) ->
                     σ' !! l = (∅ : gmap positive Store.cell) !! l).
Proof.
  assert (Hr : Store.ranked nested_payload_rank nested_payload).
  { intros l c Hl. unfold nested_payload in Hl.
    apply lookup_insert_Some in Hl as [[<- <-]|[_ Hl]].
    - cbn. split; [lia|]. intros k v [[= <- <-]|[]]. split; [cbn; lia|].
      intros l [= <-]. eexists. reflexivity.
    - apply lookup_singleton_Some in Hl as [<- <-].
      cbn. split; [lia|]. intros k v [[= <- <-]|[]]. split; [cbn; lia|discriminate]. }
  assert (H1 : nested_payload !! 1%positive = Some (Store.CObj [("name", Store.SRef 2)]))
    by reflexivity.
  assert (Hun : Store.unreferenced nested_payload 1).
  { intros l c Hl. unfold nested_payload in Hl.
    apply lookup_insert_Some in Hl as [[_ <-]|[_ Hl]].
    - cbn. intros [E|[]]. discriminate E.
    - apply lookup_singleton_Some in Hl as [_ <-].
      cbn. intros [E|[]]. discriminate E. }
  split; [exact Hr|]. split; [exact H1|]. split; [exact Hun|].
  split; [cbn; lia|].
  split; [|split; [exact nested_payload_repr|]].
  - exact (proj1 (proj2 (proj2 compiler_works_in_place)) nested_payload_rank 4%nat
             nested_payload 1%positive _ ["name.first"; "name.last"; "email"]
             Hr H1 Hun (le_n 4)).
  - split; [|split; [reflexivity|]].
    + exact (proj1 (proj2 (proj2 (proj2 compiler_works_in_place))) 3%nat nested_payload
               nested_payload_footprint (Store.SRef 1) _
               ["name.first"; "name.last"; "email"] "" nested_payload_repr).
    + exact (proj2 (proj2 (proj2 (proj2 compiler_works_in_place)))
               (VObj [("other", VStr "y")]) ["name.first"; "name.last"; "email"]
               ∅ eq_refl).
Defined.

End PayloadsRequestDeliversThemExamples2.

(** * The rest of the module *)

(** ** Projections *)

Section Projections.

Context {engine : RegExpEngine} {store_engine : Store.StoreEngine}.

(** No segment of a split holds the separator. *)
Lemma split_segments_free (c : ascii) (s seg : string) :
  In seg (Str.split c s) -> Projection.contains c seg = false.
Proof.
  unfold Str.split. revert seg. induction s as [|a s IH]; intros seg.
  - cbn. intros [<-|[]]. reflexivity.
  - cbn [Str.split_on]. destruct (Str.split_on c s) as [seg0 segs].
    destruct (Ascii.eqb a c) eqn:Hac.
    + intros [<-|H]; [reflexivity|]. apply IH. exact H.
    + intros [<-|H].
      * unfold Projection.contains. cbn [list_ascii_of_string existsb].
        rewrite Ascii.eqb_sym, Hac. apply (IH seg0). left. reflexivity.
      * apply IH. right. exact H.
Qed.

Lemma piece_name_free (piece : string) :
  Projection.contains ":" piece = false -> Projection.piece_name piece = piece.
Proof.
  intros H. unfold Projection.piece_name. rewrite (split_free _ _ H). reflexivity.
Qed.

(** A piece stores its value under its name. *)
Lemma add_piece_assign projection piece :
  Projection.add_piece projection piece
  = Projection.assign (Projection.piece_name piece) (Projection.piece_value piece)
      projection.
Proof.
  unfold Projection.add_piece, Projection.piece_value.
  destruct (Projection.contains ":" piece) eqn:H; [reflexivity|].
  rewrite (piece_name_free piece H). reflexivity.
Qed.

Lemma get_assign_eq k v (ps : props) :
  k <> "__proto__" -> Obj.get k (Projection.assign k v ps) = Some v.
Proof.
  intros Hk. unfold Projection.assign.
  destruct (String.eqb_spec k "__proto__"); [contradiction|]. apply get_set_eq.
Qed.

Lemma get_assign_ne k k' v (ps : props) :
  k <> k' -> Obj.get k' (Projection.assign k v ps) = Obj.get k' ps.
Proof.
  intros Hk. unfold Projection.assign.
  destruct (String.eqb k "__proto__"); [reflexivity|]. apply get_set_ne. exact Hk.
Qed.

Lemma get_assign_proto k v (ps : props) :
  Obj.get "__proto__" ps = None -> Obj.get "__proto__" (Projection.assign k v ps) = None.
Proof.
  intros H. unfold Projection.assign.
  destruct (String.eqb_spec k "__proto__") as [->|Hne]; [exact H|].
  rewrite get_set_ne by exact Hne. exact H.
Qed.

Lemma fold_add_piece k pieces : forall projection,
  k <> "__proto__" ->
  Obj.get k (fold_left Projection.add_piece pieces projection)
  = match Projection.last_piece k pieces with
    | Some piece => Some (Projection.piece_value piece)
    | None => Obj.get k projection
    end.
Proof.
  unfold Projection.last_piece.
  induction pieces as [|piece pieces IH] using rev_ind; intros projection Hk.
  - reflexivity.
  - rewrite fold_left_app, rev_app_distr. cbn [fold_left rev app find].
    rewrite add_piece_assign.
    destruct (String.eqb_spec (Projection.piece_name piece) k) as [<-|Hne].
    + apply get_assign_eq. exact Hk.
    + rewrite get_assign_ne by exact Hne. apply IH. exact Hk.
Qed.

Lemma fold_add_piece_proto pieces : forall projection,
  Obj.get "__proto__" projection = None ->
  Obj.get "__proto__" (fold_left Projection.add_piece pieces projection) = None.
Proof.
  induction pieces as [|piece pieces IH]; intros projection H; [exact H|].
  cbn [fold_left]. apply IH. rewrite add_piece_assign. apply get_assign_proto, H.
Qed.

(** Splitting what was joined gives the segments back, when none of
    them holds the separator. *)
Lemma split_join (c : ascii) (segs : list string) :
  segs <> [] ->
  (forall seg, In seg segs -> Projection.contains c seg = false) ->
  Str.split c (Str.join (String c EmptyString) segs) = segs.
Proof.
  induction segs as [|seg segs IH]; intros Hne Hfree; [contradiction|].
  rewrite join_cons. destruct segs as [|seg' segs].
  - apply split_free, Hfree. left. reflexivity.
  - change (seg ++ String c EmptyString ++ Str.join (String c EmptyString) (seg' :: segs))%string
      with (seg ++ String c (Str.join (String c EmptyString) (seg' :: segs)))%string.
    rewrite split_on_app, IH.
    + rewrite split_free by (apply Hfree; left; reflexivity). reflexivity.
    + discriminate.
    + intros s Hs. apply Hfree. right. exact Hs.
Qed.

Lemma find_plain_name k names :
  (forall n, In n names -> Projection.contains ":" n = false) ->
  match find (fun piece => String.eqb (Projection.piece_name piece) k) names with
  | Some piece => Str.mem k names = true /\ Projection.piece_value piece = VNum (Int 1)
  | None => Str.mem k names = false
  end.
Proof.
  unfold Str.mem. induction names as [|n names IH]; intros Hfree; [reflexivity|].
  cbn [find existsb].
  rewrite (piece_name_free n) by (apply Hfree; left; reflexivity).
  rewrite (String.eqb_sym k n).
  destruct (String.eqb n k).
  - split; [reflexivity|]. unfold Projection.piece_value.
    rewrite (Hfree n) by (left; reflexivity). reflexivity.
  - apply IH. intros m Hm. apply Hfree. right. exact Hm.
Qed.

Lemma mem_rev k (names : list string) : Str.mem k (rev names) = Str.mem k names.
Proof.
  unfold Str.mem. induction names as [|n names IH]; [reflexivity|].
  cbn [rev existsb]. rewrite existsb_app, IH. cbn [existsb].
  rewrite orb_false_r. apply orb_comm.
Qed.

Lemma hex_digit_plain c :
  Projection.hex_digit c = true -> Ascii.eqb "," c = false /\ Ascii.eqb ":" c = false.
Proof.
  unfold Projection.hex_digit. cbn [existsb]. intros H.
  repeat (apply orb_true_iff in H as [H|H];
          [apply Ascii.eqb_eq in H; subst; split; reflexivity|]).
  discriminate.
Qed.

Lemma hex_string_plain s :
  forallb Projection.hex_digit (list_ascii_of_string s) = true ->
  Projection.contains "," s = false /\ Projection.contains ":" s = false.
Proof.
  unfold Projection.contains. induction s as [|c s IH]; [split; reflexivity|].
  cbn [list_ascii_of_string forallb existsb]. intros H.
  apply andb_true_iff in H as [Hc Hs].
  destruct (hex_digit_plain c Hc) as [-> ->]. apply IH, Hs.
Qed.

(** X1.  What a projection holds under a name is what the last piece
    of the list with that name says: the second segment of the piece
    split on ":" (the text between its first colon and its second, or
    its end), or 1 for a piece without a colon; the name of a piece is
    its first segment.  A name no piece has is absent, and so is
    [__proto__], whatever the list says. *)
Theorem projection_last_piece_wins (fields k : string) :
  Obj.get k (Projection.buildProjectionFromString fields)
  = if String.eqb k "__proto__" then None
    else option_map Projection.piece_value
           (Projection.last_piece k (Str.split "," fields)).
Proof.
  unfold Projection.buildProjectionFromString.
  destruct (String.eqb_spec k "__proto__") as [->|Hk].
  - apply fold_add_piece_proto. reflexivity.
  - rewrite fold_add_piece by exact Hk.
    destruct (Projection.last_piece k (Str.split "," fields)); reflexivity.
Qed.

Example projection_second_segment :
  Projection.buildProjectionFromString "a:b:c,d" = [("a", VStr "b"); ("d", VNum (Int 1))].
Proof. reflexivity. Qed.

(** X2.  A list of plain field names, joined by commas, gives the
    projection that holds 1 under each of these names and nothing
    else. *)
Theorem projection_of_names (names : list string) (k : string) :
  names <> [] ->
  (forall n, In n names ->
     Projection.contains "," n = false /\ Projection.contains ":" n = false) ->
  Obj.get k (Projection.buildProjectionFromString (Str.join "," names))
  = if Str.mem k names && negb (String.eqb k "__proto__")
    then Some (VNum (Int 1)) else None.
Proof.
  intros Hne Hplain. unfold Projection.buildProjectionFromString.
  rewrite (split_join "," names Hne) by (intros n Hn; apply Hplain, Hn).
  destruct (String.eqb_spec k "__proto__") as [->|Hk].
  - rewrite andb_false_r. apply fold_add_piece_proto. reflexivity.
  - rewrite andb_true_r, fold_add_piece by exact Hk.
    unfold Projection.last_piece.
    pose proof (find_plain_name k (rev names)) as Hf.
    rewrite mem_rev in Hf.
    destruct (find _ (rev names)) as [piece|].
    + destruct Hf as [-> ->]; [|reflexivity].
      intros n Hn. apply Hplain, in_rev, Hn.
    + rewrite Hf; [reflexivity|].
      intros n Hn. apply Hplain, in_rev, Hn.
Qed.

End Projections.

Section ProjectionsExamples.

#[local] Existing Instance sample_engine.
#[local] Existing Instance sample_store_engine.

Lemma projection_of_names_witness :
  ["name"; "email"] <> []
  /\ (forall n, In n ["name"; "email"] ->
        Projection.contains "," n = false /\ Projection.contains ":" n = false)
  /\ Obj.get "email" (Projection.buildProjectionFromString (Str.join "," ["name"; "email"]))
     = Some (VNum (Int 1)).
Proof.
  assert (H1 : ["name"; "email"] <> []) by discriminate.
  assert (H2 : forall n, In n ["name"; "email"] ->
                 Projection.contains "," n = false /\ Projection.contains ":" n = false).
  { intros n [<-|[<-|[]]]; split; reflexivity. }
  split; [exact H1|]. split; [exact H2|].
  exact (projection_of_names ["name"; "email"] "email" H1 H2).
Defined.

End ProjectionsExamples.

Section Projections2.

Context {engine : RegExpEngine} {store_engine : Store.StoreEngine}.

(** X3.  The route [/:projection] leaves a segment that is a valid id
    to the route [/:id]: such a segment, read as a projection, would
    select the one field it spells. *)
Theorem valid_id_is_one_field (id : string) :
  Projection.isValidId id = true ->
  Projection.buildProjectionFromString id = [(id, VNum (Int 1))].
Proof.
  unfold Projection.isValidId. intros H. apply andb_true_iff in H as [Hlen Hhex].
  destruct (hex_string_plain id Hhex) as [Hcomma Hcolon].
  unfold Projection.buildProjectionFromString.
  rewrite (split_free "," id Hcomma). cbn [fold_left].
  unfold Projection.add_piece, Projection.assign. rewrite Hcolon.
  destruct (String.eqb_spec id "__proto__") as [->|_]; [discriminate Hlen|].
  reflexivity.
Qed.

End Projections2.

Section ProjectionsExamples2.

#[local] Existing Instance sample_engine.
#[local] Existing Instance sample_store_engine.

Lemma valid_id_is_one_field_witness :
  Projection.isValidId "507f1f77bcf86cd799439011" = true
  /\ Projection.buildProjectionFromString "507f1f77bcf86cd799439011"
     = [("507f1f77bcf86cd799439011", VNum (Int 1))].
Proof.
  split; [reflexivity|].
  exact (valid_id_is_one_field "507f1f77bcf86cd799439011" eq_refl).
Defined.

End ProjectionsExamples2.

(** ** The whitelist of a model *)

Section WhitelistModel.

Context {engine : RegExpEngine} {store_engine : Store.StoreEngine}.

Lemma schema_nested_ind (P : Whitelist.schema -> Prop) :
  (forall paths vs,
     (forall key caster s', In (key, (caster, Some s')) paths -> P s') ->
     P (Whitelist.Schema paths vs)) ->
  forall s, P s.
Proof.
  intros Hs. fix IH 1. intros [paths vs]. apply Hs.
  induction paths as [|[key [caster sub]] paths IHp]; intros k c s' Hin; [destruct Hin|].
  destruct Hin as [[= <- <- E]|Hin].
  - destruct sub as [s''|]; [|discriminate E]. injection E as <-. apply IH.
  - eapply IHp. eassumption.
Qed.

Lemma fold_left_appends {A B} (f : list A -> B -> list A) (g : B -> list A) :
  (forall acc b, f acc b = acc ++ g b) ->
  forall bs acc, fold_left f bs acc = acc ++ flat_map g bs.
Proof.
  intros Hf. induction bs as [|b bs IH]; intros acc; cbn [fold_left flat_map].
  - rewrite app_nil_r. reflexivity.
  - rewrite IH, Hf, <- app_assoc. reflexivity.
Qed.

(** The fields a call adds to the array it was given. *)
Lemma getSchemaFields_appends ignore : forall s fields ctx,
  Whitelist.getSchemaFields ignore s fields ctx
  = fields ++ Whitelist.getSchemaFields ignore s [] ctx.
Proof.
  induction s as [paths vs IH] using schema_nested_ind. intros fields ctx.
  cbn [Whitelist.getSchemaFields].
  assert (Hstep : forall p, In p paths -> forall acc,
            Whitelist.add_path (Whitelist.getSchemaFields ignore) ignore ctx acc p
            = acc ++ Whitelist.add_path (Whitelist.getSchemaFields ignore) ignore ctx [] p).
  { intros [key [caster sub]] Hin acc. unfold Whitelist.add_path.
    destruct (Str.mem key ignore); [rewrite app_nil_r; reflexivity|].
    destruct sub as [s'|].
    - rewrite (IH key caster s' Hin (Whitelist.getSchemaFields ignore s' _ _)).
      rewrite (IH key caster s' Hin (if caster then acc ++ _ else acc)).
      rewrite (IH key caster s' Hin (Whitelist.getSchemaFields ignore s' _ _)).
      rewrite (IH key caster s' Hin (if caster then [] ++ _ else [])).
      destruct caster; rewrite <- ?app_assoc; reflexivity.
    - destruct caster; rewrite <- ?app_assoc; reflexivity. }
  clear IH. revert fields. induction paths as [|p paths IHp]; intros fields.
  - cbn. rewrite app_nil_r. reflexivity.
  - cbn [fold_left].
    rewrite IHp by (intros q Hq; apply Hstep; right; exact Hq).
    rewrite (IHp (fun q Hq => Hstep q (or_intror Hq)) (Whitelist.add_path _ _ _ [] p)).
    rewrite (Hstep p (or_introl eq_refl) fields), <- app_assoc. reflexivity.
Qed.

Lemma string_app_assoc (a b c : string) : ((a ++ b) ++ c = a ++ (b ++ c))%string.
Proof.
  induction a as [|x a IH]; [reflexivity|]. rewrite !append_cons, IH. reflexivity.
Qed.

Lemma add_path_appends ignore ctx acc p :
  Whitelist.add_path (Whitelist.getSchemaFields ignore) ignore ctx acc p
  = acc ++ Whitelist.add_path (Whitelist.getSchemaFields ignore) ignore ctx [] p.
Proof.
  destruct p as [key [caster sub]]. unfold Whitelist.add_path.
  destruct (Str.mem key ignore); [rewrite app_nil_r; reflexivity|].
  destruct sub as [s'|].
  - rewrite (getSchemaFields_appends ignore s' (Whitelist.getSchemaFields ignore s' _ _)).
    rewrite (getSchemaFields_appends ignore s' (if caster then acc ++ _ else acc)).
    rewrite (getSchemaFields_appends ignore s'
               (Whitelist.getSchemaFields ignore s' (if caster then [] ++ _ else []) _)).
    rewrite (getSchemaFields_appends ignore s' (if caster then [] ++ _ else [])).
    destruct caster; rewrite <- ?app_assoc; reflexivity.
  - destruct caster; rewrite <- ?app_assoc; reflexivity.
Qed.

(** The fields of a schema, path by path. *)
Lemma getSchemaFields_paths ignore paths vs fields ctx :
  Whitelist.getSchemaFields ignore (Whitelist.Schema paths vs) fields ctx
  = fields
    ++ flat_map (Whitelist.add_path (Whitelist.getSchemaFields ignore) ignore ctx []) paths.
Proof.
  cbn [Whitelist.getSchemaFields]. apply fold_left_appends.
  intros acc p. apply add_path_appends.
Qed.

(** What one path contributes. *)
Lemma add_path_fields ignore ctx key caster sub :
  Whitelist.add_path (Whitelist.getSchemaFields ignore) ignore ctx [] (key, (caster, sub))
  = if Str.mem key ignore then []
    else
      let field := field_of ctx (KStr key) in
      (if caster then [(field ++ ".$")%string] else [])
      ++ match sub with
         | Some s' =>
             Whitelist.getSchemaFields ignore s' [] field
             ++ Whitelist.getSchemaFields ignore s' [] (field ++ ".$")%string
         | None => []
         end
      ++ [field].
Proof.
  unfold Whitelist.add_path. destruct (Str.mem key ignore); [reflexivity|].
  cbv zeta. destruct sub as [s'|].
  - rewrite (getSchemaFields_appends ignore s' (Whitelist.getSchemaFields ignore s' _ _)).
    rewrite (getSchemaFields_appends ignore s' (if caster then [] ++ _ else [])).
    destruct caster; rewrite <- ?app_assoc; reflexivity.
  - destruct caster; reflexivity.
Qed.

Lemma field_of_context ctx key :
  ctx <> "" -> field_of ctx (KStr key) = (ctx ++ "." ++ key)%string.
Proof.
  intros H. unfold field_of. destruct (String.eqb_spec ctx ""); [contradiction|].
  reflexivity.
Qed.

Lemma field_of_top key : field_of "" (KStr key) = key.
Proof. reflexivity. Qed.

(** Under a context, the fields of a schema are its fields, each after
    the context and a dot. *)
Lemma getSchemaFields_context ignore : forall s ctx,
  Whitelist.named s = true -> ctx <> "" ->
  Whitelist.getSchemaFields ignore s [] ctx
  = map (fun f => (ctx ++ "." ++ f)%string) (Whitelist.getSchemaFields ignore s [] "").
Proof.
  induction s as [paths vs IH] using schema_nested_ind. intros ctx Hnamed Hctx.
  rewrite !getSchemaFields_paths. cbn [app].
  cbn [Whitelist.named] in Hnamed. rewrite forallb_forall in Hnamed.
  clear vs. induction paths as [|[key [caster sub]] paths IHp]; [reflexivity|].
  cbn [flat_map]. rewrite map_app, <- IHp.
  2:{ intros k c s' Hin. apply (IH k c s'). right. exact Hin. }
  2:{ intros p Hp. apply Hnamed. right. exact Hp. }
  f_equal. clear IHp.
  specialize (Hnamed _ (or_introl eq_refl)). cbn [fst snd] in Hnamed.
  apply andb_true_iff in Hnamed as [Hkey Hsub].
  assert (Hk : key <> "").
  { intros ->. discriminate Hkey. }
  rewrite !add_path_fields. destruct (Str.mem key ignore); [reflexivity|].
  cbv zeta. rewrite field_of_top, (field_of_context ctx key Hctx).
  assert (Hpre : forall g, ((ctx ++ "." ++ key) ++ g = ctx ++ "." ++ key ++ g)%string).
  { intros g. rewrite !string_app_assoc. reflexivity. }
  rewrite !map_app. f_equal; [|f_equal].
  - destruct caster; [|reflexivity]. cbn [map]. rewrite Hpre. reflexivity.
  - destruct sub as [s'|]; [|reflexivity].
    pose proof (IH key caster s' (or_introl eq_refl)) as IHs.
    rewrite map_app.
    rewrite (IHs (ctx ++ "." ++ key)%string Hsub),
      (IHs ((ctx ++ "." ++ key) ++ ".$")%string Hsub),
      (IHs key Hsub Hk), (IHs (key ++ ".$")%string Hsub).
    + rewrite !map_map. f_equal; apply map_ext; intros g;
        rewrite !string_app_assoc; reflexivity.
    + apply append_nonempty, Hk.
    + apply append_nonempty, append_nonempty, Hctx.
    + apply append_nonempty, Hctx.
Qed.

Lemma mem_In x (xs : list string) : Str.mem x xs = true <-> In x xs.
Proof.
  unfold Str.mem. rewrite existsb_exists. split.
  - intros (y & Hy & E). apply String.eqb_eq in E. subst. exact Hy.
  - intros H. exists x. split; [exact H|apply String.eqb_refl].
Qed.

Lemma mem_false x (xs : list string) : Str.mem x xs = false <-> ~ In x xs.
Proof.
  rewrite <- mem_In. destruct (Str.mem x xs); split; intros H; congruence.
Qed.

Lemma contains_app c (a b : string) :
  Projection.contains c (a ++ b)%string
  = Projection.contains c a || Projection.contains c b.
Proof.
  unfold Projection.contains. induction a as [|x a IH]; [reflexivity|].
  rewrite append_cons. cbn [list_ascii_of_string existsb]. rewrite IH.
  apply orb_assoc.
Qed.

Lemma dotted_suffix (a b : string) :
  Projection.contains "." (a ++ "." ++ b)%string = true.
Proof. rewrite contains_app. apply orb_true_r. Qed.

(** A field without a dot is a path name of the top level that is not
    ignored. *)
Lemma getSchemaFields_dots ignore : forall s ctx f,
  In f (Whitelist.getSchemaFields ignore s [] ctx) ->
  Projection.contains "." f = true
  \/ (ctx = "" /\ Str.mem f ignore = false).
Proof.
  induction s as [paths vs IH] using schema_nested_ind. intros ctx f.
  rewrite getSchemaFields_paths. cbn [app]. rewrite in_flat_map.
  intros ([key [caster sub]] & Hp & Hf). rewrite add_path_fields in Hf.
  destruct (Str.mem key ignore) eqn:Hign; [destruct Hf|]. cbv zeta in Hf.
  assert (Hdot : forall g, Projection.contains "." (g ++ ".$")%string = true).
  { intros g. rewrite contains_app. apply orb_true_r. }
  apply in_app_or in Hf as [Hf|Hf].
  { destruct caster; [|destruct Hf]. destruct Hf as [<-|[]]. left. apply Hdot. }
  apply in_app_or in Hf as [Hf|[<-|[]]].
  - destruct sub as [s'|]; [|destruct Hf].
    apply in_app_or in Hf as [Hf|Hf].
    + destruct (IH key caster s' Hp _ _ Hf) as [H|[Hnil H]]; [left; exact H|].
      unfold field_of in Hnil. cbn [Params.name] in Hnil.
      destruct (String.eqb_spec ctx "") as [->|Hctx].
      * right. split; [reflexivity|exact H].
      * rewrite join_cons in Hnil.
        exfalso. exact (append_nonempty ctx _ Hctx Hnil).
    + destruct (IH key caster s' Hp _ _ Hf) as [H|[Hnil H]]; [left; exact H|].
      destruct (field_of ctx (KStr key)); discriminate Hnil.
  - unfold field_of. cbn [Params.name].
    destruct (String.eqb_spec ctx "") as [->|Hctx].
    + right. split; [reflexivity|exact Hign].
    + left. rewrite join_cons. apply dotted_suffix.
Qed.

Lemma uniq_step (xs : list string) : forall acc,
  (forall x, In x (fold_left
                     (fun results x => if Str.mem x results then results else results ++ [x])
                     xs acc) <-> In x acc \/ In x xs)
  /\ (NoDup acc ->
      NoDup (fold_left
               (fun results x => if Str.mem x results then results else results ++ [x])
               xs acc)).
Proof.
  induction xs as [|y xs IH]; intros acc; cbn [fold_left].
  - split; [|auto]. intros x. cbn [In]. tauto.
  - destruct (IH (if Str.mem y acc then acc else acc ++ [y])) as [Hin Hnd].
    destruct (Str.mem y acc) eqn:Hy.
    + split; [|exact Hnd]. intros x. rewrite Hin. cbn [In].
      apply mem_In in Hy. split; [tauto|]. intros [H|[<-|H]]; auto.
    + split.
      * intros x. rewrite Hin, in_app_iff. cbn [In]. tauto.
      * intros Hacc. apply Hnd. apply mem_false in Hy.
        apply NoDup_app. split; [exact Hacc|]. split.
        -- intros x Hx Hx'. apply list_elem_of_In in Hx, Hx'.
           destruct Hx' as [<-|[]]. contradiction.
        -- apply NoDup_singleton.
Qed.

End WhitelistModel.

(** ** The whitelist at work *)

Section WhitelistAtWork.

Context {engine : RegExpEngine} {store_engine : Store.StoreEngine}.

(** Compiling a mapping visited by name gives such a mapping, each
    property of which has passed the tests of the iteratee. *)
Lemma compile_mapping fuel ps fields ctx r :
  array_length ps = None ->
  buildQueryFromParams_fuel fuel (VObj ps) fields ctx = Some (Returns r) ->
  exists qs, r = VObj qs /\ array_length qs = None
             /\ forall s v, Obj.get s qs = Some v -> entry_ok fields ctx s v.
Proof.
  intros Hlen. destruct fuel as [|fuel]; [discriminate|].
  rewrite buildQueryFromParams_fuel_S. cbn [Js.isObject negb each_keys]. rewrite Hlen.
  intros H.
  apply (each_invariant
           (fun ks p =>
              (forall k, In k ks -> exists s, k = KStr s)
              /\ exists ps', p = VObj ps' /\ array_length ps' = None
                 /\ forall s v, Obj.get s ps' = Some v ->
                                In (KStr s) ks \/ entry_ok fields ctx s v))
    in H.
  - destruct H as (_ & qs & -> & Hlen' & Hall).
    exists qs. split; [reflexivity|]. split; [exact Hlen'|].
    intros s v Hget. destruct (Hall s v Hget) as [[]|H]. exact H.
  - split.
    { intros k Hk. apply each_keys_name in Hk as (s & -> & _). eauto. }
    exists ps. split; [reflexivity|]. split; [exact Hlen|].
    intros s v Hget. left. apply in_map. exact (get_Some_key _ _ _ Hget).
  - intros k ks' p p' (Hks & ps' & -> & Hlen' & Hall) Hf.
    destruct (Hks k (or_introl eq_refl)) as (s & ->).
    split; [intros k' Hk'; apply Hks; right; exact Hk'|].
    apply (compile_name_step fields ctx fuel s ks' ps' p'); auto.
    intros v c r'. apply compile_compiled.
Qed.

Lemma fields_In ignore s f :
  In f (Whitelist.fields ignore s)
  <-> In f (Whitelist.getSchemaFields ignore s [] "")
      \/ (In f (Whitelist.virtuals s) /\ Str.mem f ignore = false).
Proof.
  unfold Whitelist.fields, Whitelist.union, Whitelist.uniq.
  rewrite (proj1 (uniq_step _ [])). cbn [In].
  unfold Whitelist.getVirtualFields. cbn [app].
  rewrite in_app_iff, filter_In, negb_true_iff. tauto.
Qed.

Lemma ignored_not_in_fields ignore s i :
  In i ignore -> Projection.contains "." i = false ->
  Str.mem i (Whitelist.fields ignore s) = false.
Proof.
  intros Hi Hdot. apply mem_false. rewrite fields_In.
  apply mem_In in Hi. intros [Hf|[_ Hf]]; [|congruence].
  destruct (getSchemaFields_dots ignore s "" i Hf) as [H|[_ H]]; congruence.
Qed.

(** X4.  [getSchemaFields] only adds to the array it is given, and
    what it adds under a context is what it adds without one, each
    field after the context and a dot; this for a schema whose path
    names are not empty. *)
Theorem schema_fields_under_context ignore s fields ctx :
  Whitelist.named s = true -> ctx <> "" ->
  Whitelist.getSchemaFields ignore s fields ctx
  = fields ++ map (fun f => (ctx ++ "." ++ f)%string)
                (Whitelist.getSchemaFields ignore s [] "").
Proof.
  intros Hnamed Hctx.
  rewrite getSchemaFields_appends, (getSchemaFields_context ignore s ctx Hnamed Hctx).
  reflexivity.
Qed.

End WhitelistAtWork.

Section WhitelistAtWorkExamples.

#[local] Existing Instance sample_engine.
#[local] Existing Instance sample_store_engine.

Lemma schema_fields_under_context_witness :
  Whitelist.named sample_schema = true
  /\ "owner" <> ""
  /\ Whitelist.getSchemaFields ["__v"] sample_schema ["seen"] "owner"
     = ["seen"] ++ map (fun f => ("owner" ++ "." ++ f)%string)
                     (Whitelist.getSchemaFields ["__v"] sample_schema [] "").
Proof.
  assert (H1 : Whitelist.named sample_schema = true) by reflexivity.
  assert (H2 : "owner" <> "") by discriminate.
  split; [exact H1|]. split; [exact H2|].
  exact (schema_fields_under_context ["__v"] sample_schema ["seen"] "owner" H1 H2).
Defined.

End WhitelistAtWorkExamples.

Section WhitelistAtWork2.

Context {engine : RegExpEngine} {store_engine : Store.StoreEngine}.

(** X5.  A path that holds sub-documents is whitelisted itself, and
    so is each field of the sub-documents, once after the path and once
    after the path and [.$]. *)
Theorem subdocument_fields_whitelisted ignore paths vs key caster s' g :
  In (key, (caster, Some s')) paths ->
  Str.mem key ignore = false -> key <> "" -> Whitelist.named s' = true ->
  In g (Whitelist.getSchemaFields ignore s' [] "") ->
  In key (Whitelist.fields ignore (Whitelist.Schema paths vs))
  /\ In (key ++ "." ++ g)%string (Whitelist.fields ignore (Whitelist.Schema paths vs))
  /\ In ((key ++ ".$") ++ "." ++ g)%string
       (Whitelist.fields ignore (Whitelist.Schema paths vs)).
Proof.
  intros Hp Hign Hkey Hnamed Hg.
  assert (Hin : forall f,
            In f (Whitelist.add_path (Whitelist.getSchemaFields ignore) ignore ""
                    [] (key, (caster, Some s'))) ->
            In f (Whitelist.fields ignore (Whitelist.Schema paths vs))).
  { intros f Hf. apply fields_In. left. rewrite getSchemaFields_paths. cbn [app].
    apply in_flat_map. eexists. split; [exact Hp|exact Hf]. }
  rewrite add_path_fields, Hign in Hin. cbv zeta in Hin. rewrite field_of_top in Hin.
  rewrite (getSchemaFields_context ignore s' key Hnamed Hkey) in Hin.
  rewrite (getSchemaFields_context ignore s' (key ++ ".$")%string Hnamed) in Hin
    by (apply append_nonempty, Hkey).
  split; [|split]; apply Hin; rewrite !in_app_iff.
  - right. right. left. reflexivity.
  - right. left. left. apply (in_map (fun f => (key ++ "." ++ f)%string)), Hg.
  - right. left. right.
    apply (in_map (fun f => ((key ++ ".$") ++ "." ++ f)%string)), Hg.
Qed.

End WhitelistAtWork2.

Section WhitelistAtWorkExamples2.

#[local] Existing Instance sample_engine.
#[local] Existing Instance sample_store_engine.

Lemma subdocument_fields_whitelisted_witness :
  In ("friends", (true, Some friend_schema)) sample_paths
  /\ Str.mem "friends" ["__v"] = false
  /\ "friends" <> ""
  /\ Whitelist.named friend_schema = true
  /\ In "email" (Whitelist.getSchemaFields ["__v"] friend_schema [] "")
  /\ In "friends" (Whitelist.fields ["__v"] sample_schema)
  /\ In "friends.email" (Whitelist.fields ["__v"] sample_schema)
  /\ In "friends.$.email" (Whitelist.fields ["__v"] sample_schema).
Proof.
  assert (H1 : In ("friends", (true, Some friend_schema)) sample_paths).
  { right. right. right. left. reflexivity. }
  assert (H2 : "friends" <> "") by discriminate.
  assert (H3 : In "email" (Whitelist.getSchemaFields ["__v"] friend_schema [] "")).
  { right. right. left. reflexivity. }
  split; [exact H1|]. split; [reflexivity|]. split; [exact H2|].
  split; [reflexivity|]. split; [exact H3|].
  exact (subdocument_fields_whitelisted ["__v"] sample_paths _ "friends" true
           friend_schema "email" H1 eq_refl H2 eq_refl H3).
Defined.

End WhitelistAtWorkExamples2.

Section WhitelistAtWork3.

Context {engine : RegExpEngine} {store_engine : Store.StoreEngine}.

(** X6.  The whitelist of a model holds each field once: the fields
    of the schema first, then the names of the virtuals that are not
    ignored. *)
Theorem whitelist_holds_each_field_once ignore s :
  NoDup (Whitelist.fields ignore s)
  /\ forall f,
       In f (Whitelist.fields ignore s)
       <-> In f (Whitelist.getSchemaFields ignore s [] "")
           \/ (In f (Whitelist.virtuals s) /\ Str.mem f ignore = false).
Proof.
  split; [|intros f; apply fields_In].
  unfold Whitelist.fields, Whitelist.union, Whitelist.uniq.
  apply (proj2 (uniq_step _ [])). apply NoDup_nil_2.
Qed.

(** X7.  An ignored name without a dot ([__v]) is itself a field of
    no whitelist, whatever the schema.  (A field that only ends in it,
    as [meta.__v] for a path of that name, is another field.) *)
Theorem ignored_name_not_whitelisted ignore s i :
  In i ignore -> Projection.contains "." i = false ->
  Str.mem i (Whitelist.fields ignore s) = false.
Proof. exact (ignored_not_in_fields ignore s i). Qed.

End WhitelistAtWork3.

Section WhitelistAtWorkExamples3.

#[local] Existing Instance sample_engine.
#[local] Existing Instance sample_store_engine.

Lemma ignored_name_not_whitelisted_witness :
  In "__v" Whitelist.schemaFieldIgnore
  /\ Projection.contains "." "__v" = false
  /\ Str.mem "__v" (Whitelist.fields Whitelist.schemaFieldIgnore sample_schema) = false.
Proof.
  assert (H1 : In "__v" Whitelist.schemaFieldIgnore) by (left; reflexivity).
  split; [exact H1|]. split; [reflexivity|].
  exact (ignored_name_not_whitelisted Whitelist.schemaFieldIgnore sample_schema "__v"
           H1 eq_refl).
Defined.

End WhitelistAtWorkExamples3.

Section WhitelistAtWork4.

Context {engine : RegExpEngine} {store_engine : Store.StoreEngine}.


End WhitelistAtWork4.

Section WhitelistAtWorkExamples4.

#[local] Existing Instance sample_engine.
#[local] Existing Instance sample_store_engine.


End WhitelistAtWorkExamples4.

(** ** Pages *)

Section Pages.

Context {engine : RegExpEngine} {store_engine : Store.StoreEngine}.

(** X9.  The last page of the meta is a page [crud.find] can serve:
    for a positive count that is a safe integer and a positive limit,
    the offset of that page is short of the count, by a page at
    most. *)
Theorem last_page_reaches_the_end
    (parseInt toNumber : value -> number) (stringify : props -> string)
    (queryLimit queryOffset : value) (crud_count : value -> settled Z value)
    (path : option string) (params : props) (query : value) (count l : Z) :
  (forall n, toNumber (VNum n) = n) ->
  (0 < count)%Z -> Num.safe count -> (0 < l)%Z ->
  parseInt (Js.or_else (Obj.read "limit" params) queryLimit) = Int l ->
  crud_count query = Fulfilled count ->
  exists m offset,
    Meta.buildResultsMeta parseInt stringify queryLimit queryOffset crud_count
      path params query = Fulfilled m
    /\ Paging.calculateDocumentOffset toNumber (VNum (Meta.pages m)) (VNum (Int l))
       = Int offset
    /\ (0 <= offset < count)%Z /\ (count <= offset + l)%Z.
Proof.
  intros Hnum Hcount _ Hl Hlimit Hq.
  unfold Meta.buildResultsMeta. rewrite Hq, Hlimit. unfold then_.
  assert (Ht : Num.truthy (Int count) = true).
  { unfold Num.truthy. destruct (Z.eqb_spec count 0); [lia|reflexivity]. }
  assert (Hg : Num.gt (Int l) (Int 0) = true).
  { unfold Num.gt. apply Z.ltb_lt. exact Hl. }
  rewrite Ht, Hg. cbn [andb].
  destruct (ceil_div_spec count l Hl) as (q & Hq' & Hbound).
  eexists _, ((q - 1) * l)%Z. split; [reflexivity|]. cbn [Meta.pages].
  rewrite Hq'. unfold Paging.calculateDocumentOffset. rewrite !Hnum.
  assert (Hq1 : (1 <= q)%Z) by nia.
  unfold Paging.ge. destruct (Z.leb_spec 0 q); [|lia].
  cbn [Num.sub Num.mul]. split; [reflexivity|]. nia.
Qed.

End Pages.

Section PagesExamples.

#[local] Existing Instance sample_engine.
#[local] Existing Instance sample_store_engine.

Lemma last_page_reaches_the_end_witness :
  (forall n, parseInt_of_number (VNum n) = n)
  /\ (0 < 25)%Z /\ Num.safe 25 /\ (0 < 10)%Z
  /\ parseInt_of_number (Js.or_else (Obj.read "limit" [("limit", VNum (Int 10))])
                           (VNum (Int 0))) = Int 10
  /\ exists m offset,
       Meta.buildResultsMeta parseInt_of_number (fun _ => "") (VNum (Int 0)) (VNum (Int 0))
         (fun _ => Fulfilled 25%Z) None [("limit", VNum (Int 10))] (VObj [])
       = Fulfilled m
       /\ Paging.calculateDocumentOffset parseInt_of_number (VNum (Meta.pages m))
            (VNum (Int 10)) = Int offset
       /\ (0 <= offset < 25)%Z /\ (25 <= offset + 10)%Z.
Proof.
  assert (H1 : forall n, parseInt_of_number (VNum n) = n) by reflexivity.
  assert (Hs : Num.safe 25) by (unfold Num.safe, Num.max_safe; lia).
  split; [exact H1|]. split; [lia|]. split; [exact Hs|]. split; [lia|].
  split; [reflexivity|].
  exact (last_page_reaches_the_end parseInt_of_number parseInt_of_number (fun _ => "")
           (VNum (Int 0)) (VNum (Int 0)) (fun _ => Fulfilled 25%Z) None
           [("limit", VNum (Int 10))] (VObj []) 25 10 H1 ltac:(lia) Hs ltac:(lia)
           eq_refl eq_refl).
Defined.

End PagesExamples.

Section Pages2.

Context {engine : RegExpEngine} {store_engine : Store.StoreEngine}.

(** X10.  Where [crud.find] starts, by the page asked for, with a
    positive limit, as long as (page - 1) * limit is a safe integer:
    from the second page on it skips the pages before, whatever the
    default offset; on the first page it skips the default offset
    [config.queryOffset]; on page 0 it skips a negative number of
    documents. *)
Theorem find_offset_by_page
    (toNumber : value -> number) (queryLimit queryOffset querySort : value)
    (fields : list string) (query limit sort projection pageNum compiled_sort : value)
    (p l : Z) :
  toNumber pageNum = Int p ->
  toNumber (Js.or_else limit queryLimit) = Int l ->
  (0 < l)%Z -> (0 <= p)%Z -> Num.safe ((p - 1) * l) ->
  Paging.find_sort querySort sort fields = Some (Returns compiled_sort) ->
  exists plan,
    Paging.find toNumber queryLimit queryOffset querySort fields
      query limit sort projection pageNum = Some (Returns plan)
    /\ Paging.plan_skip plan
       = (if (p =? 1)%Z then queryOffset else VNum (Int ((p - 1) * l)))
    /\ (p = 0%Z -> Paging.plan_skip plan = VNum (Int (- l))).
Proof.
  intros Hp Hl Hlpos Hppos _ Hsort. unfold Paging.find. rewrite Hsort.
  cbn [bind]. eexists. split; [reflexivity|].
  cbn [Paging.plan_skip]. unfold Paging.calculateDocumentOffset.
  rewrite Hp, Hl. unfold Paging.ge. destruct (Z.leb_spec 0 p); [|lia].
  cbn [Num.sub Num.mul Num.truthy].
  destruct (Z.eqb_spec p 1) as [->|Hne].
  - split; [reflexivity|]. lia.
  - destruct (Z.eqb_spec ((p - 1) * l) 0) as [E|_]; [nia|].
    split; [reflexivity|]. intros ->.
    replace ((0 - 1) * l)%Z with (- l)%Z by lia. reflexivity.
Qed.

End Pages2.

Section PagesExamples2.

#[local] Existing Instance sample_engine.
#[local] Existing Instance sample_store_engine.

Lemma find_offset_by_page_witness :
  parseInt_of_number (VNum (Int 3)) = Int 3
  /\ parseInt_of_number (Js.or_else (VNum (Int 10)) (VNum (Int 0))) = Int 10
  /\ (0 < 10)%Z /\ (0 <= 3)%Z /\ Num.safe ((3 - 1) * 10)
  /\ Paging.find_sort (VObj []) (VStr "email:-1") ["email"]
     = Some (Returns (VObj [("email", VStr "-1")]))
  /\ exists plan,
       Paging.find parseInt_of_number (VNum (Int 0)) (VNum (Int 5)) (VObj []) ["email"]
         (VObj []) (VNum (Int 10)) (VStr "email:-1") VUndefined (VNum (Int 3))
       = Some (Returns plan)
       /\ Paging.plan_skip plan
          = (if (3 =? 1)%Z then VNum (Int 5) else VNum (Int ((3 - 1) * 10)))
       /\ (3%Z = 0%Z -> Paging.plan_skip plan = VNum (Int (- 10))).
Proof.
  assert (Hs : Num.safe ((3 - 1) * 10)) by (unfold Num.safe, Num.max_safe; lia).
  split; [reflexivity|]. split; [reflexivity|]. split; [lia|]. split; [lia|].
  split; [exact Hs|]. split; [reflexivity|].
  exact (find_offset_by_page parseInt_of_number (VNum (Int 0)) (VNum (Int 5)) (VObj [])
           ["email"] (VObj []) (VNum (Int 10)) (VStr "email:-1") VUndefined
           (VNum (Int 3)) _ 3 10 eq_refl eq_refl ltac:(lia) ltac:(lia) Hs eq_refl).
Defined.

End PagesExamples2.

(** ** Sorting *)

Section Sorting.

Context {engine : RegExpEngine} {store_engine : Store.StoreEngine}.

Lemma sort_params_length pieces : forall sort,
  array_length sort = None ->
  array_length (fold_left Paging.add_sort_param pieces sort) = None.
Proof.
  induction pieces as [|piece pieces IH]; intros sort Hs; [exact Hs|].
  cbn [fold_left]. apply IH. unfold Paging.add_sort_param, Projection.assign.
  destruct (String.eqb _ "__proto__"); [exact Hs|].
  unfold array_length in *.
  destruct (String.eqb_spec "length" (nth 0 (Str.split ":" piece) "")) as [E|Hne].
  - rewrite <- E, get_set_eq.
    destruct (Str.split ":" piece) as [|a [|b segs]]; reflexivity.
  - rewrite get_set_ne by (intros E; apply Hne; symmetry; exact E). exact Hs.
Qed.

(** X11.  The sort [crud.find] hands to mongoose holds a direction
    only under a whitelisted field or an operator: a sort on any other
    field is dropped without a word. *)
Theorem find_sort_whitelisted (querySort : value) (s : string) (fields : list string)
    (q : value) :
  s <> "" ->
  Paging.find_sort querySort (VStr s) fields = Some (Returns q) ->
  exists qs, q = VObj qs
             /\ forall k v, Obj.get k qs = Some v -> Js.typeof_object v = false ->
                            Str.mem k fields || Str.mem k queryOperatorIgnore = true.
Proof.
  intros Hs. unfold Paging.find_sort.
  destruct s as [|c s]; [contradiction|]. cbn [Js.truthy negb].
  unfold buildQueryFromParams. intros Hq.
  apply compile_mapping in Hq as (qs & -> & _ & Hall);
    [|apply sort_params_length; reflexivity].
  exists qs. split; [reflexivity|]. intros k v Hget Hv.
  destruct (Hall k v Hget) as (_ & Hscalar & _). exact (Hscalar Hv).
Qed.

End Sorting.

Section SortingExamples.

#[local] Existing Instance sample_engine.
#[local] Existing Instance sample_store_engine.

Lemma find_sort_whitelisted_witness :
  "name:1,secret:-1" <> ""
  /\ Paging.find_sort (VObj []) (VStr "name:1,secret:-1") ["name"; "email"]
     = Some (Returns (VObj [("name", VStr "1")]))
  /\ exists qs, VObj [("name", VStr "1")] = VObj qs
                /\ forall k v, Obj.get k qs = Some v -> Js.typeof_object v = false ->
                               Str.mem k ["name"; "email"]
                               || Str.mem k queryOperatorIgnore = true.
Proof.
  assert (H1 : "name:1,secret:-1" <> "") by discriminate.
  assert (H2 : Paging.find_sort (VObj []) (VStr "name:1,secret:-1") ["name"; "email"]
               = Some (Returns (VObj [("name", VStr "1")]))) by reflexivity.
  split; [exact H1|]. split; [exact H2|].
  exact (find_sort_whitelisted (VObj []) "name:1,secret:-1" ["name"; "email"] _ H1 H2).
Defined.

End SortingExamples.

Section Sorting2.

Context {engine : RegExpEngine} {store_engine : Store.StoreEngine}.

(** X12.  Sorting by a name that ends in a modifier and gives no
    direction makes [crud.find] throw: the modifier is applied to
    [undefined]. *)
Theorem find_sort_throws (querySort : value) (fields : list string) (f : string) :
  Projection.contains "," f = false -> Projection.contains ":" f = false ->
  has_modifier f = true ->
  Paging.find_sort querySort (VStr f) fields = Some (Throws TypeError).
Proof.
  intros Hcomma Hcolon Hmod. unfold Paging.find_sort.
  assert (Hf : f <> "") by (intros ->; discriminate Hmod).
  assert (Hp : f <> "__proto__") by (intros ->; discriminate Hmod).
  destruct f as [|c f']; [contradiction|]. cbn [Js.truthy negb].
  rewrite (split_free "," _ Hcomma). cbn [fold_left].
  unfold Paging.add_sort_param. rewrite (split_free ":" _ Hcolon).
  cbn [nth map]. unfold Projection.assign.
  destruct (String.eqb_spec (String c f') "__proto__"); [contradiction|].
  cbn [Obj.set]. unfold buildQueryFromParams.
  change (fuel_for (VObj [(String c f', VUndefined)])) with 2%nat.
  rewrite buildQueryFromParams_fuel_S. cbn [Js.isObject negb].
  assert (Hk : each_keys (VObj [(String c f', VUndefined)]) = [KStr (String c f')]).
  { unfold each_keys, array_length. cbn [Obj.get].
    destruct (String.eqb "length" (String c f')); reflexivity. }
  rewrite Hk. cbn [each]. rewrite iteratee_name, Hmod.
  unfold Obj.read. cbn [Obj.get]. rewrite String.eqb_refl.
  unfold has_modifier in Hmod.
  destruct (mem_fieldModifiers _ Hmod) as [-> | ->]; reflexivity.
Qed.

End Sorting2.

Section SortingExamples2.

#[local] Existing Instance sample_engine.
#[local] Existing Instance sample_store_engine.

Lemma find_sort_throws_witness :
  Projection.contains "," "name.contains" = false
  /\ Projection.contains ":" "name.contains" = false
  /\ has_modifier "name.contains" = true
  /\ Paging.find_sort (VObj []) (VStr "name.contains") ["name"] = Some (Throws TypeError).
Proof.
  split; [reflexivity|]. split; [reflexivity|]. split; [reflexivity|].
  exact (find_sort_throws (VObj []) ["name"] "name.contains" eq_refl eq_refl eq_refl).
Defined.

End SortingExamples2.

(** ** Responses of the routes *)

Section ResponsesRoutes.

Context {engine : RegExpEngine} {store_engine : Store.StoreEngine}.

(** The route [findDocuments] on a [_query] that is no JSON answers
    twice: a 500 at once, and then what a request without that fault
    is answered. *)
Lemma findDocuments_answers_twice (result : settled value value) (meta : value) :
  exists r,
    Routes.findDocuments_sends true result meta
    = [Routes.serveJson 500 (Routes.message "Unable to parese query string as JSON"); r]
    /\ Routes.respond Routes.FindDocuments result meta = [r].
Proof.
  destruct result as [a|e]; eexists; split; reflexivity.
Qed.

(** X14.  A rejected promise is answered with a body that holds a
    message and nothing else of the error: the message of the error
    when it has one that counts as true, and "Unknown error."
    otherwise, for any value of the error. *)
Theorem rejection_shows_message_only (h : Routes.handler) (error meta : value) :
  Routes.refuses h = false ->
  exists m,
    Routes.respond h (Rejected error) meta
    = [Routes.serveJson 500 (VObj [("message", m)])]
    /\ Js.truthy m = true
    /\ m = (if Js.truthy (Routes.message_of error) then Routes.message_of error
            else VStr "Unknown error.").
Proof.
  intros Hh.
  assert (Herr : Routes.message_of (Js.or_else error (VObj [])) = Routes.message_of error).
  { unfold Js.or_else. destruct (Js.truthy error) eqn:Ht; [reflexivity|].
    destruct error; try reflexivity. discriminate Ht. }
  exists (Js.or_else (Routes.message_of error) (VStr "Unknown error.")).
  split; [|split].
  - destruct h; try discriminate Hh; cbn [Routes.respond then_];
      unfold Routes.serveError; rewrite Herr; reflexivity.
  - unfold Js.or_else. destruct (Js.truthy (Routes.message_of error)) eqn:Hm;
      [exact Hm|reflexivity].
  - reflexivity.
Qed.

End ResponsesRoutes.

Section ResponsesRoutesExamples.

#[local] Existing Instance sample_engine.
#[local] Existing Instance sample_store_engine.

Lemma rejection_shows_message_only_witness :
  Routes.refuses Routes.DeleteDocumentById = false
  /\ exists m,
       Routes.respond Routes.DeleteDocumentById
         (Rejected (VObj [("message", VStr "Cast to ObjectId failed");
                          ("stack", VStr "CastError at ...")])) VUndefined
       = [Routes.serveJson 500 (VObj [("message", m)])]
       /\ Js.truthy m = true
       /\ m = (if Js.truthy (Routes.message_of
                               (VObj [("message", VStr "Cast to ObjectId failed");
                                      ("stack", VStr "CastError at ...")]))
               then Routes.message_of
                      (VObj [("message", VStr "Cast to ObjectId failed");
                             ("stack", VStr "CastError at ...")])
               else VStr "Unknown error.").
Proof.
  split; [reflexivity|].
  exact (rejection_shows_message_only Routes.DeleteDocumentById _ VUndefined eq_refl).
Defined.

End ResponsesRoutesExamples.

(** ** The compiler, property by property *)

Section CompilerPropertyProperty.

Context {engine : RegExpEngine} {store_engine : Store.StoreEngine}.

Section ObjAppend.

Context {V : Type}.
Implicit Types (ps qs : list (string * V)).

Lemma get_middle k (v : V) ps qs :
  ~ In k (Obj.keys ps) -> Obj.get k (ps ++ (k, v) :: qs) = Some v.
Proof.
  intros Hk. induction ps as [|[k' v'] ps IH]; cbn [app Obj.get].
  - rewrite String.eqb_refl. reflexivity.
  - destruct (String.eqb_spec k k') as [->|_].
    + destruct Hk. left. reflexivity.
    + apply IH. intros H. apply Hk. right. exact H.
Qed.

Lemma set_middle k (v r : V) ps qs :
  ~ In k (Obj.keys ps) -> Obj.set k r (ps ++ (k, v) :: qs) = ps ++ (k, r) :: qs.
Proof.
  intros Hk. induction ps as [|[k' v'] ps IH]; cbn [app Obj.set].
  - rewrite String.eqb_refl. reflexivity.
  - destruct (String.eqb_spec k k') as [->|_].
    + destruct Hk. left. reflexivity.
    + rewrite IH; [reflexivity|]. intros H. apply Hk. right. exact H.
Qed.

Lemma delete_absent k ps : ~ In k (Obj.keys ps) -> Obj.delete k ps = ps.
Proof.
  intros Hk. induction ps as [|[k' v'] ps IH]; cbn [Obj.delete]; [reflexivity|].
  destruct (String.eqb_spec k k') as [->|_].
  - destruct Hk. left. reflexivity.
  - rewrite IH; [reflexivity|]. intros H. apply Hk. right. exact H.
Qed.

Lemma delete_middle k (v : V) ps qs :
  ~ In k (Obj.keys ps) -> ~ In k (Obj.keys qs) ->
  Obj.delete k (ps ++ (k, v) :: qs) = ps ++ qs.
Proof.
  intros Hk Hq. induction ps as [|[k' v'] ps IH]; cbn [app Obj.delete].
  - rewrite String.eqb_refl. apply delete_absent, Hq.
  - destruct (String.eqb_spec k k') as [->|_].
    + destruct Hk. left. reflexivity.
    + rewrite IH; [reflexivity|]. intros H. apply Hk. right. exact H.
Qed.

Lemma keys_app ps qs : Obj.keys (ps ++ qs) = Obj.keys ps ++ Obj.keys qs.
Proof. apply map_app. Qed.

End ObjAppend.

Lemma each_entries recurse fields ctx : forall rest done,
  List.NoDup (Obj.keys (done ++ rest)) ->
  (forall k, In k (Obj.keys rest) -> has_modifier k = false) ->
  each (iteratee recurse fields ctx) (map KStr (Obj.keys rest)) (VObj (done ++ rest))
  = let! qs := Plain.entries recurse fields ctx rest in
    Some (Returns (VObj (done ++ qs))).
Proof.
  induction rest as [|[k v] rest IH]; intros done Hnd Hmod.
  - reflexivity.
  - change (Obj.keys ((k, v) :: rest)) with (k :: Obj.keys rest) in *.
    cbn [map each Plain.entries Plain.entry].
    rewrite keys_app in Hnd.
    change (Obj.keys ((k, v) :: rest)) with (k :: Obj.keys rest) in Hnd.
    pose proof Hnd as Hnd0.
    apply List.NoDup_remove in Hnd as [Hnd Hk]. rewrite in_app_iff in Hk.
    assert (Hkd : ~ In k (Obj.keys done)) by tauto.
    assert (Hkr : ~ In k (Obj.keys rest)) by tauto.
    rewrite iteratee_name, (Hmod k (or_introl eq_refl)).
    unfold Obj.read. rewrite (get_middle k v done rest Hkd).
    assert (IH' : forall x,
              List.NoDup (Obj.keys ((done ++ x) ++ rest)) ->
              each (iteratee recurse fields ctx) (map KStr (Obj.keys rest))
                (VObj (done ++ x ++ rest))
              = let! tail := Plain.entries recurse fields ctx rest in
                Some (Returns (VObj (done ++ x ++ tail)))).
    { intros x Hx. rewrite app_assoc, (IH (done ++ x) Hx).
      - destruct (Plain.entries recurse fields ctx rest) as [[tail|e]|]; cbn [bind];
          rewrite <- ?app_assoc; reflexivity.
      - intros k' Hk'. apply Hmod. right. exact Hk'. }
    assert (Hone : forall r : value, List.NoDup (Obj.keys ((done ++ [(k, r)]) ++ rest))).
    { intros r. rewrite !keys_app, <- app_assoc. exact Hnd0. }
    destruct (Js.typeof_object v).
    + destruct (recurse v (context_under ctx k)) as [[r|e]|]; cbn [bind];
        [|reflexivity|reflexivity].
      rewrite (set_middle k v r done rest Hkd).
      change (done ++ (k, r) :: rest) with (done ++ [(k, r)] ++ rest).
      rewrite (IH' [(k, r)] (Hone r)).
      destruct (Plain.entries recurse fields ctx rest) as [[tail|e]|]; reflexivity.
    + destruct (allowed fields ctx k); cbn [bind].
      * change (done ++ (k, v) :: rest) with (done ++ [(k, v)] ++ rest).
        rewrite (IH' [(k, v)] (Hone v)).
        destruct (Plain.entries recurse fields ctx rest) as [[tail|e]|]; reflexivity.
      * rewrite (delete_middle k v done rest Hkd Hkr).
        assert (Hnil : List.NoDup (Obj.keys ((done ++ []) ++ rest))).
        { rewrite app_nil_r, keys_app. exact Hnd. }
        change (done ++ rest) with (done ++ [] ++ rest).
        rewrite (IH' [] Hnil).
        destruct (Plain.entries recurse fields ctx rest) as [[tail|e]|]; reflexivity.
Qed.

(** More fuel changes nothing once the compiler has ended. *)
Lemma iteratee_more rec rec' fields ctx k p r :
  (forall v c r, rec v c = Some r -> rec' v c = Some r) ->
  iteratee rec fields ctx k p = Some r -> iteratee rec' fields ctx k p = Some r.
Proof.
  intros Hrec. unfold iteratee.
  destruct (resolve_modifier k (Params.read k p) p) as [[[[k' v'] p']|e]|];
    cbn [bind]; [|auto|auto].
  assert (Hb : forall c (f : value -> option (outcome value)),
            (let! r0 := rec v' c in f r0) = Some r ->
            (let! r0 := rec' v' c in f r0) = Some r).
  { intros c f. destruct (rec v' c) as [o|] eqn:E; [|discriminate].
    rewrite (Hrec _ _ _ E). auto. }
  destruct k' as [i|s]; [apply Hb|].
  destruct (Js.typeof_object v'); [|auto].
  destruct (Str.mem s queryOperatorIgnore); apply Hb.
Qed.

Lemma each_more (f g : key -> value -> option (outcome value)) ks : forall p r,
  (forall k p r, f k p = Some r -> g k p = Some r) ->
  each f ks p = Some r -> each g ks p = Some r.
Proof.
  induction ks as [|k ks IH]; intros p r Hfg; cbn [each]; [auto|].
  destruct (f k p) as [o|] eqn:E; [|discriminate].
  rewrite (Hfg _ _ _ E). destruct o as [p'|e]; cbn [bind]; [|auto].
  apply IH. exact Hfg.
Qed.

Lemma compile_more_fuel fuel : forall v fields ctx r,
  buildQueryFromParams_fuel fuel v fields ctx = Some r ->
  buildQueryFromParams_fuel (S fuel) v fields ctx = Some r.
Proof.
  induction fuel as [|fuel IH]; intros v fields ctx r; [discriminate|].
  rewrite (buildQueryFromParams_fuel_S (S fuel)), (buildQueryFromParams_fuel_S fuel).
  destruct (negb (Js.isObject v)); [auto|].
  apply each_more. intros k p r'. apply iteratee_more.
  intros v' c r''. apply IH.
Qed.

Lemma compile_enough_fuel fuel v fields ctx :
  (fuel_for v <= fuel)%nat ->
  buildQueryFromParams_fuel fuel v fields ctx = buildQueryFromParams v fields ctx.
Proof.
  intros Hle. unfold buildQueryFromParams.
  destruct (compile_total (fuel_for v) v fields ctx (le_n _)) as (r & Hr & _).
  rewrite Hr. induction Hle as [|m Hle IH]; [exact Hr|].
  apply compile_more_fuel, IH.
Qed.

Lemma entries_ext rec rec' fields ctx ps :
  (forall k v c, In (k, v) ps -> rec v c = rec' v c) ->
  Plain.entries rec fields ctx ps = Plain.entries rec' fields ctx ps.
Proof.
  induction ps as [|[k v] ps IH]; intros Hext; [reflexivity|].
  cbn [Plain.entries Plain.entry].
  rewrite (Hext k v (context_under ctx k) (or_introl eq_refl)), IH; [reflexivity|].
  intros k' v' c Hin. apply (Hext k'). right. exact Hin.
Qed.

(** Without modifiers and without a name twice, the compiler handles
    each property of a mapping on its own. *)
Lemma compile_plain ps fields ctx :
  Plain.plain ps -> array_length ps = None ->
  buildQueryFromParams (VObj ps) fields ctx
  = let! qs := Plain.entries (fun v c => buildQueryFromParams v fields c) fields ctx ps in
    Some (Returns (VObj qs)).
Proof.
  intros [Hnd Hmod] Hlen. unfold buildQueryFromParams at 1.
  cbn [fuel_for]. rewrite buildQueryFromParams_fuel_S.
  cbn [Js.isObject negb each_keys]. rewrite Hlen.
  rewrite (each_entries _ fields ctx ps [] Hnd Hmod). cbn [app].
  rewrite (entries_ext _ (fun v c => buildQueryFromParams v fields c)); [reflexivity|].
  intros k v c Hin. cbv beta. apply compile_enough_fuel.
  apply list_max_In. apply (in_map (fun kv => fuel_for (snd kv))) in Hin. exact Hin.
Qed.



End CompilerPropertyProperty.

Section CompilerPropertyPropertyExamples.

#[local] Existing Instance sample_engine.
#[local] Existing Instance sample_store_engine.


End CompilerPropertyPropertyExamples.

(** *** What the compiler removes *)

Section CompilerRemoves.

Context {engine : RegExpEngine} {store_engine : Store.StoreEngine}.





End CompilerRemoves.

Section CompilerRemovesExamples.

#[local] Existing Instance sample_engine.
#[local] Existing Instance sample_store_engine.


End CompilerRemovesExamples.

(** *** The names of a compiled mapping *)

Section NamesCompiledMapping.

Context {engine : RegExpEngine} {store_engine : Store.StoreEngine}.

Lemma set_keys_In {V} x k (v : V) ps :
  In x (Obj.keys (Obj.set k v ps)) -> x = k \/ In x (Obj.keys ps).
Proof.
  induction ps as [|[k' v'] ps IH]; cbn [Obj.set].
  - intros [<-|[]]. left. reflexivity.
  - destruct (String.eqb_spec k k') as [->|Hne].
    + intros H. right. exact H.
    + intros [<-|H]; [right; left; reflexivity|].
      destruct (IH H) as [->|Hin]; [left; reflexivity|right; right; exact Hin].
Qed.

Lemma set_keys_nodup {V} k (v : V) ps :
  List.NoDup (Obj.keys ps) -> List.NoDup (Obj.keys (Obj.set k v ps)).
Proof.
  induction ps as [|[k' v'] ps IH]; cbn [Obj.set]; intros Hnd.
  - repeat constructor. intros [].
  - destruct (String.eqb_spec k k') as [->|Hne]; [exact Hnd|].
    change (List.NoDup (k' :: Obj.keys ps)) in Hnd.
    change (List.NoDup (k' :: Obj.keys (Obj.set k v ps))).
    apply List.NoDup_cons_iff in Hnd as [Hk Hnd]. constructor; [|exact (IH Hnd)].
    intros Hin. apply set_keys_In in Hin as [->|Hin]; [apply Hne; reflexivity|].
    exact (Hk Hin).
Qed.

Lemma delete_keys_In {V} x k (ps : list (string * V)) :
  In x (Obj.keys (Obj.delete k ps)) -> In x (Obj.keys ps).
Proof.
  induction ps as [|[k' v'] ps IH]; cbn [Obj.delete]; [intros []|].
  destruct (String.eqb k k').
  - intros H. right. exact (IH H).
  - intros [<-|H]; [left; reflexivity|right; exact (IH H)].
Qed.

Lemma delete_keys_nodup {V} k (ps : list (string * V)) :
  List.NoDup (Obj.keys ps) -> List.NoDup (Obj.keys (Obj.delete k ps)).
Proof.
  induction ps as [|[k' v'] ps IH]; cbn [Obj.delete]; intros Hnd; [exact Hnd|].
  change (List.NoDup (k' :: Obj.keys ps)) in Hnd.
  apply List.NoDup_cons_iff in Hnd as [Hk Hnd].
  destruct (String.eqb k k'); [exact (IH Hnd)|].
  change (List.NoDup (k' :: Obj.keys (Obj.delete k ps))).
  constructor; [|exact (IH Hnd)]. intros Hin. exact (Hk (delete_keys_In _ _ _ Hin)).
Qed.

(** The compiler leaves no name twice in a mapping that had none twice. *)
Lemma compile_nodup fuel ps fields ctx qs :
  List.NoDup (Obj.keys ps) ->
  buildQueryFromParams_fuel fuel (VObj ps) fields ctx = Some (Returns (VObj qs)) ->
  List.NoDup (Obj.keys qs).
Proof.
  intros Hnd. destruct fuel as [|fuel]; [discriminate|].
  rewrite buildQueryFromParams_fuel_S. cbn [Js.isObject negb]. intros H.
  apply (each_invariant
           (fun _ p => exists ps', p = VObj ps' /\ List.NoDup (Obj.keys ps'))) in H.
  - destruct H as (ps' & [= <-] & H). exact H.
  - eauto.
  - intros k ks' p p' (ps' & -> & Hnd') Hf. destruct k as [i|s].
    + rewrite iteratee_index in Hf. apply bind_Returns in Hf as (r' & _ & [= <-]).
      cbn [Params.write]. eexists. split; [reflexivity|]. apply set_keys_nodup, Hnd'.
    + rewrite iteratee_name in Hf. destruct (has_modifier s).
      { destruct (processModifier _ _); [|discriminate].
        apply bind_Returns in Hf as (r' & _ & [= <-]).
        eexists. split; [reflexivity|].
        apply set_keys_nodup, set_keys_nodup, delete_keys_nodup, Hnd'. }
      destruct (Js.typeof_object _).
      { apply bind_Returns in Hf as (r' & _ & [= <-]).
        eexists. split; [reflexivity|]. apply set_keys_nodup, Hnd'. }
      destruct (allowed _ _ _); injection Hf as <-;
        (eexists; split; [reflexivity|]); [exact Hnd'|apply delete_keys_nodup, Hnd'].
Qed.


(** A property that holds an object is in the result, compiled in the
    context of its name. *)
Lemma entries_get rec fields ctx k v : forall ps qs,
  Plain.entries rec fields ctx ps = Some (Returns qs) ->
  Obj.get k ps = Some v -> Js.typeof_object v = true ->
  exists r, rec v (context_under ctx k) = Some (Returns r) /\ Obj.get k qs = Some r.
Proof.
  induction ps as [|[k' v'] ps IH]; intros qs; cbn [Plain.entries Obj.get];
    [discriminate|].
  intros He. apply bind_Returns in He as (head & Hh & He).
  apply bind_Returns in He as (tail & Ht & [= <-]).
  destruct (String.eqb_spec k k') as [->|Hne].
  - intros [= ->] Hty. cbn [Plain.entry] in Hh. rewrite Hty in Hh.
    apply bind_Returns in Hh as (r & Hr & [= <-]).
    exists r. split; [exact Hr|]. cbn [app Obj.get]. rewrite String.eqb_refl. reflexivity.
  - intros Hg Hty. destruct (IH tail Ht Hg Hty) as (r & Hr & Hgr).
    exists r. split; [exact Hr|]. cbn [Plain.entry] in Hh.
    apply String.eqb_neq in Hne.
    destruct (Js.typeof_object v').
    + apply bind_Returns in Hh as (r' & _ & [= <-]). cbn [app Obj.get].
      rewrite Hne. exact Hgr.
    + destruct (allowed fields ctx k'); injection Hh as <-; cbn [app Obj.get];
        [rewrite Hne|]; exact Hgr.
Qed.

End NamesCompiledMapping.

(** ** The queries of the socket handlers *)

Module HandlerFacts.
Import Store(loc, store, sval(..), cell(..), result(..), repr(..), repr_list(..),
  repr_props(..), preserves, follows).

Section QueriesSocketHandlers.

Context {engine : RegExpEngine} {store_engine : Store.StoreEngine}.

Lemma set_fresh {V} k (v : V) ps :
  Obj.get k ps = None -> Obj.set k v ps = ps ++ [(k, v)].
Proof.
  induction ps as [|[k' v'] ps IH]; cbn [Obj.get Obj.set app]; [reflexivity|].
  destruct (String.eqb k k'); [discriminate|]. intros H. rewrite (IH H). reflexivity.
Qed.

Lemma get_app_fresh {V} k (ps qs : list (string * V)) :
  Obj.get k ps = None -> Obj.get k (ps ++ qs) = Obj.get k qs.
Proof.
  induction ps as [|[k' v'] ps IH]; cbn [Obj.get app]; [reflexivity|].
  destruct (String.eqb k k'); [discriminate|exact IH].
Qed.

Lemma get_None_keys {V} k (ps : list (string * V)) :
  ~ In k (Obj.keys ps) -> Obj.get k ps = None.
Proof.
  intros H. destruct (Obj.get k ps) eqn:E; [|reflexivity].
  destruct H. exact (get_Some_key _ _ _ E).
Qed.

(** [_.extend] on an object with no property yet copies the
    properties of its source, in order. *)
Lemma fold_set_copies {V} (kvs : list (string * V)) : forall acc,
  List.NoDup (Obj.keys kvs) ->
  (forall k, In k (Obj.keys kvs) -> Obj.get k acc = None) ->
  fold_left (fun a kv => Obj.set (fst kv) (snd kv) a) kvs acc = acc ++ kvs.
Proof.
  unfold Obj.keys.
  induction kvs as [|[k v] kvs IH]; intros acc Hnd Hfresh; cbn [fold_left fst snd].
  - rewrite app_nil_r. reflexivity.
  - cbn [map fst] in Hnd. apply List.NoDup_cons_iff in Hnd as [Hk Hnd].
    rewrite set_fresh by (apply Hfresh; left; reflexivity).
    rewrite IH, <- app_assoc; [reflexivity|exact Hnd|].
    intros k' Hk'. rewrite get_app_fresh by (apply Hfresh; right; exact Hk').
    cbn [Obj.get]. destruct (String.eqb_spec k' k) as [->|_]; [contradiction|reflexivity].
Qed.

Lemma fold_write (lc : loc) kvs : forall acc (σ : store),
  σ !! lc = Some (CObj acc) ->
  fold_left (fun σ kv => Store.write σ (KStr (fst kv)) (snd kv) (SRef lc)) kvs σ
  = <[lc := CObj (fold_left (fun a kv => Obj.set (fst kv) (snd kv) a) kvs acc)]> σ.
Proof.
  induction kvs as [|[k v] kvs IH]; intros acc σ Hl; cbn [fold_left fst snd].
  - symmetry. apply insert_id. exact Hl.
  - unfold Store.write at 2. rewrite Hl. cbn [Params.name].
    rewrite (IH (Obj.set k v acc)) by apply lookup_insert_eq.
    apply insert_insert_eq.
Qed.

(** The clone [_.extend({}, source)] of an object. *)
Lemma extend_clone (σ : store) lc ls sps :
  lc <> ls -> σ !! lc = Some (CObj []) -> σ !! ls = Some (CObj sps) ->
  List.NoDup (Obj.keys sps) ->
  Store.extend σ (SRef lc) (SRef ls) = <[lc := CObj sps]> σ.
Proof.
  intros Hne Hc Hs Hnd. unfold Store.extend, Store.enumerable. rewrite Hs.
  rewrite (fold_write lc sps [] σ Hc), fold_set_copies; [reflexivity|exact Hnd|].
  reflexivity.
Qed.

Lemma repr_obj_inv (σ : store) F sv ps :
  repr σ F sv (VObj ps) ->
  exists l F' sps, sv = SRef l /\ F = {[l]} ∪ F' /\ σ !! l = Some (CObj sps)
                   /\ repr_props σ F' sps ps /\ l ∉ F'.
Proof. inversion 1; subst. eauto 10. Qed.

(** A value that is no object is held as it is. *)
Lemma repr_scalar (σ : store) F sv v :
  repr σ F sv v -> Js.isObject v = false -> forall σ' : store, repr σ' ∅ sv v.
Proof. destruct 1; try discriminate; intros _ σ'; constructor. Qed.

Lemma repr_read (σ : store) F sps ps k :
  repr_props σ F sps ps ->
  exists Fc, repr σ Fc (default SUndefined (Obj.get k sps)) (Obj.read k ps).
Proof.
  intros H. destruct (Refinement.repr_props_focus σ k F sps ps H) as (Fc & _ & Hc & _).
  eauto.
Qed.

(** [params.id || params._id] on the store and on trees. *)
Lemma repr_id_of (σ : store) F lp sps ps :
  σ !! lp = Some (CObj sps) -> repr_props σ F sps ps ->
  exists Fc, repr σ Fc (Handlers.id_of σ (SRef lp))
               (Js.or_else (Obj.read "id" ps) (Obj.read "_id" ps)).
Proof.
  intros Hl Hps. unfold Handlers.id_of, Store.read, Js.or_else. rewrite Hl.
  cbn [Params.name].
  destruct (repr_read σ F sps ps "id" Hps) as (F1 & H1).
  destruct (repr_read σ F sps ps "_id" Hps) as (F2 & H2).
  rewrite (Refinement.repr_truthy _ _ _ _ H1).
  destruct (Js.truthy (Obj.read "id" ps)); eauto.
Qed.

Lemma id_of_cell (σ σ' : store) lp :
  σ' !! lp = σ !! lp -> Handlers.id_of σ' (SRef lp) = Handlers.id_of σ (SRef lp).
Proof. intros H. unfold Handlers.id_of, Store.read. rewrite H. reflexivity. Qed.

(** The clone a handler compiles stands for the tree the payload
    stands for. *)
Lemma clone_repr (σ0 : store) F' lp sps ps :
  σ0 !! lp = Some (CObj sps) -> repr_props σ0 F' sps ps -> lp ∉ F' ->
  List.NoDup (Obj.keys ps) ->
  exists lc,
    σ0 !! lc = None
    /\ Store.alloc σ0 (CObj []) = (<[lc := CObj []]> σ0, SRef lc)
    /\ Store.extend (<[lc := CObj []]> σ0) (SRef lc) (SRef lp) = <[lc := CObj sps]> σ0
    /\ repr (<[lc := CObj sps]> σ0) ({[lc]} ∪ F') (SRef lc) (VObj ps).
Proof.
  intros Hl Hps Hn Hnd.
  destruct (Store.alloc σ0 (CObj [])) as [σ1 clone] eqn:Ha.
  apply Refinement.alloc_spec in Ha as (lc & -> & Hfresh & ->).
  assert (Hne : lc <> lp) by congruence.
  pose proof (proj2 (proj2 (Refinement.repr_dom σ0)) _ _ _ Hps) as Hdom.
  assert (Hc : lc ∉ F').
  { intros Hin. destruct (Hdom _ Hin). congruence. }
  exists lc. split; [exact Hfresh|]. split; [reflexivity|]. split.
  - rewrite (extend_clone _ lc lp sps Hne).
    + apply insert_insert_eq.
    + apply lookup_insert_eq.
    + rewrite lookup_insert_ne by exact Hne. exact Hl.
    + rewrite (Refinement.repr_props_keys _ _ _ _ Hps). exact Hnd.
  - eapply repr_obj; [apply lookup_insert_eq| |exact Hc].
    apply (proj2 (proj2 (Refinement.repr_frame σ0)) _ _ _ Hps).
    intros l Hin. apply lookup_insert_ne. intros ->. contradiction.
Qed.

End QueriesSocketHandlers.

(** *** The references a compiled clone keeps *)

Section ReferencesCompiledCloneKeeps.

Context {engine : RegExpEngine} {store_engine : Store.StoreEngine}.

Section Cell.

Variable fields : list string.
Variable rec_t : value -> string -> option (outcome value).
Variable rec_s : store -> sval -> string -> option (result sval).
Hypothesis rec_follows : forall σ F sv v ctx,
  repr σ F sv v -> follows σ F sv (rec_t v ctx) (rec_s σ sv ctx).

Lemma recurse_write_cell l0 (σ : store) sps ps F k c q σ' :
  σ !! l0 = Some (CObj sps) -> repr_props σ F sps ps -> l0 ∉ F ->
  rec_t (Obj.read (Params.name k) ps) c = Some (Returns q) ->
  Store.bind (rec_s σ (default SUndefined (Obj.get (Params.name k) sps)) c)
    (fun σ r => Some (Ret (Store.write σ k r (SRef l0)) tt)) = Some (Ret σ' tt) ->
  σ' !! l0
  = Some (CObj (Obj.set (Params.name k)
                  (default SUndefined (Obj.get (Params.name k) sps)) sps)).
Proof.
  intros Hl Hps Hn Ht.
  destruct (Refinement.repr_props_focus σ (Params.name k) F sps ps Hps)
    as (Fc & Fr & Hc & _ & Hsub & _).
  pose proof (rec_follows σ Fc _ _ c Hc) as Hf. rewrite Ht in Hf.
  destruct Hf as (σ1 & Fc' & -> & _ & H1 & _). cbn [Store.bind].
  intros [= <-]. unfold Store.write.
  rewrite H1; [|rewrite Hl; eauto|intros Hin; apply Hn; set_solver].
  rewrite Hl. apply lookup_insert_eq.
Qed.

Lemma tracked_refl sps : Handlers.tracked sps sps.
Proof. intros k c H. exact H. Qed.

Lemma tracked_trans sps sps1 sps2 :
  Handlers.tracked sps sps1 -> Handlers.tracked sps1 sps2 -> Handlers.tracked sps sps2.
Proof. intros H1 H2 k c H. apply H2, H1, H. Qed.

(** A call of the iteratee for a name without a modifier leaves the
    references of the object in place. *)
Lemma iteratee_cell l0 (σ : store) sps ps F ctx s q σ' :
  σ !! l0 = Some (CObj sps) -> repr_props σ F sps ps -> l0 ∉ F ->
  has_modifier s = false ->
  iteratee rec_t fields ctx (KStr s) (VObj ps) = Some (Returns q) ->
  Store.iteratee rec_s fields ctx (SRef l0) σ (KStr s) = Some (Ret σ' tt) ->
  exists sps', σ' !! l0 = Some (CObj sps') /\ Handlers.tracked sps sps'.
Proof.
  intros Hl Hps Hn Hmod. rewrite iteratee_name, Hmod.
  unfold Store.iteratee, Store.resolve_modifier. unfold has_modifier in Hmod.
  rewrite Hmod. cbn [Store.bind]. unfold Store.read. rewrite Hl. cbn [Params.name].
  destruct (repr_read σ F sps ps s Hps) as (Fc & Hc).
  rewrite (Refinement.repr_typeof _ _ _ _ Hc).
  destruct (Js.typeof_object (Obj.read s ps)) eqn:Hty.
  - intros Ht Hs. apply bind_Returns in Ht as (q' & Ht & _).
    assert (Hcell : σ' !! l0
                    = Some (CObj (Obj.set s (default SUndefined (Obj.get s sps)) sps))).
    { unfold context_under in Ht.
      destruct (Str.mem s queryOperatorIgnore);
        exact (recurse_write_cell l0 σ sps ps F (KStr s) _ q' σ' Hl Hps Hn Ht Hs). }
    eexists. split; [exact Hcell|]. intros k c Hk.
    destruct (String.eqb_spec s k) as [->|Hne].
    + rewrite Hk. cbn [default]. apply get_set_eq.
    + rewrite get_set_ne by exact Hne. exact Hk.
  - intros _. unfold allowed.
    assert (Hsv : forall c, Obj.get s sps <> Some (SRef c)).
    { intros c E. rewrite E in Hc. cbn [default] in Hc.
      apply Refinement.repr_typeof in Hc. rewrite Hty in Hc. discriminate Hc. }
    destruct (negb (Str.mem (field_of ctx (KStr s)) fields)
              && negb (Str.mem s queryOperatorIgnore)).
    + unfold Store.delete. rewrite Hl. cbn [Params.name]. intros [= <-].
      eexists. split; [apply lookup_insert_eq|]. intros k c Hk.
      destruct (String.eqb_spec s k) as [->|Hne]; [destruct (Hsv c Hk)|].
      rewrite get_delete_ne by exact Hne. exact Hk.
    + intros [= <-]. exists sps. split; [exact Hl|apply tracked_refl].
Qed.

Lemma each_cell l0 ctx ks : forall (σ : store) sps ps F q σ',
  σ !! l0 = Some (CObj sps) -> repr_props σ F sps ps -> l0 ∉ F ->
  (forall s, In s ks -> has_modifier s = false) ->
  each (iteratee rec_t fields ctx) (map KStr ks) (VObj ps) = Some (Returns q) ->
  Store.each (Store.iteratee rec_s fields ctx (SRef l0)) (map KStr ks) σ
  = Some (Ret σ' tt) ->
  exists sps', σ' !! l0 = Some (CObj sps') /\ Handlers.tracked sps sps'.
Proof.
  induction ks as [|s ks IH]; intros σ sps ps F q σ' Hl Hps Hn Hmod;
    cbn [map each Store.each].
  - intros _ [= <-]. exists sps. split; [exact Hl|apply tracked_refl].
  - intros Ht Hs. apply bind_Returns in Ht as (p1 & Ht1 & Ht).
    pose proof (Refinement.iteratee_follows_obj fields rec_t rec_s rec_follows
                  l0 σ sps ps F ctx (KStr s) Hl Hps Hn) as Hstep.
    rewrite Ht1 in Hstep. cbn [Store.follows_obj] in Hstep.
    destruct Hstep as (σ1 & sps1 & ps1 & F1 & Hs1 & -> & Hl1 & Hps1 & Hn1 & _).
    rewrite Hs1 in Hs. cbn [Store.bind] in Hs.
    destruct (iteratee_cell l0 σ sps ps F ctx s _ σ1 Hl Hps Hn
                (Hmod s (or_introl eq_refl)) Ht1 Hs1) as (sps1' & Hl1' & Htr).
    rewrite Hl1 in Hl1'. injection Hl1' as <-.
    destruct (IH σ1 sps1 ps1 F1 q σ' Hl1 Hps1 Hn1
                (fun s' Hs' => Hmod s' (or_intror Hs')) Ht Hs) as (sps' & Hl' & Htr').
    exists sps'. split; [exact Hl'|]. eapply tracked_trans; eassumption.
Qed.

End Cell.

(** The query of [findDocuments] and [deleteDocuments] for a loaded
    payload. *)
Lemma query_with_id_loaded (ps : props) (fields : list string) (σ : store) :
  List.NoDup (Obj.keys ps) ->
  Js.isObject (Js.or_else (Obj.read "id" ps) (Obj.read "_id" ps)) = false ->
  match buildQueryFromParams (VObj ps) fields "" with
  | Some (Returns q) =>
      exists qs σ' query n,
        q = VObj qs
        /\ Handlers.query_with_id (fuel_for (VObj ps))
             (Store.load σ (VObj ps)).1 (Store.load σ (VObj ps)).2 fields
           = Some (Ret σ' query)
        /\ Store.reify n σ' query
           = Some (VObj (Handlers.with_id
                           (Js.or_else (Obj.read "id" ps) (Obj.read "_id" ps)) qs))
  | Some (Throws e) =>
      exists σ',
        Handlers.query_with_id (fuel_for (VObj ps))
          (Store.load σ (VObj ps)).1 (Store.load σ (VObj ps)).2 fields
        = Some (Thr σ' e)
  | None => False
  end.
Proof.
  intros Hnd Hid.
  destruct (Refinement.load_repr (VObj ps) σ) as (F & Hr & _).
  destruct (Store.load σ (VObj ps)) as [σ0 params]. cbn [fst snd] in *.
  apply repr_obj_inv in Hr as (lp & F' & sps & -> & -> & Hl & Hps & Hn).
  destruct (clone_repr σ0 F' lp sps ps Hl Hps Hn Hnd) as (lc & Hfresh & Ha & He & Hc).
  assert (Hne : lc <> lp) by congruence.
  unfold Handlers.query_with_id, Store.findDocuments, Store.or_new_object.
  cbn [Store.truthy]. rewrite Ha, He.
  pose proof (Refinement.compile_follows (fuel_for (VObj ps)) fields _ _ _ _ "" Hc) as Hf.
  unfold buildQueryFromParams.
  destruct (compile_total (fuel_for (VObj ps)) (VObj ps) fields "" (le_n _))
    as (r & Hret & _).
  rewrite Hret in *. destruct r as [q|e]; cbn [Store.follows] in Hf.
  2:{ destruct Hf as (σ' & ->). exists σ'. reflexivity. }
  destruct Hf as (σ3 & F3 & -> & Hq & H1 & H2 & H3). cbn [Store.bind].
  destruct (compile_same_kind _ _ _ _ _ Hret) as (qs & ->).
  apply repr_obj_inv in Hq as (l3 & F3' & sps3 & E & -> & Hl3 & Hps3 & Hn3).
  injection E as <-.
  assert (Hlp : σ3 !! lp = σ0 !! lp).
  { rewrite H1.
    - apply lookup_insert_ne. exact Hne.
    - rewrite lookup_insert_ne by exact Hne. eauto.
    - intros Hin. apply elem_of_union in Hin as [Hin|Hin]; [|contradiction].
      apply elem_of_singleton in Hin. congruence. }
  destruct (repr_id_of σ0 F' lp sps ps Hl Hps) as (Fid & Hrid).
  rewrite (id_of_cell σ0 σ3 lp Hlp).
  set (id := Js.or_else (Obj.read "id" ps) (Obj.read "_id" ps)) in *.
  set (sid := Handlers.id_of σ0 (SRef lp)) in *.
  rewrite (Refinement.repr_truthy _ _ _ _ Hrid). unfold Handlers.with_id.
  destruct (Js.truthy id).
  - unfold Store.write. rewrite Hl3. cbn [Params.name].
    set (σ4 := <[lc := CObj (Obj.set "_id" sid sps3)]> σ3).
    destruct (Refinement.repr_props_focus σ3 "_id" _ _ _ Hps3)
      as (Fc & Fr & _ & _ & Hsub & Hplug & _).
    destruct (Hplug σ4 ∅ sid id) as (F4 & Hsub4 & Hps4).
    + intros l Hin. apply lookup_insert_ne. intros ->. apply Hn3. set_solver.
    + exact (repr_scalar _ _ _ _ Hrid Hid σ4).
    + set_solver.
    + assert (Hr4 : repr σ4 ({[lc]} ∪ F4) (SRef lc) (VObj (Obj.set "_id" id qs))).
      { eapply repr_obj; [apply lookup_insert_eq|exact Hps4|].
        intros Hin. apply Hn3. set_solver. }
      destruct (proj1 (Refinement.repr_reify σ4) _ _ _ Hr4) as [n Hn4].
      exists qs, σ4, (SRef lc), n. split; [reflexivity|]. split; [reflexivity|].
      apply Hn4. lia.
  - assert (Hr3 : repr σ3 ({[lc]} ∪ F3') (SRef lc) (VObj qs)).
    { eapply repr_obj; eassumption. }
    destruct (proj1 (Refinement.repr_reify σ3) _ _ _ Hr3) as [n Hn3'].
    exists qs, σ3, (SRef lc), n. split; [reflexivity|]. split; [reflexivity|].
    apply Hn3'. lia.
Qed.

Lemma context_under_query : context_under "" "_query" = "_query".
Proof. reflexivity. Qed.

Lemma isEmpty_repr (σ : store) F l ps :
  repr σ F (SRef l) (VObj ps) ->
  Handlers.isEmpty σ (SRef l) = match ps with [] => true | _ => false end.
Proof.
  intros H. apply repr_obj_inv in H as (l' & F' & sps & [= <-] & _ & Hl & Hps & _).
  unfold Handlers.isEmpty. rewrite Hl. destruct Hps; reflexivity.
Qed.

(** The query of [updateDocument] for a loaded payload whose [_query]
    is a mapping. *)
Lemma update_query_loaded (ps qps : props) (fields : list string) (σ : store)
    (d : value) (qd q2 : props) :
  Plain.plain ps -> array_length ps = None ->
  Obj.read "_query" ps = VObj qps -> List.NoDup (Obj.keys qps) ->
  Js.isObject (Js.or_else (Obj.read "id" ps) (Obj.read "_id" ps)) = false ->
  buildQueryFromParams (VObj ps) fields "" = Some (Returns d) ->
  buildQueryFromParams (VObj qps) fields "_query" = Some (Returns (VObj qd)) ->
  buildQueryFromParams (VObj qd) fields "" = Some (Returns (VObj q2)) ->
  exists σ' query document n,
    Handlers.updateDocument (fuel_for (VObj ps))
      (Store.load σ (VObj ps)).1 (Store.load σ (VObj ps)).2 fields
    = Some (Ret σ' (query, document))
    /\ Store.reify n σ' query
       = Some (VObj (Handlers.or_by_id
                       (Js.or_else (Obj.read "id" ps) (Obj.read "_id" ps)) q2)).
Proof.
  intros [Hnd Hmod] Hlen Hq Hndq Hid Hd Hqd Hq2.
  assert (Hgq : Obj.get "_query" ps = Some (VObj qps)).
  { unfold Obj.read in Hq. destruct (Obj.get "_query" ps); [congruence|discriminate]. }
  (* the trees *)
  pose proof Hd as Hd'. unfold buildQueryFromParams in Hd'.
  destruct (compile_same_kind _ _ _ _ _ Hd') as (ds & ->).
  assert (Hgd : Obj.get "_query" ds = Some (VObj qd)).
  { rewrite (compile_plain ps fields "" (conj Hnd Hmod) Hlen) in Hd.
    apply bind_Returns in Hd as (qs & He & [= <-]).
    destruct (entries_get _ fields "" "_query" (VObj qps) ps qs He Hgq eq_refl)
      as (r & Hr & Hg).
    cbv beta in Hr. rewrite context_under_query, Hqd in Hr. injection Hr as <-. exact Hg. }
  assert (Hndd : List.NoDup (Obj.keys qd)).
  { exact (compile_nodup _ _ _ _ _ Hndq Hqd). }
  assert (Hfuel : (fuel_for (VObj qd) <= fuel_for (VObj ps))%nat).
  { destruct (compile_total (fuel_for (VObj qps)) (VObj qps) fields "_query" (le_n _))
      as (r & Hr & Hb).
    unfold buildQueryFromParams in Hqd. rewrite Hqd in Hr. injection Hr as <-.
    specialize (Hb _ eq_refl).
    pose proof (list_max_In (map (fun kv => fuel_for (snd kv)) ps) (fuel_for (VObj qps))
                  (in_map (fun kv => fuel_for (snd kv)) ps _ (get_Some_In _ _ _ Hgq))).
    change (fuel_for (VObj ps)) with (S (list_max (map (fun kv => fuel_for (snd kv)) ps))).
    lia. }
  (* the payload in the store *)
  destruct (Refinement.load_repr (VObj ps) σ) as (F & Hr & _).
  destruct (Store.load σ (VObj ps)) as [σ0 params]. cbn [fst snd] in *.
  apply repr_obj_inv in Hr as (lp & F' & sps & -> & -> & Hl & Hps & Hn).
  destruct (clone_repr σ0 F' lp sps ps Hl Hps Hn Hnd) as (lc & Hfresh & Ha & He & Hc).
  assert (Hne : lc <> lp) by congruence.
  unfold Handlers.updateDocument, Store.or_new_object.
  cbn [Store.truthy]. rewrite Ha, He.
  (* the first pass *)
  pose proof (Refinement.compile_follows (fuel_for (VObj ps)) fields _ _ _ _ "" Hc) as Hf.
  rewrite Hd' in Hf. cbn [Store.follows] in Hf.
  destruct Hf as (σ3 & F3 & Hs3 & Hr3 & H1 & H2 & H3). rewrite Hs3. cbn [Store.bind].
  assert (Htr : exists sps3, σ3 !! lc = Some (CObj sps3) /\ Handlers.tracked sps sps3).
  { change (fuel_for (VObj ps))
      with (S (list_max (map (fun kv => fuel_for (snd kv)) ps))) in Hs3, Hd'.
    rewrite buildQueryFromParams_fuel_S in Hd'.
    cbn [Js.isObject negb each_keys] in Hd'. rewrite Hlen in Hd'.
    cbn [Store.buildQueryFromParams_fuel Store.isObject negb] in Hs3.
    rewrite (Refinement.repr_each_keys _ _ _ _ Hc) in Hs3.
    cbn [each_keys] in Hs3. rewrite Hlen in Hs3.
    match type of Hs3 with
    | Store.bind ?m _ = _ => destruct m as [[σe []|σe e]|] eqn:Hm; try discriminate Hs3
    end.
    cbn [Store.bind] in Hs3. injection Hs3 as ->.
    eapply (each_cell fields _ _ (Refinement.compile_follows _ fields) lc "" (Obj.keys ps));
      [apply lookup_insert_eq| | |exact Hmod|exact Hd'|exact Hm].
    - apply (proj2 (proj2 (Refinement.repr_frame σ0)) _ _ _ Hps).
      intros l Hin. apply lookup_insert_ne. intros ->.
      destruct (proj2 (proj2 (Refinement.repr_dom σ0)) _ _ _ Hps _ Hin). congruence.
    - intros Hin.
      destruct (proj2 (proj2 (Refinement.repr_dom σ0)) _ _ _ Hps _ Hin). congruence. }
  destruct Htr as (sps3 & Hl3 & Htr).
  (* [params._query] and [document._query] are one object *)
  pose proof (Refinement.repr_props_get σ0 "_query" _ _ _ Hps) as Hg0.
  rewrite Hgq in Hg0. destruct Hg0 as (sq & Fq0 & Hsq0 & Hrq0).
  apply repr_obj_inv in Hrq0 as (lo & _ & _ & -> & _).
  pose proof (Htr _ _ Hsq0) as Hsq.
  apply repr_obj_inv in Hr3 as (l3 & F3' & sps3' & E & -> & Hl3' & Hps3 & Hn3).
  injection E as <-. rewrite Hl3 in Hl3'. injection Hl3' as <-.
  destruct (Refinement.repr_props_focus σ3 "_query" _ _ _ Hps3)
    as (Fo & Fr & Hro & _ & Hsub & _).
  rewrite Hsq in Hro. unfold Obj.read in Hro. rewrite Hgd in Hro. cbn [default] in Hro.
  assert (Hlp : σ3 !! lp = σ0 !! lp).
  { rewrite H1.
    - apply lookup_insert_ne. exact Hne.
    - rewrite lookup_insert_ne by exact Hne. eauto.
    - intros Hin. apply elem_of_union in Hin as [Hin|Hin]; [|contradiction].
      apply elem_of_singleton in Hin. congruence. }
  assert (Hlp3 : lp ∉ {[lc]} ∪ F3').
  { intros Hin. destruct (H2 _ Hin) as [Hin'|Hnone].
    - apply elem_of_union in Hin' as [Hin'|Hin']; [|contradiction].
      apply elem_of_singleton in Hin'. congruence.
    - rewrite lookup_insert_ne in Hnone by exact Hne. congruence. }
  (* the second pass *)
  pose proof Hro as Hro'.
  apply repr_obj_inv in Hro' as (lo' & Fo' & spso & E & -> & Hlo & Hpso & Hno).
  injection E as <-.
  destruct (clone_repr σ3 Fo' lo spso qd Hlo Hpso Hno Hndd)
    as (lc2 & Hfresh2 & Ha2 & He2 & Hc2).
  assert (Hne2 : lc2 <> lp) by (intros ->; rewrite Hlp, Hl in Hfresh2; discriminate).
  assert (Hread : Store.read (<[lc2 := CObj []]> σ3) (KStr "_query") (SRef lp) = SRef lo).
  { unfold Store.read. rewrite lookup_insert_ne by exact Hne2.
    rewrite Hlp, Hl. cbn [Params.name]. rewrite Hsq0. reflexivity. }
  rewrite Ha2, Hread, He2.
  pose proof (Refinement.compile_follows (fuel_for (VObj ps)) fields _ _ _ _ "" Hc2) as Hf2.
  rewrite (compile_enough_fuel _ _ fields "" Hfuel), Hq2 in Hf2. cbn [Store.follows] in Hf2.
  destruct Hf2 as (σ5 & F5 & -> & Hr5 & H51 & H52 & H53). cbn [Store.bind].
  rewrite (isEmpty_repr _ _ _ _ Hr5).
  assert (Hlp5 : σ5 !! lp = σ0 !! lp).
  { rewrite <- Hlp. rewrite H51.
    - apply lookup_insert_ne. exact Hne2.
    - rewrite lookup_insert_ne by exact Hne2. rewrite Hlp, Hl. eauto.
    - intros Hin. apply elem_of_union in Hin as [Hin|Hin].
      + apply elem_of_singleton in Hin. congruence.
      + apply Hlp3. set_solver. }
  destruct (repr_id_of σ0 F' lp sps ps Hl Hps) as (Fid & Hrid).
  rewrite (id_of_cell σ0 σ5 lp Hlp5).
  set (id := Js.or_else (Obj.read "id" ps) (Obj.read "_id" ps)) in *.
  set (sid := Handlers.id_of σ0 (SRef lp)) in *.
  destruct q2 as [|kv q2]; cbn [Handlers.or_by_id].
  - destruct (Store.alloc σ5 (CObj [("_id", sid)])) as [σ6 query] eqn:Ha6.
    apply Refinement.alloc_spec in Ha6 as (l6 & -> & Hfresh6 & ->).
    assert (Hr6 : repr (<[l6 := CObj [("_id", sid)]]> σ5) ({[l6]} ∪ (∅ ∪ ∅)) (SRef l6)
                    (VObj [("_id", id)])).
    { eapply repr_obj; [apply lookup_insert_eq| |set_solver].
      apply repr_props_cons; [|constructor|set_solver].
      exact (repr_scalar _ _ _ _ Hrid Hid _). }
    destruct (proj1 (Refinement.repr_reify _) _ _ _ Hr6) as [n Hn6].
    eexists _, _, _, n. split; [reflexivity|]. apply Hn6. lia.
  - destruct (proj1 (Refinement.repr_reify σ5) _ _ _ Hr5) as [n Hn5].
    eexists _, _, _, n. split; [reflexivity|]. apply Hn5. lia.
Qed.

(** X15.  The query the socket handlers [findDocuments] and
    [deleteDocuments] hand to [crud], for a payload as the socket
    delivers it, in which no property at any depth is named
    [__proto__], [__proto__.contains] or [__proto__.regex], with an id
    that is no object: it is the compiled payload, in which [_id] is
    set to [params.id || params._id] when that counts as true, whatever
    the whitelist says of [_id]; the handlers throw when the compiler
    does. *)
Theorem socket_query_of_payload (ps : props) (fields : list string) (σ : store) :
  List.NoDup (Obj.keys ps) ->
  proto_free (VObj ps) = true ->
  Js.isObject (Js.or_else (Obj.read "id" ps) (Obj.read "_id" ps)) = false ->
  match buildQueryFromParams (VObj ps) fields "" with
  | Some (Returns q) =>
      exists qs σ' query n,
        q = VObj qs
        /\ Handlers.query_with_id (fuel_for (VObj ps))
             (Store.load σ (VObj ps)).1 (Store.load σ (VObj ps)).2 fields
           = Some (Ret σ' query)
        /\ Store.reify n σ' query
           = Some (VObj (Handlers.with_id
                           (Js.or_else (Obj.read "id" ps) (Obj.read "_id" ps)) qs))
  | Some (Throws e) =>
      exists σ',
        Handlers.query_with_id (fuel_for (VObj ps))
          (Store.load σ (VObj ps)).1 (Store.load σ (VObj ps)).2 fields
        = Some (Thr σ' e)
  | None => False
  end.
Proof. intros Hnd _. exact (query_with_id_loaded ps fields σ Hnd). Qed.

End ReferencesCompiledCloneKeeps.

Section ReferencesCompiledCloneKeepsExamples.

#[local] Existing Instance sample_engine.
#[local] Existing Instance sample_store_engine.

Lemma socket_query_of_payload_witness :
  List.NoDup (Obj.keys socket_payload)
  /\ proto_free (VObj socket_payload) = true
  /\ Js.isObject (Js.or_else (Obj.read "id" socket_payload)
                    (Obj.read "_id" socket_payload)) = false
  /\ exists qs σ' query n,
       buildQueryFromParams (VObj socket_payload) ["name"] "" = Some (Returns (VObj qs))
       /\ Handlers.query_with_id (fuel_for (VObj socket_payload))
            (Store.load (∅ : store) (VObj socket_payload)).1
            (Store.load (∅ : store) (VObj socket_payload)).2 ["name"]
          = Some (Ret σ' query)
       /\ Store.reify n σ' query
          = Some (VObj (Handlers.with_id (VStr "5") qs)).
Proof.
  assert (Hnd : List.NoDup (Obj.keys socket_payload)).
  { repeat (constructor; [cbn; intuition discriminate|]). constructor. }
  split; [exact Hnd|]. split; [reflexivity|]. split; [reflexivity|].
  pose proof (socket_query_of_payload socket_payload ["name"] ∅ Hnd eq_refl eq_refl) as H.
  assert (E : buildQueryFromParams (VObj socket_payload) ["name"] ""
              = Some (Returns (VObj [("name", VStr "Ann")]))) by reflexivity.
  rewrite E in H. destruct H as (qs & σ' & query & n & Hq & H1 & H2).
  exists qs, σ', query, n. split; [rewrite E, Hq; reflexivity|].
  split; [exact H1|exact H2].
Defined.

End ReferencesCompiledCloneKeepsExamples.

Section ReferencesCompiledCloneKeeps2.

Context {engine : RegExpEngine} {store_engine : Store.StoreEngine}.



End ReferencesCompiledCloneKeeps2.

Section ReferencesCompiledCloneKeepsExamples2.

#[local] Existing Instance sample_engine.
#[local] Existing Instance sample_store_engine.


End ReferencesCompiledCloneKeepsExamples2.

Section ReferencesCompiledCloneKeeps3.

Context {engine : RegExpEngine} {store_engine : Store.StoreEngine}.

(** X18.  The query the socket handler [updateDocument] hands to
    [crud.update], for a payload that has no name twice, no name that
    ends in a modifier and no numeric [length], in which no property at
    any depth is named [__proto__], [__proto__.contains] or
    [__proto__.regex], whose [_query] is a mapping without a name
    twice, and whose id is no object, when the compiler returns on it:
    since the copy compiled as the document shares the [_query] object
    with the payload, the query is compiled from what the first pass
    left of [_query], that is from [_query] compiled in the context
    [_query], and compiled again without a context; when that is
    empty, the query is [{ _id: params.id || params._id }]. *)
Theorem update_query_compiled_twice (ps qps : props) (fields : list string) (σ : store)
    (d : value) (qd q2 : props) :
  Plain.plain ps -> array_length ps = None -> proto_free (VObj ps) = true ->
  Obj.read "_query" ps = VObj qps -> List.NoDup (Obj.keys qps) ->
  Js.isObject (Js.or_else (Obj.read "id" ps) (Obj.read "_id" ps)) = false ->
  buildQueryFromParams (VObj ps) fields "" = Some (Returns d) ->
  buildQueryFromParams (VObj qps) fields "_query" = Some (Returns (VObj qd)) ->
  buildQueryFromParams (VObj qd) fields "" = Some (Returns (VObj q2)) ->
  exists σ' query document n,
    Handlers.updateDocument (fuel_for (VObj ps))
      (Store.load σ (VObj ps)).1 (Store.load σ (VObj ps)).2 fields
    = Some (Ret σ' (query, document))
    /\ Store.reify n σ' query
       = Some (VObj (Handlers.or_by_id
                       (Js.or_else (Obj.read "id" ps) (Obj.read "_id" ps)) q2)).
Proof.
  intros Hp Hlen _. exact (update_query_loaded ps qps fields σ d qd q2 Hp Hlen).
Qed.

End ReferencesCompiledCloneKeeps3.

Section ReferencesCompiledCloneKeepsExamples3.

#[local] Existing Instance sample_engine.
#[local] Existing Instance sample_store_engine.

Lemma update_query_compiled_twice_witness :
  Plain.plain update_payload /\ array_length update_payload = None
  /\ proto_free (VObj update_payload) = true
  /\ Obj.read "_query" update_payload = VObj [("name", VStr "Bob"); ("role", VStr "admin")]
  /\ List.NoDup (Obj.keys [("name", VStr "Bob"); ("role", VStr "admin")])
  /\ Js.isObject (Js.or_else (Obj.read "id" update_payload)
                    (Obj.read "_id" update_payload)) = false
  /\ buildQueryFromParams (VObj update_payload) ["name"; "_query.name"; "_query.role"] ""
     = Some (Returns (VObj [("name", VStr "Ann");
                            ("_query", VObj [("name", VStr "Bob");
                                             ("role", VStr "admin")])]))
  /\ buildQueryFromParams (VObj [("name", VStr "Bob"); ("role", VStr "admin")])
       ["name"; "_query.name"; "_query.role"] "_query"
     = Some (Returns (VObj [("name", VStr "Bob"); ("role", VStr "admin")]))
  /\ buildQueryFromParams (VObj [("name", VStr "Bob"); ("role", VStr "admin")])
       ["name"; "_query.name"; "_query.role"] ""
     = Some (Returns (VObj [("name", VStr "Bob")]))
  /\ exists σ' query document n,
       Handlers.updateDocument (fuel_for (VObj update_payload))
         (Store.load (∅ : store) (VObj update_payload)).1
         (Store.load (∅ : store) (VObj update_payload)).2
         ["name"; "_query.name"; "_query.role"]
       = Some (Ret σ' (query, document))
       /\ Store.reify n σ' query
          = Some (VObj (Handlers.or_by_id VUndefined [("name", VStr "Bob")])).
Proof.
  assert (Hp : Plain.plain update_payload).
  { split.
    - repeat (constructor; [cbn; intuition discriminate|]). constructor.
    - intros k [<-|[<-|[]]]; reflexivity. }
  assert (Hnd : List.NoDup (Obj.keys [("name", VStr "Bob"); ("role", VStr "admin")])).
  { repeat (constructor; [cbn; intuition discriminate|]). constructor. }
  split; [exact Hp|]. split; [reflexivity|]. split; [reflexivity|].
  split; [reflexivity|].
  split; [exact Hnd|]. split; [reflexivity|]. split; [reflexivity|].
  split; [reflexivity|]. split; [reflexivity|].
  exact (update_query_compiled_twice update_payload
           [("name", VStr "Bob"); ("role", VStr "admin")]
           ["name"; "_query.name"; "_query.role"] ∅ _ _ _
           Hp eq_refl eq_refl eq_refl Hnd eq_refl eq_refl eq_refl eq_refl).
Defined.

End ReferencesCompiledCloneKeepsExamples3.

Section ReferencesCompiledCloneKeeps4.

Context {engine : RegExpEngine} {store_engine : Store.StoreEngine}.


End ReferencesCompiledCloneKeeps4.

Section ReferencesCompiledCloneKeepsExamples4.

#[local] Existing Instance sample_engine.
#[local] Existing Instance sample_store_engine.


End ReferencesCompiledCloneKeepsExamples4.

End HandlerFacts.
